(** * better_rover: classification, location, confidence and clustering engine

    A shallow embedding of the numerical core of the repository:

    - [src/src/access_point_classifier.py]  ([AccessPointClassifier])
    - [src/src/co_traveler_analysis.py]     (the stand-alone script)
    - [src/src/flagged_signals_analysis.py] (the confidence scorer)
    - [src/BR-Lite/FIDIM/static_aggregate.py] (the static aggregator)

    Numbers are rationals ([Q]): Python floats are read as exact numbers, so
    rounding error is outside the model, except where a property depends on
    it; there the computation is repeated on IEEE doubles ([PrimFloat]).  The
    great-circle distance is built from [sin], [cos], [atan2] and [sqrt]; it
    is kept abstract as a Section variable [haversine], and the loops around
    it are embedded as written. *)

From Stdlib Require Import PrimFloat.
From Stdlib Require Import String Ascii.
From Stdlib Require Import List ZArith QArith Qminmax Qround Lia Lqa Bool.
From Stdlib Require Import Permutation.
Import ListNotations.
Open Scope Q_scope.

(** ** Data model *)

(** A coordinate pair, [(latitude, longitude)] in decimal degrees. *)
Definition coord : Type := (Q * Q)%type.

(** One row of the merged data frame whose [mac], [ssid], [latitude] and
    [longitude] cells are present; rows in which one of them is missing are
    the subject of [csv_row] below.  [time_dt] is the column produced by
    [pd.to_datetime(..., errors="coerce")]: [None] is [NaT].  [rssi] is [None]
    where the column holds [NaN]. *)
Record detection : Type := mkDetection {
  mac : string;
  ssid : string;
  time_dt : option Z;
  rssi : option Q;
  latitude : Q;
  longitude : Q;
  source_file : string
}.

Inductive classification : Type :=
| CoTraveler
| Static
| Unknown.

Definition classification_eqb (a b : classification) : bool :=
  match a, b with
  | CoTraveler, CoTraveler | Static, Static | Unknown, Unknown => true
  | _, _ => false
  end.

(** [list(zip(records["latitude"], records["longitude"]))] *)
Definition coords_of (records : list detection) : list coord :=
  map (fun r => (latitude r, longitude r)) records.

(** ** Python helpers *)

(** The index pairs visited by
    [for i in range(n): for j in range(i + 1, n):], in visiting order. *)
Fixpoint pairs {A : Type} (l : list A) : list (A * A) :=
  match l with
  | [] => []
  | x :: xs => map (pair x) xs ++ pairs xs
  end.

Definition Qgtb (a b : Q) : bool := negb (Qle_bool a b).
Definition Qgeb (a b : Q) : bool := Qle_bool b a.

Definition Qsum (l : list Q) : Q := fold_left Qplus l 0.

(** [Series.mean()] of a numeric column. *)
Definition Qmean (l : list Q) : Q := Qsum l / inject_Z (Z.of_nat (length l)).

(** [Series.min()] / [Series.max()] on a datetime column: [NaT] entries are
    skipped, and the result is [NaT] when nothing is left. *)
Definition series_times (l : list (option Z)) : list Z :=
  flat_map (fun o => match o with Some t => [t] | None => [] end) l.

Definition series_min (l : list (option Z)) : option Z :=
  match series_times l with
  | [] => None
  | t :: ts => Some (fold_left Z.min ts t)
  end.

Definition series_max (l : list (option Z)) : option Z :=
  match series_times l with
  | [] => None
  | t :: ts => Some (fold_left Z.max ts t)
  end.

(** The builtin [min] / [max] on a list of [Timestamp] / [NaT] objects: the
    first item is the running answer, and a later item replaces it when
    [item < answer] (resp. [item > answer]).  Every comparison with [NaT] is
    [False].  An empty list raises [ValueError] ([None] at the outer level). *)
Definition ts_ltb (a b : option Z) : bool :=
  match a, b with
  | Some x, Some y => (x <? y)%Z
  | _, _ => false
  end.

Definition builtin_min (l : list (option Z)) : option (option Z) :=
  match l with
  | [] => None
  | x :: xs => Some (fold_left (fun cur item => if ts_ltb item cur then item else cur) xs x)
  end.

Definition builtin_max (l : list (option Z)) : option (option Z) :=
  match l with
  | [] => None
  | x :: xs => Some (fold_left (fun cur item => if ts_ltb cur item then item else cur) xs x)
  end.

(** ** Thresholds *)

Definition COTRAVELER_DIST_THRESHOLD : Q := 1000.
Definition STATIC_AP_DIST_THRESHOLD : Q := 300.

(** ** The reference classifier of the specification (sections 4.3 and 4.4)

    Written from the specification's words, to be compared with the two
    implementations below. *)

Definition spec_label (max_spread_meters : Q) : classification :=
  if Qgeb max_spread_meters COTRAVELER_DIST_THRESHOLD then CoTraveler
  else if Qle_bool max_spread_meters STATIC_AP_DIST_THRESHOLD then Static
  else Unknown.

(** ** Location estimator *)

(** [AccessPointClassifier._compute_static_ap_coords]:
    [rssi.fillna(-130)], [np.maximum(0, 130 + rssi)], and the truthiness test
    [if total_weight:]. *)
Definition fillna (default : Q) (o : option Q) : Q :=
  match o with Some x => x | None => default end.

Definition ap_weights (group : list detection) : list Q :=
  map (fun r => Qmax 0 (130 + fillna (-130) (rssi r))) group.

Definition weighted_sum (xs ws : list Q) : Q :=
  Qsum (map (fun p => fst p * snd p) (combine xs ws)).

Definition _compute_static_ap_coords (group : list detection) : coord :=
  let weights := ap_weights group in
  let total_weight := Qsum weights in
  if negb (Qeq_bool total_weight 0) then
    (weighted_sum (map latitude group) weights / total_weight,
     weighted_sum (map longitude group) weights / total_weight)
  else
    (Qmean (map latitude group), Qmean (map longitude group)).

(** [static_aggregate.py], step 4: the weight is
    [max(0, 130 + x) if pd.notna(x) else 1], and the test is
    [total_weight > 0].  [static_aggregate_best] is the estimate on a frame
    without the columns [BEST_LAT] and [BEST_LON]; [static_aggregate_location]
    below covers both cases. *)
Definition aggregate_weights (group : list detection) : list Q :=
  map (fun r => match rssi r with Some x => Qmax 0 (130 + x) | None => 1 end) group.

Definition static_aggregate_best (group : list detection) : coord :=
  let weights := aggregate_weights group in
  let total_weight := Qsum weights in
  if Qgtb total_weight 0 then
    (weighted_sum (map latitude group) weights / total_weight,
     weighted_sum (map longitude group) weights / total_weight)
  else
    (Qmean (map latitude group), Qmean (map longitude group)).

(** The estimator as the specification words it (section 4.5), with the
    fallback weight as a parameter. *)
Definition spec_weight (fallback : Q) (r : detection) : Q :=
  match rssi r with
  | Some x => Qmax 0 (130 + x)
  | None => fallback
  end.

Definition spec_best_location (fallback : Q) (group : list detection) : coord :=
  let ws := map (spec_weight fallback) group in
  let total := Qsum ws in
  if Qeq_bool total 0 then
    (Qmean (map latitude group), Qmean (map longitude group))
  else
    (weighted_sum (map latitude group) ws / total,
     weighted_sum (map longitude group) ws / total).

Section Engine.

(** The distance primitive, [haversine(lat1, lon1, lat2, lon2)], in metres. *)
Variable haversine : coord -> coord -> Q.

(** ** Classifier of [AccessPointClassifier.classify] *)

(** The body of the double loop: [if max_dist is None or dist > max_dist]. *)
Definition ap_step (max_dist : option Q) (p : coord * coord) : option Q :=
  let dist := haversine (fst p) (snd p) in
  match max_dist with
  | None => Some dist
  | Some m => if Qgtb dist m then Some dist else Some m
  end.

Definition ap_max_dist (coords : list coord) : option Q :=
  if (1 <? length coords)%nat then fold_left ap_step (pairs coords) None
  else None.

(** Python truthiness of [max_dist]: [None] and [0.0] are false. *)
Definition truthy (max_dist : option Q) : bool :=
  match max_dist with
  | None => false
  | Some m => negb (Qeq_bool m 0)
  end.

(** One dictionary appended to [classified].  [lat] and [lon] are [None]
    where the code stores the empty string. *)
Record ap_result : Type := mkApResult {
  ap_mac : string;
  ap_ssid : string;
  ap_classification : classification;
  ap_first_seen : option Z;
  ap_last_seen : option Z;
  ap_lat : option Q;
  ap_lon : option Q;
  ap_max_dist_field : option Q;
  ap_coords : list coord
}.

Definition ap_classify_group (key_mac key_ssid : string) (records : list detection)
  : ap_result :=
  let coords := coords_of records in
  let best := _compute_static_ap_coords records in
  let max_dist := ap_max_dist coords in
  let '(cls, lat, lon) :=
    match max_dist with
    | Some m =>
        if truthy max_dist then
          if Qgeb m COTRAVELER_DIST_THRESHOLD then (CoTraveler, None, None)
          else if Qle_bool m STATIC_AP_DIST_THRESHOLD
               then (Static, Some (fst best), Some (snd best))
               else (Unknown, Some (fst best), Some (snd best))
        else (Unknown, Some (fst best), Some (snd best))
    | None => (Unknown, Some (fst best), Some (snd best))
    end in
  mkApResult key_mac key_ssid cls
    (series_min (map time_dt records)) (series_max (map time_dt records))
    lat lon max_dist coords.

(** ** Classifier of the script [co_traveler_analysis.py], step 5 *)

Definition script_step (st : bool * Q) (p : coord * coord) : bool * Q :=
  let '(is_cotraveler, max_dist) := st in
  let d := haversine (fst p) (snd p) in
  (if Qgeb d 1000 then true else is_cotraveler,
   if Qgtb d max_dist then d else max_dist).

Record script_result : Type := mkScriptResult {
  sc_mac : string;
  sc_ssid : string;
  sc_classification : classification;
  sc_first_seen : option (option Z);
  sc_last_seen : option (option Z);
  sc_max_dist : Q
}.

Definition script_classify_coords (coords : list coord) : classification * Q :=
  if (length coords <? 2)%nat then (Unknown, 0)
  else
    let '(is_cotraveler, max_dist) := fold_left script_step (pairs coords) (false, 0) in
    (if is_cotraveler then CoTraveler
     else if Qle_bool max_dist 300 then Static
     else Unknown,
     max_dist).

Definition script_classify_group (key_mac key_ssid : string) (records : list detection)
  : script_result :=
  let coords := coords_of records in
  let times := map time_dt records in
  let '(cls, group_max) := script_classify_coords coords in
  mkScriptResult key_mac key_ssid cls (builtin_min times) (builtin_max times) group_max.

(** ** The spread analyzer of the specification (section 4.3) *)

(** The maximum over all distinct unordered pairs; 0 with fewer than two
    detections. *)
Definition spec_max_spread (coords : list coord) : Q :=
  match map (fun p => haversine (fst p) (snd p)) (pairs coords) with
  | [] => 0
  | d :: ds => fold_left Qmax ds d
  end.

(** The distances that the double loops visit, in visiting order. *)
Definition pair_distances (coords : list coord) : list Q :=
  map (fun p => haversine (fst p) (snd p)) (pairs coords).

(** The reference classification result: label and reported spread. *)
Definition spec_classify (coords : list coord) : classification * Q :=
  if (length coords <? 2)%nat then (Unknown, 0)
  else (spec_label (spec_max_spread coords), spec_max_spread coords).

End Engine.

(** ** Spatial clusterer ([cluster_records], [aggregate_cluster]) *)

(** A data frame: rows with their index labels, in row order. *)
Definition frame : Type := list (nat * detection).

(** [records.index.tolist()] *)
Definition index_tolist (records : frame) : list nat := map fst records.

(** [records.loc[idx]]; a label that is not in the index raises [KeyError]. *)
Definition loc (records : frame) (idx : nat) : option detection :=
  option_map snd (find (fun r => (fst r =? idx)%nat) records).

(** [(records.loc[idx, "latitude"], records.loc[idx, "longitude"])] *)
Definition loc_coord (records : frame) (idx : nat) : coord :=
  match loc records idx with
  | Some r => (latitude r, longitude r)
  | None => (0, 0)
  end.

(** [list.remove(x)]: drops the first item equal to [x]. *)
Fixpoint list_remove (x : nat) (l : list nat) : list nat :=
  match l with
  | [] => []
  | y :: ys => if (y =? x)%nat then ys else y :: list_remove x ys
  end.

(** [(records.loc[cluster, "latitude"].mean(),
      records.loc[cluster, "longitude"].mean())] *)
Definition cluster_center (records : frame) (cluster : list nat) : coord :=
  (Qmean (map (fun idx => fst (loc_coord records idx)) cluster),
   Qmean (map (fun idx => snd (loc_coord records idx)) cluster)).

Section Clusterer.

Variable haversine : coord -> coord -> Q.
Variable records : frame.
Variable threshold : Q.

(** The test [d <= threshold] of the pass, for the row labelled [idx]. *)
Definition near (center : coord) (idx : nat) : bool :=
  Qle_bool (haversine center (loc_coord records idx)) threshold.

(** One pass of [for idx in indices:]: the labels appended to [cluster] and
    to [remove_list]. *)
Definition scan (center : coord) (indices : list nat) : list nat :=
  filter (near center) indices.

(** [for idx in remove_list: indices.remove(idx)] *)
Definition remove_all (remove_list indices : list nat) : list nat :=
  fold_left (fun acc idx => list_remove idx acc) remove_list indices.

(** The loop [while changed:].  [fuel] bounds the number of passes; [None]
    means that the bound was reached before the loop ended. *)
Fixpoint rescan_loop (fuel : nat) (cluster indices : list nat) (center : coord)
  : option (list nat * list nat) :=
  match fuel with
  | O => None
  | S fuel' =>
      let remove_list := scan center indices in
      let cluster' := cluster ++ remove_list in
      let indices' := remove_all remove_list indices in
      let center' :=
        match cluster' with
        | [] => center
        | _ :: _ => cluster_center records cluster'
        end in
      match remove_list with
      | [] => Some (cluster', indices')
      | _ :: _ => rescan_loop fuel' cluster' indices' center'
      end
  end.

(** The loop [while indices:].  The same [fuel] bounds the number of outer
    iterations and the number of passes of each inner loop. *)
Fixpoint cluster_loop (fuel : nat) (indices : list nat) (clusters : list (list nat))
  : option (list (list nat)) :=
  match indices with
  | [] => Some clusters
  | current_idx :: rest =>
      match fuel with
      | O => None
      | S fuel' =>
          match rescan_loop fuel [current_idx] rest (loc_coord records current_idx) with
          | None => None
          | Some (cluster, indices') => cluster_loop fuel' indices' (clusters ++ [cluster])
          end
      end
  end.

(** [cluster_records(records, threshold)], run with one unit of fuel per
    row. *)
Definition cluster_records : list (list nat) :=
  match cluster_loop (length records) (index_tolist records) [] with
  | Some clusters => clusters
  | None => []
  end.

(** The centres that [aggregate_cluster] reports for the clusters. *)
Definition cluster_centers : list coord :=
  map (cluster_center records) cluster_records.

(** Every later row is farther than the threshold from every earlier one. *)
Definition separated_rows (indices : list nat) : Prop :=
  Forall (fun p => threshold < haversine (loc_coord records (fst p))
                                         (loc_coord records (snd p)))
         (pairs indices).

End Clusterer.

(** The data frame of the centroids: one row per centre, labelled [0, 1, ...]. *)
Definition centroid_row (c : coord) : detection :=
  mkDetection EmptyString EmptyString None None (fst c) (snd c) EmptyString.

Fixpoint enumerate_from {A : Type} (n : nat) (l : list A) : list (nat * A) :=
  match l with
  | [] => []
  | x :: xs => (n, x) :: enumerate_from (S n) xs
  end.

Definition centroid_frame (centers : list coord) : frame :=
  enumerate_from 0 (map centroid_row centers).

(** Coordinates that denote the same point. *)
Definition coord_eq (a b : coord) : Prop := fst a == fst b /\ snd a == snd b.

(** ** A concrete distance for running the engine on examples

    The flat-earth distance, to the millimetre: within a few hundredths of a
    degree of the equator it agrees with the great-circle distance to well
    under a millimetre per kilometre.  [METERS_PER_DEGREE] is
    [6371000 * pi / 180]. *)
Definition METERS_PER_DEGREE : Q := 1111949266 # 10000.

Definition Qsqrt_mm (x : Q) : Q :=
  inject_Z (Z.sqrt (Qfloor (x * 1000000))) / 1000.

Definition flat_distance (p q : coord) : Q :=
  let dy := (fst q - fst p) * METERS_PER_DEGREE in
  let dx := (snd q - snd p) * METERS_PER_DEGREE in
  Qsqrt_mm (dy * dy + dx * dx).

(** ** Flagged signals analysis ([flagged_signals_analysis.py]) *)

Module Flagged.

(** A row after the column normalisation, [pd.to_numeric(..., "coerce")] and
    [pd.to_datetime(..., "coerce")]: a value that failed to convert, and a
    missing cell, are [None].  The [mac] cell is present: [groupby('mac')]
    leaves out the rows in which it is missing. *)
Record row : Type := mkRow {
  r_mac : string;
  r_ssid : option string;
  r_destmac : option string;
  r_type : option string;
  r_source_file : option string;
  r_time_dt : option Z;
  r_latitude : option Q;
  r_longitude : option Q
}.

Definition notna {A : Type} (o : option A) : bool :=
  match o with Some _ => true | None => false end.

(** [Series.dropna()] *)
Definition dropna {A : Type} (l : list (option A)) : list A :=
  flat_map (fun o => match o with Some x => [x] | None => [] end) l.

(** [df.dropna(subset=['latitude', 'longitude'])] followed by
    [df.dropna(subset=['time_dt'])]. *)
Definition clean (df : list row) : list row :=
  filter (fun r => notna (r_time_dt r))
    (filter (fun r => notna (r_latitude r) && notna (r_longitude r)) df).

(** [sorted(set(...))] on strings. *)
Fixpoint insert_sorted (x : string) (l : list string) : list string :=
  match l with
  | [] => [x]
  | y :: ys => if String.leb x y then x :: y :: ys else y :: insert_sorted x ys
  end.

Definition sorted_set (l : list string) : list string :=
  fold_right insert_sorted [] (nodup string_dec l).

(** [", ".join(sorted(set(column.dropna().astype(str))))] *)
Definition join_sorted_set (column : list (option string)) : string :=
  String.concat ", " (sorted_set (dropna column)).

(** [round(x, ndigits)], read on exact numbers: to the nearest multiple of
    [10 ^ -ndigits], ties to the even one. *)
Definition round_half_even (x : Q) : Z :=
  let f := Qfloor x in
  let r := x - inject_Z f in
  if Qle_bool r (1 # 2) then
    if Qeq_bool r (1 # 2) then (if Z.even f then f else f + 1)%Z else f
  else (f + 1)%Z.

Definition py_round (x : Q) (ndigits : nat) : Q :=
  let s := inject_Z (10 ^ Z.of_nat ndigits) in
  inject_Z (round_half_even (x * s)) / s.

(** The confidence computation, lines 148 to 151. *)
Definition count_factor (count : nat) : Q :=
  Qmin (inject_Z (Z.of_nat count) / 20) 1.

Definition distance_factor (max_distance : Q) : Q :=
  Qmin (Qmax ((max_distance - 300) / 9700) 0) 1.

Definition time_factor (time_range : Q) : Q :=
  Qmin (time_range / 12) 1.

Definition confidence (count : nat) (max_distance time_range : Q) : Q :=
  ((3 # 10) * count_factor count + (4 # 10) * distance_factor max_distance
   + (3 # 10) * time_factor time_range) * 100.

(** The score as the specification words it (section 4.6). *)
Definition clamp (x lo hi : Q) : Q :=
  if Qle_bool x lo then lo else if Qle_bool hi x then hi else x.

Definition spec_confidence (n : nat) (d t : Q) : Q :=
  100 * ((3 # 10) * Qmin (inject_Z (Z.of_nat n) / 20) 1
         + (4 # 10) * clamp ((d - 300) / 9700) 0 1
         + (3 # 10) * Qmin (t / 12) 1).

(** [(last_seen - first_seen).total_seconds() / 3600.0]; instants are in
    seconds.  The subtraction yields [NaT] when an end is missing, which does
    not happen after [clean]. *)
Definition time_range_hours (first_seen last_seen : option Z) : Q :=
  match first_seen, last_seen with
  | Some a, Some b => inject_Z (b - a) / 3600
  | _, _ => 0
  end.

(** One dictionary appended to [results]. *)
Record flagged : Type := mkFlagged {
  fl_mac : string;
  fl_ssid : string;
  fl_destmac : string;
  fl_type : string;
  fl_detections : nat;
  fl_max_distance_m : Q;
  fl_time_range_hours : Q;
  fl_first_seen : option Z;
  fl_last_seen : option Z;
  fl_confidence : Q;
  fl_source_files : string
}.

Section Analysis.

Variable haversine : coord -> coord -> Q.

(** [df[['latitude', 'longitude']].dropna().values] *)
Definition coords_values (df : list row) : list coord :=
  flat_map (fun r => match r_latitude r, r_longitude r with
                     | Some la, Some lo => [(la, lo)]
                     | _, _ => []
                     end) df.

Definition max_step (max_dist : Q) (p : coord * coord) : Q :=
  let d := haversine (fst p) (snd p) in
  if Qgtb d max_dist then d else max_dist.

Definition compute_max_distance (df : list row) : Q :=
  let coords := coords_values df in
  if (length coords <? 2)%nat then 0
  else fold_left max_step (pairs coords) 0.

(** The groups of [df.groupby('mac')]: one per distinct MAC, keys sorted, rows
    in frame order. *)
Definition groupby_mac (df : list row) : list (string * list row) :=
  map (fun key => (key, filter (fun r => String.eqb (r_mac r) key) df))
      (sorted_set (map r_mac df)).

(** The body of [for mac, group in grouped:]; [None] is [continue]. *)
Definition analyse_group (key : string) (group : list row) : option flagged :=
  let count := length group in
  if (count <? 1)%nat then None
  else
    let first_seen := series_min (map r_time_dt group) in
    let last_seen := series_max (map r_time_dt group) in
    let time_range := time_range_hours first_seen last_seen in
    let max_distance := compute_max_distance group in
    if negb (Qle_bool 300 max_distance) then None
    else
      Some (mkFlagged key
              (join_sorted_set (map r_ssid group))
              (join_sorted_set (map r_destmac group))
              (join_sorted_set (map r_type group))
              count
              (py_round max_distance 1)
              (py_round time_range 2)
              first_seen last_seen
              (py_round (confidence count max_distance time_range) 1)
              (join_sorted_set (map r_source_file group))).

(** The list [results] of [main], before it is sorted by confidence. *)
Definition flagged_results (df : list row) : list flagged :=
  flat_map (fun kg => match analyse_group (fst kg) (snd kg) with
                      | Some r => [r]
                      | None => []
                      end)
           (groupby_mac (clean df)).

End Analysis.

End Flagged.

(** ** First and last seen, as the specification words them

    [o] is the earliest (resp. latest) of the parseable timestamps among
    [times], and is absent when none parses. *)
Definition earliest_parseable (times : list (option Z)) (o : option Z) : Prop :=
  match o with
  | Some t => In (Some t) times /\ forall t', In (Some t') times -> (t <= t')%Z
  | None => forall t', ~ In (Some t') times
  end.

Definition latest_parseable (times : list (option Z)) (o : option Z) : Prop :=
  match o with
  | Some t => In (Some t) times /\ forall t', In (Some t') times -> (t' <= t)%Z
  | None => forall t', ~ In (Some t') times
  end.

(** ** Distance bins of the co-traveler map

    [get_bin_label] and [bin_colors] of [co_traveler_analysis.py];
    [Map._get_dist_bin_label] and [Map._get_dist_bin_color] of
    [offline_map.py]. *)

Definition Qltb (a b : Q) : bool := negb (Qle_bool b a).

Definition get_bin_label (max_dist : Q) : string :=
  if Qltb max_dist 5000 then "1-5km"
  else if Qltb max_dist 10000 then "5-10km"
  else if Qltb max_dist 15000 then "10-15km"
  else if Qltb max_dist 20000 then "15-20km"
  else ">20km".

(** The dictionary [bin_colors], in insertion order. *)
Definition bin_colors : list (string * string) :=
  [("1-5km", "green"); ("5-10km", "blue"); ("10-15km", "purple");
   ("15-20km", "orange"); (">20km", "red")]%string.

(** [d[key]]; [None] is [KeyError]. *)
Definition dict_getitem {V : Type} (d : list (string * V)) (key : string) : option V :=
  option_map snd (find (fun kv => String.eqb (fst kv) key) d).

Definition _get_dist_bin_label (max_dist : Q) : string :=
  if Qltb max_dist 5000 then "1-5km"
  else if Qltb max_dist 10000 then "5-10km"
  else if Qltb max_dist 15000 then "10-15km"
  else if Qltb max_dist 20000 then "15-20km"
  else ">20km".

Definition _get_dist_bin_color (max_dist : Q) : string :=
  if Qltb max_dist 5000 then "green"
  else if Qltb max_dist 10000 then "blue"
  else if Qltb max_dist 15000 then "purple"
  else if Qltb max_dist 20000 then "orange"
  else "red".

(** ** The map of [offline_map.py], on numeric [lat] / [lon] columns *)

(** [Map._validate_coordinates]: the rows that stay. *)
Definition invalid_lat (c : coord) : bool :=
  Qltb (fst c) (-90) || Qltb 90 (fst c).

Definition invalid_lon (c : coord) : bool :=
  Qltb (snd c) (-180) || Qltb 180 (snd c).

Definition _validate_coordinates (coordinates_df : list coord) : list coord :=
  filter (fun c => negb (invalid_lat c || invalid_lon c)) coordinates_df.

(** [Map.calculate_map_center] *)
Definition calculate_map_center (coordinates_df : list coord) : coord :=
  if (length coordinates_df =? 0)%nat then (0, 0)
  else (Qmean (map fst coordinates_df), Qmean (map snd coordinates_df)).

(** [Series.max()] and [Series.min()] of a numeric column without missing
    values; the empty column gives [NaN], which the callers below never
    reach. *)
Definition column_max (l : list Q) : Q :=
  match l with
  | [] => 0
  | x :: xs => fold_left Qmax xs x
  end.

Definition column_min (l : list Q) : Q :=
  match l with
  | [] => 0
  | x :: xs => fold_left Qmin xs x
  end.

Definition default_zoom : Z := 10.

(** The cascade at the end of [Map.calculate_zoom_level]. *)
Definition zoom_of_range (max_range : Q) : Z :=
  if Qgtb max_range 10 then 5
  else if Qgtb max_range 5 then 7
  else if Qgtb max_range 1 then 9
  else if Qgtb max_range (1 # 2) then 11
  else 13.

(** [Map.calculate_zoom_level] *)
Definition calculate_zoom_level (coordinates_df : list coord) : Z :=
  if (length coordinates_df <? 2)%nat then default_zoom
  else
    let lat_range := column_max (map fst coordinates_df)
                     - column_min (map fst coordinates_df) in
    let lon_range := column_max (map snd coordinates_df)
                     - column_min (map snd coordinates_df) in
    zoom_of_range (Qmax lat_range lon_range).

(** What [Map._add_cotraveler_track] puts on the map for one row, read from
    the row's [coords] and [max_dist].  [TrackError] is the branch
    [except Exception], reached when [max_dist] is [None] and the comparison
    in [_get_dist_bin_color] raises. *)
Inductive track_action : Type :=
| TrackSkipped
| TrackError
| TrackFallbackMarker (location : coord) (color : string)
| TrackPolyline (locations : list coord) (color : string)
                (start_marker end_marker : coord).

Definition _add_cotraveler_track (coords : list coord) (max_dist : option Q)
  : track_action :=
  match coords with
  | [] => TrackSkipped
  | first :: _ =>
      let track_coords := coords in
      match max_dist with
      | None => TrackError
      | Some m =>
          let marker_color := _get_dist_bin_color m in
          if (length track_coords <? 2)%nat then
            TrackFallbackMarker first marker_color
          else
            TrackPolyline track_coords marker_color first (last track_coords first)
      end
  end.

(** ** Data cleaning ([AccessPointClassifier.clean_data])

    [start_dt] and [end_dt] are [None] when no date was given.  The result is
    [None] where the code calls [sys.exit(1)]. *)
Definition nonzero_position (r : detection) : bool :=
  negb (Qeq_bool (latitude r) 0) && negb (Qeq_bool (longitude r) 0).

Definition in_window (start_dt end_dt : Z) (r : detection) : bool :=
  match time_dt r with
  | Some t => (start_dt <=? t)%Z && (t <=? end_dt)%Z
  | None => false
  end.

Definition clean_data (start_dt end_dt : option Z) (df : list detection)
  : option (list detection) :=
  let df1 := filter nonzero_position df in
  match start_dt, end_dt with
  | Some s, Some e =>
      let df2 := filter (in_window s e) df1 in
      match df2 with
      | [] => None
      | _ :: _ => Some df2
      end
  | _, _ => Some df1
  end.

(** ** Group keys: pairs of a MAC and an SSID *)

Definition key_eqb (a b : string * string) : bool :=
  String.eqb (fst a) (fst b) && String.eqb (snd a) (snd b).

(** The order of tuples of strings. *)
Definition key_leb (a b : string * string) : bool :=
  if String.eqb (fst a) (fst b) then String.leb (snd a) (snd b)
  else String.leb (fst a) (fst b).

Fixpoint insert_key (x : string * string) (l : list (string * string))
  : list (string * string) :=
  match l with
  | [] => [x]
  | y :: ys => if key_leb x y then x :: y :: ys else y :: insert_key x ys
  end.

Definition key_dec (a b : string * string) : {a = b} + {a <> b}.
Proof. decide equality; apply string_dec. Defined.

(** The group keys: distinct, in sorted order. *)
Definition sorted_keys (l : list (string * string)) : list (string * string) :=
  fold_right insert_key [] (nodup key_dec l).

(** ** Static aggregation ([static_aggregate.py], step 4) *)

(** The largest pairwise distance of the group, from 0. *)
Definition aggregate_max_dist (haversine : coord -> coord -> Q)
  (coords : list coord) : Q :=
  if (1 <? length coords)%nat
  then fold_left (Flagged.max_step haversine) (pairs coords) 0
  else 0.

(** The best location of the record appended for the group; [None] when the
    group is left out. *)
Definition aggregate_group (haversine : coord -> coord -> Q)
  (group : list detection) : option coord :=
  if Qle_bool (aggregate_max_dist haversine (coords_of group)) 200
  then Some (static_aggregate_best group)
  else None.

(** ** Cluster summary ([aggregate_cluster]) *)

Record cluster_summary : Type := mkClusterSummary {
  cs_center : coord;
  cs_first_seen : option Z;
  cs_last_seen : option Z;
  cs_source_files : string
}.

(** [records.loc[cluster_indices]]: the rows with these labels, in the order
    of the labels.  A label outside the index raises [KeyError]; the clusters
    of a run hold labels of the frame only. *)
Definition loc_rows (records : frame) (cluster_indices : list nat) : list detection :=
  flat_map (fun idx => match loc records idx with
                       | Some r => [r]
                       | None => []
                       end) cluster_indices.

Definition aggregate_cluster (records : frame) (cluster_indices : list nat)
  : cluster_summary :=
  let clust_data := loc_rows records cluster_indices in
  mkClusterSummary
    (Qmean (map latitude clust_data), Qmean (map longitude clust_data))
    (series_min (map time_dt clust_data))
    (series_max (map time_dt clust_data))
    (String.concat ", " (Flagged.sorted_set (map source_file clust_data))).

(** ** Nested lookup ([get_nested] of [targeted_analytics.py]) *)

(** A decoded JSON value, as far as [get_nested] looks at it: a dictionary
    or anything else. *)
#[local] Set Warnings "-register-all".
Inductive pyobj : Type :=
| PyValue (repr : string)
| PyDict (items : list (string * pyobj)).
#[local] Set Warnings "+register-all".

(** [str.split('.')] *)
Fixpoint split_dot (s : string) : list string :=
  match s with
  | EmptyString => [EmptyString]
  | String c rest =>
      if Ascii.eqb c "."%char then EmptyString :: split_dot rest
      else match split_dot rest with
           | [] => [String c EmptyString]
           | h :: t => String c h :: t
           end
  end.

(** The loop [for key in keys:]. *)
Fixpoint get_nested_keys (data : pyobj) (keys : list string) (default : pyobj)
  : pyobj :=
  match keys with
  | [] => data
  | key :: rest =>
      match data with
      | PyDict items =>
          match dict_getitem items key with
          | Some value => get_nested_keys value rest default
          | None => default
          end
      | PyValue _ => default
      end
  end.

Definition get_nested (data : pyobj) (dotted_key : string) (default : pyobj) : pyobj :=
  get_nested_keys data (split_dot dotted_key) default.

(** The dictionary that holds [value] under the nested keys [path]. *)
Fixpoint nested_dict (path : list string) (value : pyobj) : pyobj :=
  match path with
  | [] => value
  | key :: rest => PyDict [(key, nested_dict rest value)]
  end.

(** [c in s] for a character. *)
Fixpoint contains_char (c : ascii) (s : string) : bool :=
  match s with
  | EmptyString => false
  | String x rest => Ascii.eqb x c || contains_char c rest
  end.

(** ** Groups that grow

    [subseq l l'] : [l'] holds the items of [l], in their order, and possibly
    more. *)
Inductive subseq {A : Type} : list A -> list A -> Prop :=
| subseq_nil : forall l', subseq [] l'
| subseq_keep : forall x l l', subseq l l' -> subseq (x :: l) (x :: l')
| subseq_skip : forall y l l', subseq l l' -> subseq l (y :: l').

(** ** Clusters that keep apart

    Every cluster has a centre, the mean of its members or, for a cluster of
    one, the place of its seed, from which every member of every later
    cluster is farther than the threshold. *)
Fixpoint clusters_apart (haversine : coord -> coord -> Q) (records : frame)
  (threshold : Q) (clusters : list (list nat)) : Prop :=
  match clusters with
  | [] => True
  | c :: later =>
      (exists center,
         (center = cluster_center records c
          \/ exists seed, c = [seed] /\ center = loc_coord records seed)
         /\ Forall (fun idx => threshold < haversine center (loc_coord records idx))
                   (concat later))
      /\ clusters_apart haversine records threshold later
  end.

(** ** Text for the map popups ([Map._escape_for_js]) *)

Fixpoint starts_with (old s : string) : bool :=
  match old with
  | EmptyString => true
  | String a old' =>
      match s with
      | EmptyString => false
      | String b s' => Ascii.eqb a b && starts_with old' s'
      end
  end.

(** [text.replace(old, new)] for a non-empty [old]: the occurrences are
    found from left to right and do not overlap.  [skip] counts the
    characters of a found occurrence that are still to be passed over. *)
Fixpoint replace_from (old new : string) (skip : nat) (s : string) : string :=
  match s with
  | EmptyString => EmptyString
  | String c rest =>
      match skip with
      | S k => replace_from old new k rest
      | O =>
          if starts_with old s
          then String.append new (replace_from old new (String.length old - 1) rest)
          else String c (replace_from old new 0 rest)
      end
  end.

Definition str_replace (old new text : string) : string :=
  replace_from old new 0 text.

Definition backslash : ascii := "\"%char.

(** The character class [[0-7]]. *)
Definition is_octal_digit (c : ascii) : bool :=
  (48 <=? nat_of_ascii c)%nat && (nat_of_ascii c <=? 55)%nat.

(** A match of the pattern of a backslash and three octal digits at the head
    of [s]. *)
Definition octal_escape_at (s : string) : bool :=
  match s with
  | String b (String d1 (String d2 (String d3 _))) =>
      Ascii.eqb b backslash && is_octal_digit d1 && is_octal_digit d2
      && is_octal_digit d3
  | _ => false
  end.

(** [re.sub] of that pattern by the empty string. *)
Fixpoint remove_octal (skip : nat) (s : string) : string :=
  match s with
  | EmptyString => EmptyString
  | String c rest =>
      match skip with
      | S k => remove_octal k rest
      | O => if octal_escape_at s then remove_octal 3 rest
             else String c (remove_octal 0 rest)
      end
  end.

(** The dictionary [octal_replacements], in insertion order. *)
Definition octal_replacements : list (string * string) :=
  [("\054", ","); ("\040", " "); ("\041", "!");
   ("\042", String "034" EmptyString); ("\047", "'");
   ("\134", String backslash EmptyString)]%string.

Definition _escape_for_js (text : string) : string :=
  remove_octal 0
    (fold_left (fun t kv => str_replace (fst kv) (snd kv) t) octal_replacements text).

(** ** Rows with missing cells

    [pd.read_csv] stores the missing value [NaN] in every empty cell, also in
    the columns [mac], [ssid], [latitude] and [longitude].  The cleaning step
    compares the coordinates with 0 only, and [NaN != 0] holds, so rows
    without a coordinate reach the classifiers; [df.groupby] leaves out the
    rows without a key.  [csv_row] is a row of that frame: [None] is [NaN].
    A [detection] above is a row whose key and coordinate cells are all
    present. *)
Record csv_row : Type := mkCsvRow {
  c_mac : option string;
  c_ssid : option string;
  c_time_dt : option Z;
  c_rssi : option Q;
  c_latitude : option Q;
  c_longitude : option Q;
  c_source_file : string
}.

Definition of_detection (r : detection) : csv_row :=
  mkCsvRow (Some (mac r)) (Some (ssid r)) (time_dt r) (rssi r)
           (Some (latitude r)) (Some (longitude r)) (source_file r).

(** A float that may be [NaN]. *)
Definition nanq : Type := option Q.

Definition nan_coord : Type := (nanq * nanq)%type.

Definition with_coordinates (c : coord) : nan_coord := (Some (fst c), Some (snd c)).

(** [list(zip(records["latitude"], records["longitude"]))] *)
Definition coords_of_csv (records : list csv_row) : list nan_coord :=
  map (fun r => (c_latitude r, c_longitude r)) records.

Definition has_coordinates (r : csv_row) : bool :=
  Flagged.notna (c_latitude r) && Flagged.notna (c_longitude r).

(** The coordinates of the rows that have both. *)
Definition valid_coords (coords : list nan_coord) : list coord :=
  flat_map (fun c => match c with
                     | (Some la, Some lo) => [(la, lo)]
                     | _ => []
                     end) coords.

(** Every comparison with [NaN] is [False]. *)
Definition nan_gtb (a b : nanq) : bool :=
  match a, b with
  | Some x, Some y => Qgtb x y
  | _, _ => false
  end.

Definition nan_geb (a b : nanq) : bool :=
  match a, b with
  | Some x, Some y => Qgeb x y
  | _, _ => false
  end.

Definition nan_leb (a b : nanq) : bool :=
  match a, b with
  | Some x, Some y => Qle_bool x y
  | _, _ => false
  end.

(** [column != 0]: true for [NaN]. *)
Definition nan_nonzero (a : nanq) : bool :=
  match a with
  | Some x => negb (Qeq_bool x 0)
  | None => true
  end.

(** [AccessPointClassifier.clean_data] on such rows. *)
Definition nonzero_position_csv (r : csv_row) : bool :=
  nan_nonzero (c_latitude r) && nan_nonzero (c_longitude r).

Definition in_window_csv (start_dt end_dt : Z) (r : csv_row) : bool :=
  match c_time_dt r with
  | Some t => (start_dt <=? t)%Z && (t <=? end_dt)%Z
  | None => false
  end.

Definition clean_data_csv (start_dt end_dt : option Z) (df : list csv_row)
  : option (list csv_row) :=
  let df1 := filter nonzero_position_csv df in
  match start_dt, end_dt with
  | Some s, Some e =>
      let df2 := filter (in_window_csv s e) df1 in
      match df2 with
      | [] => None
      | _ :: _ => Some df2
      end
  | _, _ => Some df1
  end.

(** [Series.sum()] and [Series.mean()] skip [NaN]; the sum of nothing is 0,
    the mean of nothing is [NaN]. *)
Definition nan_sum (l : list nanq) : Q := Qsum (Flagged.dropna l).

Definition nan_mean (l : list nanq) : nanq :=
  match Flagged.dropna l with
  | [] => None
  | x :: xs => Some (Qmean (x :: xs))
  end.

(** [column * weights], row by row. *)
Definition nan_times (xs : list nanq) (ws : list Q) : list nanq :=
  map (fun p => option_map (fun x => x * snd p) (fst p)) (combine xs ws).

(** [AccessPointClassifier._compute_static_ap_coords] on such rows. *)
Definition csv_weights (group : list csv_row) : list Q :=
  map (fun r => Qmax 0 (130 + fillna (-130) (c_rssi r))) group.

Definition _compute_static_ap_coords_csv (group : list csv_row) : nanq * nanq :=
  let weights := csv_weights group in
  let total_weight := Qsum weights in
  if negb (Qeq_bool total_weight 0) then
    (Some (nan_sum (nan_times (map c_latitude group) weights) / total_weight),
     Some (nan_sum (nan_times (map c_longitude group) weights) / total_weight))
  else
    (nan_mean (map c_latitude group), nan_mean (map c_longitude group)).

(** Python truthiness of [max_dist]: [None] and [0.0] are false, [NaN] is
    true. *)
Definition nan_truthy (max_dist : option nanq) : bool :=
  match max_dist with
  | None => false
  | Some None => true
  | Some (Some m) => negb (Qeq_bool m 0)
  end.

(** One dictionary appended to [classified]: [cl_lat] and [cl_lon] are [None]
    where the code stores the empty string; [cl_max_dist] is [None] for
    Python's [None] and [Some None] for [NaN]. *)
Record classified : Type := mkClassified {
  cl_mac : string;
  cl_ssid : string;
  cl_classification : classification;
  cl_first_seen : option Z;
  cl_last_seen : option Z;
  cl_lat : option nanq;
  cl_lon : option nanq;
  cl_max_dist : option nanq;
  cl_coords : list nan_coord
}.

Section EngineOnCsvRows.

Variable haversine : coord -> coord -> Q.

(** The distance of two places; [NaN] as soon as one of the four numbers is:
    [math.radians], [math.sin], [math.cos], [math.sqrt] and [math.atan2]
    hand [NaN] on. *)
Definition haversine_nan (p q : nan_coord) : nanq :=
  match p, q with
  | (Some lat1, Some lon1), (Some lat2, Some lon2) =>
      Some (haversine (lat1, lon1) (lat2, lon2))
  | _, _ => None
  end.

(** The distances of the visited pairs that are numbers, in visiting
    order. *)
Definition valid_distances (ps : list (nan_coord * nan_coord)) : list Q :=
  Flagged.dropna (map (fun p => haversine_nan (fst p) (snd p)) ps).

(** The body of the double loop of [AccessPointClassifier.classify]:
    [if max_dist is None or dist > max_dist]. *)
Definition classify_step (max_dist : option nanq) (p : nan_coord * nan_coord)
  : option nanq :=
  let dist := haversine_nan (fst p) (snd p) in
  match max_dist with
  | None => Some dist
  | Some m => if nan_gtb dist m then Some dist else Some m
  end.

Definition classify_max_dist (coords : list nan_coord) : option nanq :=
  if (1 <? length coords)%nat then fold_left classify_step (pairs coords) None
  else None.

(** The body of [for (mac, ssid), g in df.groupby(...)]. *)
Definition ap_classify_rows (key_mac key_ssid : string) (records : list csv_row)
  : classified :=
  let coords := coords_of_csv records in
  let best := _compute_static_ap_coords_csv records in
  let max_dist := classify_max_dist coords in
  let '(cls, lat, lon) :=
    match max_dist with
    | Some m =>
        if nan_truthy max_dist then
          if nan_geb m (Some COTRAVELER_DIST_THRESHOLD) then (CoTraveler, None, None)
          else if nan_leb m (Some STATIC_AP_DIST_THRESHOLD)
               then (Static, Some (fst best), Some (snd best))
               else (Unknown, Some (fst best), Some (snd best))
        else (Unknown, Some (fst best), Some (snd best))
    | None => (Unknown, Some (fst best), Some (snd best))
    end in
  mkClassified key_mac key_ssid cls
    (series_min (map c_time_dt records)) (series_max (map c_time_dt records))
    lat lon max_dist coords.

(** The double loop of the script: [if d >= 1000] and [if d > max_dist] are
    both false for a distance that is [NaN], so [max_dist = d] is reached
    with a number only and [max_dist] stays a number. *)
Definition script_step_nan (st : bool * Q) (p : nan_coord * nan_coord) : bool * Q :=
  let '(is_cotraveler, max_dist) := st in
  let d := haversine_nan (fst p) (snd p) in
  (if nan_geb d (Some 1000) then true else is_cotraveler,
   if nan_gtb d (Some max_dist) then fillna max_dist d else max_dist).

Definition script_classify_nan (coords : list nan_coord) : classification * Q :=
  if (length coords <? 2)%nat then (Unknown, 0)
  else
    let '(is_cotraveler, max_dist) :=
      fold_left script_step_nan (pairs coords) (false, 0) in
    (if is_cotraveler then CoTraveler
     else if Qle_bool max_dist 300 then Static
     else Unknown,
     max_dist).

Definition script_classify_rows (key_mac key_ssid : string) (records : list csv_row)
  : script_result :=
  let coords := coords_of_csv records in
  let times := map c_time_dt records in
  let '(cls, group_max) := script_classify_nan coords in
  mkScriptResult key_mac key_ssid cls (builtin_min times) (builtin_max times) group_max.

End EngineOnCsvRows.

(** ** Identity grouping ([df.groupby(["mac", "ssid_filled"])]) *)

(** [df["ssid"].replace("", "unk")]: a cell that is [NaN] stays [NaN]. *)
Definition ssid_filled (r : csv_row) : option string :=
  match c_ssid r with
  | Some s => Some (if String.eqb s "" then "unk"%string else s)
  | None => None
  end.

(** The group key of a row; [None] when a key cell is [NaN]. *)
Definition identity_key (r : csv_row) : option (string * string) :=
  match c_mac r, ssid_filled r with
  | Some m, Some s => Some (m, s)
  | _, _ => None
  end.

Definition in_group (key : string * string) (r : csv_row) : bool :=
  match identity_key r with
  | Some k => key_eqb k key
  | None => false
  end.

(** The groups, keys sorted, rows in frame order.  With the default
    [dropna=True] a row with [NaN] in a key column belongs to no group. *)
Definition groupby_identity (df : list csv_row)
  : list ((string * string) * list csv_row) :=
  map (fun key => (key, filter (in_group key) df))
      (sorted_keys (Flagged.dropna (map identity_key df))).

(** ** The whole of [AccessPointClassifier.classify]

    The list [classified], one dictionary per group, in group order. *)
Definition classify (haversine : coord -> coord -> Q) (df : list csv_row)
  : list classified :=
  map (fun kg => ap_classify_rows haversine (fst (fst kg)) (snd (fst kg)) (snd kg))
      (groupby_identity df).

(** ** Static aggregation with the columns [BEST_LAT] and [BEST_LON]

    Step 4 of [static_aggregate.py] averages the columns [BEST_LAT] and
    [BEST_LON] when the frame has both, and [LATITUDE] and [LONGITUDE]
    otherwise.  [best] holds the two extra columns of the group, row by row,
    when the frame has them. *)
Definition aggregate_columns (best : option (list Q * list Q))
  (group : list detection) : list Q * list Q :=
  match best with
  | Some columns => columns
  | None => (map latitude group, map longitude group)
  end.

Definition static_aggregate_location (best : option (list Q * list Q))
  (group : list detection) : coord :=
  let lat_vals := fst (aggregate_columns best group) in
  let lon_vals := snd (aggregate_columns best group) in
  let weights := aggregate_weights group in
  let total_weight := Qsum weights in
  if Qgtb total_weight 0 then
    (weighted_sum lat_vals weights / total_weight,
     weighted_sum lon_vals weights / total_weight)
  else
    (Qmean lat_vals, Qmean lon_vals).

(** The weighted centroid as the specification words it, on given weights
    and coordinate columns. *)
Definition spec_centroid (ws lat_vals lon_vals : list Q) : coord :=
  let total := Qsum ws in
  if Qeq_bool total 0 then (Qmean lat_vals, Qmean lon_vals)
  else (weighted_sum lat_vals ws / total, weighted_sum lon_vals ws / total).

(** ** The location estimator on IEEE doubles

    [_compute_static_ap_coords] once more, with the arithmetic of the
    machine: every sum, product and quotient is rounded to a double. *)
Record float_row : Type := mkFloatRow {
  f_rssi : float;
  f_latitude : float;
  f_longitude : float
}.

(** [Series.sum()] of a column without [NaN]: the items are added from left
    to right (as numpy does below eight items). *)
Definition float_sum (l : list float) : float :=
  fold_left PrimFloat.add l 0%float.

(** [len(column)] as a float. *)
Definition float_count (l : list float) : float :=
  fold_left (fun n _ => PrimFloat.add n 1%float) l 0%float.

Definition float_mean (l : list float) : float :=
  PrimFloat.div (float_sum l) (float_count l).

(** [rssi.fillna(-130)] and [np.maximum(0, 130 + rssi)]. *)
Definition float_weight (rssi : float) : float :=
  let filled := if PrimFloat.is_nan rssi then (-130)%float else rssi in
  let shifted := PrimFloat.add 130%float filled in
  if PrimFloat.ltb 0%float shifted then shifted else 0%float.

Definition float_times (xs ws : list float) : list float :=
  map (fun p => PrimFloat.mul (fst p) (snd p)) (combine xs ws).

Definition _compute_static_ap_coords_float (group : list float_row) : float * float :=
  let weights := map (fun r => float_weight (f_rssi r)) group in
  let total_weight := float_sum weights in
  if negb (PrimFloat.eqb total_weight 0%float) then
    (PrimFloat.div (float_sum (float_times (map f_latitude group) weights)) total_weight,
     PrimFloat.div (float_sum (float_times (map f_longitude group) weights)) total_weight)
  else
    (float_mean (map f_latitude group), float_mean (map f_longitude group)).

(** ** Example data *)

Definition detection_at (la lo : Q) (t : option Z) (s : option Q) : detection :=
  mkDetection "aa:bb:cc:dd:ee:ff" "HomeRouter" t s la lo "wigle_01.csv".

(** Two sightings of one emitter at the very same place. *)
Definition same_place : list detection :=
  [detection_at (1 # 1000) (1 # 1000) (Some 0%Z) (Some (-40));
   detection_at (1 # 1000) (1 # 1000) (Some 60%Z) (Some (-50))].

(** A single sighting. *)
Definition lone_sighting : list detection :=
  [detection_at (1 # 1000) (1 # 1000) (Some 0%Z) (Some (-40))].

(** Two sightings about 1.1 km apart. *)
Definition far_apart : list detection :=
  [detection_at (1 # 1000) (1 # 1000) (Some 0%Z) (Some (-40));
   detection_at (1 # 1000) (11 # 1000) (Some 60%Z) (Some (-50))].

(** Two sightings with RSSI -30 dBm and -130 dBm. *)
Definition strong_and_floor : list detection :=
  [detection_at (12 # 10) (34 # 10) (Some 0%Z) (Some (-30));
   detection_at (56 # 10) (78 # 10) (Some 60%Z) (Some (-130))].

(** Three sightings without RSSI. *)
Definition no_rssi : list detection :=
  [detection_at 1 4 None None; detection_at 2 5 None None; detection_at 3 9 None None].

(** Flagged-signals rows of one MAC. *)
Definition flagged_row (name : string) (t : option Z) (la lo : Q) : Flagged.row :=
  Flagged.mkRow "aa:bb:cc:dd:ee:ff" (Some name) None (Some "WIFI"%string)
    (Some "Wigled_Merged_01.csv"%string) t (Some la) (Some lo).

(** Two rows about 556 m apart; the timestamp of the second did not parse. *)
Definition one_unparseable : list Flagged.row :=
  [flagged_row "HomeRouter" (Some 0%Z) (1 # 1000) (1 # 1000);
   flagged_row "HomeRouter" None (1 # 1000) (6 # 1000)].

(** The same rows, both with a timestamp, one hour apart. *)
Definition both_parseable : list Flagged.row :=
  [flagged_row "HomeRouter" (Some 0%Z) (1 # 1000) (1 # 1000);
   flagged_row "HomeRouter" (Some 3600%Z) (1 # 1000) (6 # 1000)].

(** One MAC announcing two SSIDs, about 556 m apart and an hour apart. *)
Definition two_ssids : list Flagged.row :=
  [flagged_row "Guest" (Some 0%Z) (1 # 1000) (1 # 1000);
   flagged_row "Cafe" (Some 3600%Z) (1 # 1000) (6 # 1000)].

(** Sightings whose first timestamp did not parse. *)
Definition first_unparseable : list detection :=
  [detection_at (1 # 1000) (1 # 1000) None (Some (-40));
   detection_at (1 # 1000) (1 # 1000) (Some 60%Z) (Some (-50))].

(** The record the analysis produces for [l], if it produces exactly one. *)
Definition blank_record : Flagged.flagged :=
  Flagged.mkFlagged "" "" "" "" 0 0 0 None None 0 "".

Definition first_record (l : list Flagged.flagged) : Flagged.flagged :=
  hd blank_record l.

(** Three sightings, in time order: one place, then two places 49 m apart
    that are each 53 m from the first, their midpoint 47 m from it. *)
Definition triangle : frame :=
  [(0%nat, detection_at (100 # 100000) (100 # 100000) (Some 0%Z) (Some (-40)));
   (1%nat, detection_at (122 # 100000) (142 # 100000) (Some 60%Z) (Some (-50)));
   (2%nat, detection_at (78 # 100000) (142 # 100000) (Some 120%Z) (Some (-60)))].

(** Three sightings more than 50 m from one another. *)
Definition scattered : frame :=
  [(0%nat, detection_at (1 # 1000) (1 # 1000) (Some 0%Z) (Some (-40)));
   (1%nat, detection_at (1 # 1000) (2 # 1000) (Some 60%Z) (Some (-50)));
   (2%nat, detection_at (2 # 1000) (1 # 1000) (Some 120%Z) (Some (-60)))].

(** Map rows: two valid places and one with a latitude out of range. *)
Definition map_rows : list coord := [(10, 20); (95, 20); (12, 26)].

(** Sightings for the cleaning step: one on the equator, one without a
    timestamp, two inside the window from 0 to 100. *)
Definition raw_rows : list detection :=
  [detection_at 0 5 (Some 10%Z) None;
   detection_at 1 5 None None;
   detection_at 1 6 (Some 20%Z) None;
   detection_at 2 6 (Some 30%Z) None;
   detection_at 2 7 (Some 200%Z) None].

(** Map rows 0.7 degrees apart, and the same rows with one more, 4 degrees
    away. *)
Definition zoom_rows : list coord := [(10, 20); (107 # 10, 20)].
Definition zoom_rows_more : list coord := [(10, 20); (107 # 10, 20); (14, 20)].

(** Three sightings within 50 m of the first. *)
Definition huddle : frame :=
  [(0%nat, detection_at (100 # 100000) (100 # 100000) (Some 0%Z) (Some (-40)));
   (1%nat, detection_at (110 # 100000) (110 # 100000) (Some 60%Z) (Some (-50)));
   (2%nat, detection_at (90 # 100000) (120 # 100000) (Some 120%Z) (Some (-60)))].

(** Two sightings about 222 m apart. *)
Definition nearby_pair : list detection :=
  [detection_at (1 # 1000) (1 # 1000) (Some 0%Z) (Some (-40));
   detection_at (1 # 1000) (3 # 1000) (Some 60%Z) (Some (-50))].

(** A Kismet-like entry: a flat dictionary whose keys contain dots. *)
Definition kismet_entry : list (string * pyobj) :=
  [("kismet.device.base.type", PyValue "Wi-Fi AP");
   ("kismet.device.base.manuf", PyValue "Acme")]%string.

(** Rows as [pd.read_csv] delivers them, with cells that may be missing. *)
Definition csv_at (la lo : option Q) (t : option Z) (s : option Q) : csv_row :=
  mkCsvRow (Some "aa:bb:cc:dd:ee:ff"%string) (Some "HomeRouter"%string) t s la lo
           "wigle_01.csv".

(** A sighting without coordinates, then two sightings about 2.2 km apart. *)
Definition missing_first : list csv_row :=
  [csv_at None None (Some 0%Z) (Some (-40));
   csv_at (Some (1 # 1000)) (Some (1 # 1000)) (Some 60%Z) (Some (-50));
   csv_at (Some (1 # 1000)) (Some (21 # 1000)) (Some 120%Z) (Some (-60))].

(** The same sightings with the one without coordinates last. *)
Definition missing_last : list csv_row :=
  [csv_at (Some (1 # 1000)) (Some (1 # 1000)) (Some 60%Z) (Some (-50));
   csv_at (Some (1 # 1000)) (Some (21 # 1000)) (Some 120%Z) (Some (-60));
   csv_at None None (Some 0%Z) (Some (-40))].

(** One sighting with coordinates and one without. *)
Definition one_located : list csv_row :=
  [csv_at (Some (1 # 1000)) (Some (1 # 1000)) (Some 60%Z) (Some (-50));
   csv_at None None (Some 0%Z) (Some (-40))].

(** A sighting of a network with a name, one of a network whose SSID cell is
    empty in the file, and one of each again. *)
Definition named_sighting (la lo : Q) : csv_row :=
  mkCsvRow (Some "aa:bb:cc:dd:ee:ff"%string) (Some "HomeRouter"%string)
           (Some 0%Z) (Some (-40)) (Some la) (Some lo) "wigle_01.csv".

Definition hidden_sighting (la lo : Q) : csv_row :=
  mkCsvRow (Some "11:22:33:44:55:66"%string) None
           (Some 0%Z) (Some (-40)) (Some la) (Some lo) "wigle_01.csv".

Definition named_and_hidden : list csv_row :=
  [named_sighting (1 # 1000) (1 # 1000); hidden_sighting (2 # 1000) (2 # 1000);
   named_sighting (1 # 1000) (11 # 1000); hidden_sighting (2 # 1000) (12 # 1000)].

(** Two sightings with RSSI -30 dBm and -130 dBm, as doubles. *)
#[local] Set Warnings "-inexact-float".
Definition strong_and_floor_doubles : list float_row :=
  [mkFloatRow (-30)%float 60.437719%float 5.331142%float;
   mkFloatRow (-130)%float 60.5%float 5.4%float].
#[local] Set Warnings "+inexact-float".

(** * Properties *)

(** ** Comparisons on rationals *)

Lemma Qgtb_spec (a b : Q) : Qgtb a b = true <-> b < a.
Proof.
  unfold Qgtb. rewrite negb_true_iff.
  split; intro H.
  - apply Qnot_le_lt. intro Hle. apply Qle_bool_iff in Hle. congruence.
  - destruct (Qle_bool a b) eqn:E; [|reflexivity].
    apply Qle_bool_iff in E. exfalso. apply (Qlt_not_le _ _ H E).
Qed.

Lemma Qle_bool_false (a b : Q) : Qle_bool a b = false <-> b < a.
Proof.
  rewrite <- Qgtb_spec. unfold Qgtb. now rewrite negb_true_iff.
Qed.

(** The update [if d > max_dist: max_dist = d] is a maximum. *)
Lemma running_max_is_Qmax (d m : Q) : (if Qgtb d m then d else m) = Qmax m d.
Proof.
  unfold Qmax, GenericMinMax.gmax.
  destruct (Qcompare m d) eqn:C; destruct (Qgtb d m) eqn:E; try reflexivity.
  - apply Qgtb_spec in E. apply (proj1 (Qlt_alt _ _)) in E. congruence.
  - apply (proj2 (Qlt_alt _ _)) in C. apply Qgtb_spec in C. congruence.
  - apply Qgtb_spec in E. apply (proj1 (Qlt_alt _ _)) in E. congruence.
Qed.

Lemma fold_Qmax_ge_init (ds : list Q) (m : Q) : m <= fold_left Qmax ds m.
Proof.
  revert m. induction ds as [|d ds IH]; intro m; simpl.
  - apply Qle_refl.
  - eapply Qle_trans; [apply (Q.le_max_l m d)|apply IH].
Qed.

Lemma fold_Qmax_compat (ds : list Q) (m m' : Q) :
  m == m' -> fold_left Qmax ds m == fold_left Qmax ds m'.
Proof.
  revert m m'. induction ds as [|d ds IH]; intros m m' E; simpl.
  - exact E.
  - apply IH. now rewrite E.
Qed.

(** Some item reaches the bound exactly when the running maximum does. *)
Lemma fold_Qmax_reaches (bound : Q) (ds : list Q) (m : Q) :
  Qle_bool bound (fold_left Qmax ds m)
  = Qle_bool bound m || existsb (Qle_bool bound) ds.
Proof.
  revert m. induction ds as [|d ds IH]; intro m; simpl.
  - now rewrite orb_false_r.
  - rewrite IH, orb_assoc. f_equal.
    apply eq_true_iff_eq.
    rewrite orb_true_iff, !Qle_bool_iff. apply Q.max_le_iff.
Qed.

Lemma pairs_length_lt_2 {A : Type} (l : list A) :
  (length l < 2)%nat -> pairs l = [].
Proof.
  destruct l as [|x [|y l]]; simpl; intros; try reflexivity; lia.
Qed.

Lemma pairs_nonempty {A : Type} (l : list A) :
  (2 <= length l)%nat -> pairs l <> [].
Proof.
  destruct l as [|x [|y l]]; simpl; intros; try lia; discriminate.
Qed.

Lemma pairs_map {A B : Type} (f : A -> B) (l : list A) :
  pairs (map f l) = map (fun p => (f (fst p), f (snd p))) (pairs l).
Proof.
  induction l as [|x xs IH]; simpl; [reflexivity|].
  rewrite map_app, IH, !map_map. reflexivity.
Qed.

Section ClassifierFacts.

Variable haversine : coord -> coord -> Q.

(** The state of the script's double loop after any prefix of the pairs. *)
Lemma script_loop_state (ps : list (coord * coord)) (flag : bool) (m : Q) :
  fold_left (script_step haversine) ps (flag, m)
  = (flag || existsb (Qle_bool 1000) (map (fun p => haversine (fst p) (snd p)) ps),
     fold_left Qmax (map (fun p => haversine (fst p) (snd p)) ps) m).
Proof.
  revert flag m. induction ps as [|p ps IH]; intros flag m; simpl.
  - now rewrite orb_false_r.
  - rewrite running_max_is_Qmax, IH. unfold Qgeb.
    destruct (Qle_bool 1000 (haversine (fst p) (snd p))), flag; reflexivity.
Qed.

(** The state of the classifier's double loop. *)
Lemma ap_loop_state (ps : list (coord * coord)) (m : Q) :
  fold_left (ap_step haversine) ps (Some m)
  = Some (fold_left Qmax (map (fun p => haversine (fst p) (snd p)) ps) m).
Proof.
  revert m. induction ps as [|p ps IH]; intro m; simpl.
  - reflexivity.
  - rewrite <- IH, <- running_max_is_Qmax.
    now destruct (Qgtb (haversine (fst p) (snd p)) m).
Qed.

Lemma ap_max_dist_short (coords : list coord) :
  (length coords < 2)%nat -> ap_max_dist haversine coords = None.
Proof.
  intro H. unfold ap_max_dist.
  destruct (1 <? length coords)%nat eqn:E; [|reflexivity].
  apply Nat.ltb_lt in E. lia.
Qed.

(** With two detections or more the classifier's [max_dist] is the largest
    pairwise distance. *)
Lemma ap_max_dist_spread (coords : list coord) :
  (2 <= length coords)%nat ->
  ap_max_dist haversine coords = Some (spec_max_spread haversine coords).
Proof.
  intro H. unfold ap_max_dist, spec_max_spread.
  destruct (1 <? length coords)%nat eqn:E;
    [|apply Nat.ltb_ge in E; lia].
  pose proof (pairs_nonempty coords H) as Hne.
  destruct (pairs coords) as [|p ps]; [congruence|].
  simpl. apply ap_loop_state.
Qed.

(** The script's running maximum starts from 0: it is the largest pairwise
    distance as soon as distances are not negative. *)
Lemma script_max_spread (coords : list coord) :
  (forall p q, 0 <= haversine p q) ->
  fold_left Qmax (pair_distances haversine coords) 0 == spec_max_spread haversine coords.
Proof.
  intro Hpos. unfold spec_max_spread, pair_distances.
  destruct (pairs coords) as [|p ps]; simpl; [reflexivity|].
  apply fold_Qmax_compat. apply Q.max_r. apply Hpos.
Qed.

Lemma spec_label_compat (a b : Q) : a == b -> spec_label a = spec_label b.
Proof.
  intro E. unfold spec_label, Qgeb.
  rewrite (Qleb_comp _ _ (Qeq_refl COTRAVELER_DIST_THRESHOLD) _ _ E).
  rewrite (Qleb_comp _ _ E _ _ (Qeq_refl STATIC_AP_DIST_THRESHOLD)).
  reflexivity.
Qed.

(** The script's label is the reference label of its running maximum. *)
Lemma script_label_of_max (coords : list coord) :
  (2 <= length coords)%nat ->
  script_classify_coords haversine coords
  = (spec_label (fold_left Qmax (pair_distances haversine coords) 0),
     fold_left Qmax (pair_distances haversine coords) 0).
Proof.
  intro H. unfold script_classify_coords.
  destruct (length coords <? 2)%nat eqn:E; [apply Nat.ltb_lt in E; lia|].
  rewrite script_loop_state. fold (pair_distances haversine coords).
  f_equal. unfold spec_label, Qgeb, COTRAVELER_DIST_THRESHOLD, STATIC_AP_DIST_THRESHOLD.
  rewrite fold_Qmax_reaches. reflexivity.
Qed.

(** The label that [AccessPointClassifier.classify] derives from [max_dist]. *)
Lemma ap_classification_of_max (key_mac key_ssid : string) (records : list detection) :
  ap_classification (ap_classify_group haversine key_mac key_ssid records)
  = match ap_max_dist haversine (coords_of records) with
    | Some m => if Qeq_bool m 0 then Unknown else spec_label m
    | None => Unknown
    end.
Proof.
  unfold ap_classify_group.
  destruct (ap_max_dist haversine (coords_of records)) as [m|]; [|reflexivity].
  unfold truthy, spec_label.
  destruct (Qeq_bool m 0); simpl; [reflexivity|].
  destruct (Qgeb m COTRAVELER_DIST_THRESHOLD); [reflexivity|].
  destruct (Qle_bool m STATIC_AP_DIST_THRESHOLD); reflexivity.
Qed.

Lemma ap_max_dist_field_eq (key_mac key_ssid : string) (records : list detection) :
  ap_max_dist_field (ap_classify_group haversine key_mac key_ssid records)
  = ap_max_dist haversine (coords_of records).
Proof.
  unfold ap_classify_group.
  destruct (ap_max_dist haversine (coords_of records)) as [m|]; [|reflexivity].
  destruct (truthy (Some m)); [|reflexivity].
  destruct (Qgeb m COTRAVELER_DIST_THRESHOLD); [reflexivity|].
  destruct (Qle_bool m STATIC_AP_DIST_THRESHOLD); reflexivity.
Qed.

Lemma script_classification_eq (key_mac key_ssid : string) (records : list detection) :
  sc_classification (script_classify_group haversine key_mac key_ssid records)
  = fst (script_classify_coords haversine (coords_of records)).
Proof.
  unfold script_classify_group.
  destruct (script_classify_coords haversine (coords_of records)). reflexivity.
Qed.

Lemma script_max_dist_eq (key_mac key_ssid : string) (records : list detection) :
  sc_max_dist (script_classify_group haversine key_mac key_ssid records)
  = snd (script_classify_coords haversine (coords_of records)).
Proof.
  unfold script_classify_group.
  destruct (script_classify_coords haversine (coords_of records)). reflexivity.
Qed.

End ClassifierFacts.

(** ** Rows with missing cells

    On rows that all have their coordinates, the loops over [csv_row] do what
    the loops over [detection] do. *)

Lemma valid_coords_with_coordinates (coords : list coord) :
  valid_coords (map with_coordinates coords) = coords.
Proof.
  induction coords as [|[la lo] cs IH]; simpl; [reflexivity|].
  now rewrite IH.
Qed.

Lemma coords_of_csv_complete (records : list csv_row) :
  Forall (fun r => has_coordinates r = true) records ->
  coords_of_csv records = map with_coordinates (valid_coords (coords_of_csv records)).
Proof.
  induction 1 as [|r rs Hr _ IH]; simpl; [reflexivity|].
  unfold has_coordinates in Hr.
  destruct (c_latitude r) as [la|]; [|discriminate Hr].
  destruct (c_longitude r) as [lo|]; [|discriminate Hr].
  simpl. now rewrite <- IH.
Qed.

Lemma valid_coords_length (coords : list nan_coord) :
  (length (valid_coords coords) <= length coords)%nat.
Proof.
  induction coords as [|[[la|] [lo|]] cs IH]; simpl; lia.
Qed.

Lemma coords_of_csv_length (records : list csv_row) :
  length (coords_of_csv records) = length records.
Proof. apply length_map. Qed.

Lemma valid_coords_complete_length (records : list csv_row) :
  Forall (fun r => has_coordinates r = true) records ->
  length (valid_coords (coords_of_csv records)) = length records.
Proof.
  intro H. rewrite <- (coords_of_csv_length records).
  rewrite (coords_of_csv_complete records H) at 2.
  now rewrite length_map.
Qed.

Lemma dropna_map_Some {A : Type} (l : list A) : Flagged.dropna (map Some l) = l.
Proof.
  induction l as [|x l IH]; simpl; [reflexivity|]. now rewrite IH.
Qed.

Lemma nan_times_complete (xs ws : list Q) :
  nan_times (map Some xs) ws
  = map Some (map (fun p => fst p * snd p) (combine xs ws)).
Proof.
  unfold nan_times. revert ws.
  induction xs as [|x xs IH]; intros [|w ws]; simpl; try reflexivity.
  now rewrite IH.
Qed.

(** The location estimator on rows that all have their coordinates. *)
Lemma _compute_static_ap_coords_csv_of_detection (group : list detection) :
  group <> [] ->
  _compute_static_ap_coords_csv (map of_detection group)
  = (Some (fst (_compute_static_ap_coords group)),
     Some (snd (_compute_static_ap_coords group))).
Proof.
  intro Hne.
  unfold _compute_static_ap_coords_csv, _compute_static_ap_coords.
  assert (W : csv_weights (map of_detection group) = ap_weights group)
    by (unfold csv_weights, ap_weights; now rewrite map_map).
  assert (La : map c_latitude (map of_detection group) = map Some (map latitude group))
    by (now rewrite !map_map).
  assert (Lo : map c_longitude (map of_detection group) = map Some (map longitude group))
    by (now rewrite !map_map).
  rewrite W, La, Lo.
  destruct (negb (Qeq_bool (Qsum (ap_weights group)) 0)).
  - unfold nan_sum, weighted_sum.
    now rewrite !nan_times_complete, !dropna_map_Some.
  - unfold nan_mean. rewrite !dropna_map_Some.
    destruct group as [|r rs]; [congruence|]. reflexivity.
Qed.

(** The cleaning step keeps the rows without coordinates, and on rows that
    have them it keeps what [clean_data] keeps. *)
Lemma clean_data_csv_keeps_missing (df : list csv_row) (r : csv_row) :
  In r df -> c_latitude r = None -> c_longitude r = None ->
  exists kept, clean_data_csv None None df = Some kept /\ In r kept.
Proof.
  intros Hin Hla Hlo. exists (filter nonzero_position_csv df).
  split; [reflexivity|]. apply filter_In. split; [exact Hin|].
  unfold nonzero_position_csv. now rewrite Hla, Hlo.
Qed.

Lemma clean_data_csv_of_detection (start_dt end_dt : option Z) (df : list detection) :
  clean_data_csv start_dt end_dt (map of_detection df)
  = option_map (map of_detection) (clean_data start_dt end_dt df).
Proof.
  assert (F : forall (p : detection -> bool) (q : csv_row -> bool) (l : list detection),
             (forall d, q (of_detection d) = p d) ->
             filter q (map of_detection l) = map of_detection (filter p l)).
  { intros p q l H. induction l as [|d l IH]; simpl; [reflexivity|].
    rewrite H, IH. now destruct (p d). }
  unfold clean_data_csv, clean_data.
  rewrite (F nonzero_position nonzero_position_csv) by reflexivity.
  destruct start_dt as [s|]; [|reflexivity].
  destruct end_dt as [e|]; [|reflexivity].
  rewrite (F (in_window s e) (in_window_csv s e)) by reflexivity.
  now destruct (filter (in_window s e) (filter nonzero_position df)).
Qed.

Section CsvFacts.

Variable haversine : coord -> coord -> Q.

Lemma haversine_nan_complete (p q : coord) :
  haversine_nan haversine (with_coordinates p) (with_coordinates q)
  = Some (haversine p q).
Proof. destruct p, q. reflexivity. Qed.

Lemma classify_loop_complete (ps : list (coord * coord)) (acc : option Q) :
  fold_left (classify_step haversine)
    (map (fun p => (with_coordinates (fst p), with_coordinates (snd p))) ps)
    (option_map Some acc)
  = option_map Some (fold_left (ap_step haversine) ps acc).
Proof.
  revert acc. induction ps as [|p ps IH]; intro acc; cbn [fold_left map];
    [reflexivity|].
  rewrite <- IH. f_equal.
  unfold classify_step, ap_step. cbn [fst snd]. rewrite haversine_nan_complete.
  destruct acc as [m|]; simpl; [|reflexivity].
  now destruct (Qgtb (haversine (fst p) (snd p)) m).
Qed.

Lemma classify_max_dist_complete (coords : list coord) :
  classify_max_dist haversine (map with_coordinates coords)
  = option_map Some (ap_max_dist haversine coords).
Proof.
  unfold classify_max_dist, ap_max_dist. rewrite length_map.
  destruct (1 <? length coords)%nat; [|reflexivity].
  rewrite pairs_map. apply (classify_loop_complete (pairs coords) None).
Qed.

Lemma script_loop_complete (ps : list (coord * coord)) (st : bool * Q) :
  fold_left (script_step_nan haversine)
    (map (fun p => (with_coordinates (fst p), with_coordinates (snd p))) ps) st
  = fold_left (script_step haversine) ps st.
Proof.
  revert st. induction ps as [|p ps IH]; intro st; cbn [fold_left map];
    [reflexivity|].
  rewrite IH. f_equal.
  unfold script_step_nan, script_step. destruct st as [flag m]. cbn [fst snd].
  rewrite haversine_nan_complete. simpl.
  now destruct (Qgtb (haversine (fst p) (snd p)) m).
Qed.

Lemma script_classify_nan_complete (coords : list coord) :
  script_classify_nan haversine (map with_coordinates coords)
  = script_classify_coords haversine coords.
Proof.
  unfold script_classify_nan, script_classify_coords. rewrite length_map.
  destruct (length coords <? 2)%nat; [reflexivity|].
  now rewrite pairs_map, script_loop_complete.
Qed.

(** The pairs whose distance is a number are the pairs of the rows that
    have their coordinates. *)
Lemma dropna_app {A : Type} (l l' : list (option A)) :
  Flagged.dropna (l ++ l') = Flagged.dropna l ++ Flagged.dropna l'.
Proof. apply flat_map_app. Qed.

Lemma valid_distances_from (c : nan_coord) (cs : list nan_coord) :
  valid_distances haversine (map (pair c) cs)
  = match c with
    | (Some la, Some lo) =>
        map (fun p => haversine (fst p) (snd p)) (map (pair (la, lo)) (valid_coords cs))
    | _ => []
    end.
Proof.
  unfold valid_distances.
  induction cs as [|[a b] cs IH]; cbn [map Flagged.dropna flat_map valid_coords].
  - now destruct c as [[la|] [lo|]].
  - fold (Flagged.dropna (map (fun p => haversine_nan haversine (fst p) (snd p))
                              (map (pair c) cs))).
    fold (valid_coords cs).
    rewrite IH. destruct c as [[la|] [lo|]]; cbn [fst snd haversine_nan];
      now destruct a, b.
Qed.

Lemma valid_distances_app (ps ps' : list (nan_coord * nan_coord)) :
  valid_distances haversine (ps ++ ps')
  = valid_distances haversine ps ++ valid_distances haversine ps'.
Proof.
  unfold valid_distances. rewrite map_app. apply dropna_app.
Qed.

Lemma valid_distances_pairs (coords : list nan_coord) :
  valid_distances haversine (pairs coords)
  = pair_distances haversine (valid_coords coords).
Proof.
  induction coords as [|c cs IH]; [reflexivity|].
  change (pairs (c :: cs)) with (map (pair c) cs ++ pairs cs).
  rewrite valid_distances_app, IH, valid_distances_from. unfold pair_distances.
  destruct c as [[la|] [lo|]]; cbn [valid_coords flat_map app]; try reflexivity.
  fold (valid_coords cs). cbn [pairs]. now rewrite map_app.
Qed.

(** The state of the classifier's loop once [max_dist] is a number: a
    distance that is [NaN] changes nothing. *)
Lemma classify_loop_number (ps : list (nan_coord * nan_coord)) (m : Q) :
  fold_left (classify_step haversine) ps (Some (Some m))
  = Some (Some (fold_left Qmax (valid_distances haversine ps) m)).
Proof.
  unfold valid_distances.
  revert m. induction ps as [|p ps IH]; intro m; cbn [fold_left map]; [reflexivity|].
  unfold classify_step at 2.
  destruct (haversine_nan haversine (fst p) (snd p)) as [d|];
    cbn [nan_gtb Flagged.dropna flat_map app].
  - fold (Flagged.dropna (map (fun p => haversine_nan haversine (fst p) (snd p)) ps)).
    cbn [fold_left]. rewrite <- running_max_is_Qmax.
    destruct (Qgtb d m); apply IH.
  - apply IH.
Qed.

(** The state of the script's loop: a distance that is [NaN] changes
    nothing. *)
Lemma script_loop_nan_state (ps : list (nan_coord * nan_coord)) (flag : bool) (m : Q) :
  fold_left (script_step_nan haversine) ps (flag, m)
  = (flag || existsb (Qle_bool 1000) (valid_distances haversine ps),
     fold_left Qmax (valid_distances haversine ps) m).
Proof.
  unfold valid_distances.
  revert flag m. induction ps as [|p ps IH]; intros flag m; cbn [fold_left map].
  - simpl. now rewrite orb_false_r.
  - unfold script_step_nan at 2.
    destruct (haversine_nan haversine (fst p) (snd p)) as [d|];
      cbn [nan_geb nan_gtb fillna Flagged.dropna flat_map app].
    + fold (Flagged.dropna (map (fun p => haversine_nan haversine (fst p) (snd p)) ps)).
      cbn [existsb fold_left]. rewrite running_max_is_Qmax, IH. unfold Qgeb.
      destruct (Qle_bool 1000 d), flag; reflexivity.
    + apply IH.
Qed.

(** With two rows or more, the script's label is the reference label of the
    largest distance between two rows that have their coordinates, 0 when
    there are no two such rows. *)
Lemma script_classify_nan_label (coords : list nan_coord) :
  (2 <= length coords)%nat ->
  script_classify_nan haversine coords
  = (spec_label (fold_left Qmax (pair_distances haversine (valid_coords coords)) 0),
     fold_left Qmax (pair_distances haversine (valid_coords coords)) 0).
Proof.
  intro H. unfold script_classify_nan.
  destruct (length coords <? 2)%nat eqn:E; [apply Nat.ltb_lt in E; lia|].
  rewrite script_loop_nan_state, valid_distances_pairs.
  f_equal. unfold spec_label, Qgeb, COTRAVELER_DIST_THRESHOLD, STATIC_AP_DIST_THRESHOLD.
  rewrite fold_Qmax_reaches. reflexivity.
Qed.

(** Once [max_dist] is [NaN] it stays [NaN]: [dist > max_dist] is false
    whatever [dist] is. *)
Lemma classify_loop_nan (ps : list (nan_coord * nan_coord)) :
  fold_left (classify_step haversine) ps (Some None) = Some None.
Proof.
  induction ps as [|p ps IH]; cbn [fold_left]; [reflexivity|].
  replace (classify_step haversine (Some None) p) with (@Some nanq None);
    [exact IH|].
  unfold classify_step, nan_gtb.
  now destruct (haversine_nan haversine (fst p) (snd p)).
Qed.

(** With two rows or more, the classifier's [max_dist] is [NaN] when the
    first distance is, and otherwise the largest distance between two rows
    that have their coordinates. *)
Lemma classify_max_dist_cases (c0 c1 : nan_coord) (cs : list nan_coord) :
  classify_max_dist haversine (c0 :: c1 :: cs)
  = match haversine_nan haversine c0 c1 with
    | Some _ => Some (Some (spec_max_spread haversine (valid_coords (c0 :: c1 :: cs))))
    | None => Some None
    end.
Proof.
  unfold classify_max_dist. cbn [length Nat.ltb Nat.leb].
  pose proof (valid_distances_pairs (c0 :: c1 :: cs)) as V.
  unfold spec_max_spread. unfold pair_distances in V. rewrite <- V. clear V.
  cbn [pairs map app fold_left].
  change (classify_step haversine None (c0, c1))
    with (Some (haversine_nan haversine c0 c1)).
  unfold valid_distances at 1. cbn [map fst snd Flagged.dropna flat_map].
  destruct (haversine_nan haversine c0 c1) as [d|]; cbn [app].
  - rewrite classify_loop_number. reflexivity.
  - apply classify_loop_nan.
Qed.

(** The entries of the dictionary that [classify] writes for a group. *)
Lemma cl_max_dist_eq (key_mac key_ssid : string) (records : list csv_row) :
  cl_max_dist (ap_classify_rows haversine key_mac key_ssid records)
  = classify_max_dist haversine (coords_of_csv records).
Proof.
  unfold ap_classify_rows.
  destruct (classify_max_dist haversine (coords_of_csv records)) as [m|];
    [|reflexivity].
  destruct (nan_truthy (Some m)); [|reflexivity].
  destruct (nan_geb m (Some COTRAVELER_DIST_THRESHOLD)); [reflexivity|].
  destruct (nan_leb m (Some STATIC_AP_DIST_THRESHOLD)); reflexivity.
Qed.

Lemma cl_coords_eq (key_mac key_ssid : string) (records : list csv_row) :
  cl_coords (ap_classify_rows haversine key_mac key_ssid records)
  = coords_of_csv records.
Proof.
  unfold ap_classify_rows.
  destruct (classify_max_dist haversine (coords_of_csv records)) as [m|];
    [|reflexivity].
  destruct (nan_truthy (Some m)); [|reflexivity].
  destruct (nan_geb m (Some COTRAVELER_DIST_THRESHOLD)); [reflexivity|].
  destruct (nan_leb m (Some STATIC_AP_DIST_THRESHOLD)); reflexivity.
Qed.

Lemma cl_key_eq (key_mac key_ssid : string) (records : list csv_row) :
  (cl_mac (ap_classify_rows haversine key_mac key_ssid records),
   cl_ssid (ap_classify_rows haversine key_mac key_ssid records))
  = (key_mac, key_ssid).
Proof.
  unfold ap_classify_rows.
  destruct (classify_max_dist haversine (coords_of_csv records)) as [m|];
    [|reflexivity].
  destruct (nan_truthy (Some m)); [|reflexivity].
  destruct (nan_geb m (Some COTRAVELER_DIST_THRESHOLD)); [reflexivity|].
  destruct (nan_leb m (Some STATIC_AP_DIST_THRESHOLD)); reflexivity.
Qed.

(** The label that [classify] derives from [max_dist]: none of the two
    threshold tests holds for [NaN]. *)
Lemma cl_classification_of_max (key_mac key_ssid : string) (records : list csv_row) :
  cl_classification (ap_classify_rows haversine key_mac key_ssid records)
  = match classify_max_dist haversine (coords_of_csv records) with
    | Some (Some m) => if Qeq_bool m 0 then Unknown else spec_label m
    | Some None => Unknown
    | None => Unknown
    end.
Proof.
  unfold ap_classify_rows.
  destruct (classify_max_dist haversine (coords_of_csv records)) as [[m|]|];
    [|reflexivity|reflexivity].
  unfold nan_truthy, nan_geb, nan_leb, spec_label.
  destruct (Qeq_bool m 0); simpl; [reflexivity|].
  destruct (Qgeb m COTRAVELER_DIST_THRESHOLD); [reflexivity|].
  destruct (Qle_bool m STATIC_AP_DIST_THRESHOLD); reflexivity.
Qed.

Lemma sc_rows_classification_eq (key_mac key_ssid : string) (records : list csv_row) :
  sc_classification (script_classify_rows haversine key_mac key_ssid records)
  = fst (script_classify_nan haversine (coords_of_csv records)).
Proof.
  unfold script_classify_rows.
  destruct (script_classify_nan haversine (coords_of_csv records)). reflexivity.
Qed.

Lemma sc_rows_max_dist_eq (key_mac key_ssid : string) (records : list csv_row) :
  sc_max_dist (script_classify_rows haversine key_mac key_ssid records)
  = snd (script_classify_nan haversine (coords_of_csv records)).
Proof.
  unfold script_classify_rows.
  destruct (script_classify_nan haversine (coords_of_csv records)). reflexivity.
Qed.

(** On rows without missing cells the two classifiers over [csv_row] return
    what the classifiers over [detection] return. *)
Lemma coords_of_csv_of_detection (records : list detection) :
  coords_of_csv (map of_detection records) = map with_coordinates (coords_of records).
Proof.
  unfold coords_of_csv, coords_of. rewrite !map_map. reflexivity.
Qed.

Lemma script_classify_rows_of_detection
  (key_mac key_ssid : string) (records : list detection) :
  script_classify_rows haversine key_mac key_ssid (map of_detection records)
  = script_classify_group haversine key_mac key_ssid records.
Proof.
  unfold script_classify_rows, script_classify_group.
  rewrite coords_of_csv_of_detection, script_classify_nan_complete, map_map.
  reflexivity.
Qed.

Lemma ap_classify_rows_of_detection
  (key_mac key_ssid : string) (records : list detection) :
  let rows := ap_classify_rows haversine key_mac key_ssid (map of_detection records) in
  let ap := ap_classify_group haversine key_mac key_ssid records in
  cl_classification rows = ap_classification ap
  /\ cl_max_dist rows = option_map Some (ap_max_dist_field ap)
  /\ cl_coords rows = map with_coordinates (ap_coords ap)
  /\ cl_first_seen rows = ap_first_seen ap
  /\ cl_last_seen rows = ap_last_seen ap
  /\ (records <> [] ->
      cl_lat rows = option_map Some (ap_lat ap)
      /\ cl_lon rows = option_map Some (ap_lon ap)).
Proof.
  cbv zeta.
  rewrite cl_classification_of_max, cl_max_dist_eq, cl_coords_eq.
  rewrite ap_classification_of_max, ap_max_dist_field_eq.
  rewrite coords_of_csv_of_detection, classify_max_dist_complete.
  split; [|split; [|split; [|split; [|split]]]].
  - now destruct (ap_max_dist haversine (coords_of records)).
  - reflexivity.
  - unfold ap_classify_group.
    destruct (ap_max_dist haversine (coords_of records)) as [m|]; [|reflexivity].
    destruct (truthy (Some m)); [|reflexivity].
    destruct (Qgeb m COTRAVELER_DIST_THRESHOLD); [reflexivity|].
    destruct (Qle_bool m STATIC_AP_DIST_THRESHOLD); reflexivity.
  - unfold ap_classify_rows, ap_classify_group. rewrite map_map.
    rewrite coords_of_csv_of_detection, classify_max_dist_complete.
    destruct (ap_max_dist haversine (coords_of records)) as [m|]; simpl;
      [|reflexivity].
    destruct (negb (Qeq_bool m 0)); simpl; [|reflexivity].
    destruct (Qgeb m COTRAVELER_DIST_THRESHOLD); simpl; [reflexivity|].
    destruct (Qle_bool m STATIC_AP_DIST_THRESHOLD); reflexivity.
  - unfold ap_classify_rows, ap_classify_group. rewrite map_map.
    rewrite coords_of_csv_of_detection, classify_max_dist_complete.
    destruct (ap_max_dist haversine (coords_of records)) as [m|]; simpl;
      [|reflexivity].
    destruct (negb (Qeq_bool m 0)); simpl; [|reflexivity].
    destruct (Qgeb m COTRAVELER_DIST_THRESHOLD); simpl; [reflexivity|].
    destruct (Qle_bool m STATIC_AP_DIST_THRESHOLD); reflexivity.
  - intro Hne. unfold ap_classify_rows, ap_classify_group.
    rewrite (_compute_static_ap_coords_csv_of_detection records Hne).
    rewrite coords_of_csv_of_detection, classify_max_dist_complete.
    destruct (ap_max_dist haversine (coords_of records)) as [m|]; simpl;
      [|split; reflexivity].
    destruct (negb (Qeq_bool m 0)); simpl; [|split; reflexivity].
    destruct (Qgeb m COTRAVELER_DIST_THRESHOLD); simpl; [split; reflexivity|].
    destruct (Qle_bool m STATIC_AP_DIST_THRESHOLD); simpl; split; reflexivity.
Qed.

End CsvFacts.

(** ** The example distance *)

Lemma flat_distance_nonneg (p q : coord) : 0 <= flat_distance p q.
Proof.
  unfold flat_distance, Qsqrt_mm.
  apply Qle_shift_div_l; [reflexivity|].
  rewrite Qmult_0_l. change 0 with (inject_Z 0).
  rewrite <- Zle_Qle. apply Z.sqrt_nonneg.
Qed.

(** ** Classification *)

(** The boundary cases of the reference function. *)
Example spec_label_boundaries :
  spec_label 1000 = CoTraveler /\ spec_label 300 = Static /\ spec_label 0 = Static
  /\ spec_label (30001 # 100) = Unknown /\ spec_label (99999 # 100) = Unknown.
Proof. repeat split. Qed.

(** C1, as amended.  The script of [co_traveler_analysis.py] computes the
    reference function on the valid-coordinate detections of every group
    that has at least two of them: the label of their largest pairwise
    distance (co-traveler from 1000 m, static up to 300 m, a spread of 0
    included, unknown between); a group of fewer than two detections is
    unknown with a reported spread of 0.  On a group all of whose detections
    have valid coordinates, [AccessPointClassifier.classify] reports no
    spread at all (and the label unknown) with fewer than two detections;
    from two on it reports the largest pairwise distance, and its label is
    the reference label whenever that distance is not zero. *)
Theorem classifier_matches_reference
  (haversine : coord -> coord -> Q)
  (haversine_nonneg : forall p q, 0 <= haversine p q)
  (key_mac key_ssid : string) (records : list csv_row) :
  let coords := valid_coords (coords_of_csv records) in
  let script := script_classify_rows haversine key_mac key_ssid records in
  let ap := ap_classify_rows haversine key_mac key_ssid records in
  ((2 <= length coords \/ length records < 2)%nat ->
   sc_classification script = fst (spec_classify haversine coords)
   /\ sc_max_dist script == snd (spec_classify haversine coords))
  /\ (Forall (fun r => has_coordinates r = true) records ->
      ((length coords < 2)%nat ->
       cl_classification ap = Unknown /\ cl_max_dist ap = None)
      /\ ((2 <= length coords)%nat ->
          cl_max_dist ap = Some (Some (spec_max_spread haversine coords))
          /\ (~ spec_max_spread haversine coords == 0 ->
              cl_classification ap = fst (spec_classify haversine coords)))).
Proof.
  intros coords script ap.
  pose proof (valid_coords_length (coords_of_csv records)) as Hle.
  rewrite coords_of_csv_length in Hle. fold coords in Hle.
  split.
  - intro Hcase. unfold script.
    rewrite sc_rows_classification_eq, sc_rows_max_dist_eq.
    destruct (Nat.lt_ge_cases (length coords) 2) as [Hshort|Hlong].
    + assert (Hrows : (length records < 2)%nat) by lia.
      unfold script_classify_nan, spec_classify.
      rewrite coords_of_csv_length.
      apply Nat.ltb_lt in Hrows, Hshort. rewrite Hrows, Hshort.
      split; reflexivity.
    + rewrite script_classify_nan_label
        by (rewrite coords_of_csv_length; lia).
      fold coords. unfold spec_classify.
      destruct (length coords <? 2)%nat eqn:L; [apply Nat.ltb_lt in L; lia|].
      simpl. split.
      * apply spec_label_compat, script_max_spread, haversine_nonneg.
      * apply script_max_spread, haversine_nonneg.
  - intro Hvalid.
    assert (E : coords_of_csv records = map with_coordinates coords)
      by (apply coords_of_csv_complete; exact Hvalid).
    split.
    + intro Hshort. unfold ap.
      rewrite cl_classification_of_max, cl_max_dist_eq, E.
      rewrite classify_max_dist_complete.
      rewrite ap_max_dist_short by lia. split; reflexivity.
    + intro Hlong. unfold ap.
      rewrite cl_classification_of_max, cl_max_dist_eq, E.
      rewrite classify_max_dist_complete.
      rewrite ap_max_dist_spread by lia.
      simpl. split; [reflexivity|].
      intro Hnz. unfold spec_classify.
      destruct (length coords <? 2)%nat eqn:L; [apply Nat.ltb_lt in L; lia|].
      simpl.
      destruct (Qeq_bool (spec_max_spread haversine coords) 0) eqn:Z; [|reflexivity].
      apply Qeq_bool_iff in Z. contradiction.
Qed.

Lemma classifier_matches_reference_witness :
  sc_classification
    (script_classify_rows flat_distance "aa:bb:cc:dd:ee:ff" "HomeRouter" missing_first)
  = CoTraveler
  /\ cl_classification
       (ap_classify_rows flat_distance "aa:bb:cc:dd:ee:ff" "HomeRouter"
          (map of_detection far_apart))
     = CoTraveler
  /\ cl_max_dist
       (ap_classify_rows flat_distance "aa:bb:cc:dd:ee:ff" "HomeRouter"
          (map of_detection lone_sighting))
     = None.
Proof.
  assert (V2 : Forall (fun r => has_coordinates r = true) (map of_detection far_apart))
    by (repeat constructor).
  assert (V1 : Forall (fun r => has_coordinates r = true)
                 (map of_detection lone_sighting))
    by (repeat constructor).
  destruct (classifier_matches_reference flat_distance flat_distance_nonneg
              "aa:bb:cc:dd:ee:ff" "HomeRouter" missing_first)
    as [S _].
  destruct (classifier_matches_reference flat_distance flat_distance_nonneg
              "aa:bb:cc:dd:ee:ff" "HomeRouter" (map of_detection far_apart))
    as [_ L].
  destruct (classifier_matches_reference flat_distance flat_distance_nonneg
              "aa:bb:cc:dd:ee:ff" "HomeRouter" (map of_detection lone_sighting))
    as [_ N].
  split; [|split].
  - destruct S as [S _]; [left; simpl; lia|].
    rewrite S. vm_compute. reflexivity.
  - destruct (L V2) as [_ L2]. destruct L2 as [_ L2]; [simpl; lia|].
    rewrite L2; [vm_compute; reflexivity|].
    vm_compute. discriminate.
  - destruct (N V1) as [N1 _]. apply N1. simpl. lia.
Defined.

(** C1 as stated fails in three places.  For a group of one detection, with
    valid coordinates, the reference reports a spread of 0 and
    [AccessPointClassifier.classify] reports none.  For the group
    [missing_first], whose first detection has no coordinates and whose two
    valid-coordinate detections are 2.2 km apart, the reference says
    co-traveler and [AccessPointClassifier.classify] says unknown: the first
    distance is [NaN] and stays in [max_dist].  For the group [one_located],
    of two detections of which one has coordinates, the reference says
    unknown and the script says static. *)
Lemma classifiers_depart_from_reference :
  (snd (spec_classify flat_distance
          (valid_coords (coords_of_csv (map of_detection lone_sighting)))) = 0
   /\ cl_max_dist
        (ap_classify_rows flat_distance "aa:bb:cc:dd:ee:ff" "HomeRouter"
           (map of_detection lone_sighting)) = None)
  /\ (length (valid_coords (coords_of_csv missing_first)) = 2%nat
      /\ fst (spec_classify flat_distance (valid_coords (coords_of_csv missing_first)))
         = CoTraveler
      /\ cl_classification
           (ap_classify_rows flat_distance "aa:bb:cc:dd:ee:ff" "HomeRouter"
              missing_first)
         = Unknown
      /\ cl_max_dist
           (ap_classify_rows flat_distance "aa:bb:cc:dd:ee:ff" "HomeRouter"
              missing_first)
         = Some None)
  /\ (length (valid_coords (coords_of_csv one_located)) = 1%nat
      /\ fst (spec_classify flat_distance (valid_coords (coords_of_csv one_located)))
         = Unknown
      /\ sc_classification
           (script_classify_rows flat_distance "aa:bb:cc:dd:ee:ff" "HomeRouter"
              one_located)
         = Static).
Proof.
  vm_compute. repeat split.
Qed.

(** C2, on the input where it fails.  For two detections at the same place
    the largest pairwise distance is 0: the script, which keeps the
    [is_cotraveler] flag and the running maximum, labels the group static;
    [AccessPointClassifier.classify], which keeps the maximum only, tests it
    with [if max_dist:] and leaves the group unknown. *)
Theorem formulations_disagree_at_zero_spread
  (haversine : coord -> coord -> Q) (key_mac key_ssid : string)
  (d1 d2 : detection) :
  haversine (latitude d1, longitude d1) (latitude d2, longitude d2) == 0 ->
  sc_classification (script_classify_group haversine key_mac key_ssid [d1; d2])
  = Static
  /\ ap_classification (ap_classify_group haversine key_mac key_ssid [d1; d2])
     = Unknown.
Proof.
  intro Hz. split.
  - rewrite script_classification_eq.
    rewrite script_label_of_max by (simpl; lia).
    unfold pair_distances. simpl.
    rewrite (spec_label_compat _ 0); [reflexivity|].
    rewrite Hz. reflexivity.
  - rewrite ap_classification_of_max.
    rewrite ap_max_dist_spread by (simpl; lia).
    unfold spec_max_spread. simpl.
    apply Qeq_bool_iff in Hz. now rewrite Hz.
Qed.

Lemma formulations_disagree_at_zero_spread_witness :
  sc_classification
    (script_classify_group flat_distance "aa:bb:cc:dd:ee:ff" "HomeRouter" same_place)
  = Static
  /\ ap_classification
       (ap_classify_group flat_distance "aa:bb:cc:dd:ee:ff" "HomeRouter" same_place)
     = Unknown.
Proof.
  apply (formulations_disagree_at_zero_spread flat_distance
           "aa:bb:cc:dd:ee:ff" "HomeRouter"
           (detection_at (1 # 1000) (1 # 1000) (Some 0%Z) (Some (-40)))
           (detection_at (1 # 1000) (1 # 1000) (Some 60%Z) (Some (-50)))).
  vm_compute. reflexivity.
Defined.

(** Away from a zero spread the two formulations assign the same label. *)
Lemma formulations_agree_off_zero
  (haversine : coord -> coord -> Q)
  (haversine_nonneg : forall p q, 0 <= haversine p q)
  (key_mac key_ssid : string) (records : list detection) :
  ((length records < 2)%nat
   \/ ~ spec_max_spread haversine (coords_of records) == 0) ->
  sc_classification (script_classify_group haversine key_mac key_ssid records)
  = ap_classification (ap_classify_group haversine key_mac key_ssid records).
Proof.
  intro H.
  rewrite script_classification_eq, ap_classification_of_max.
  assert (Hlen : length (coords_of records) = length records) by apply length_map.
  destruct (Nat.lt_ge_cases (length records) 2) as [Hshort|Hlong].
  - rewrite ap_max_dist_short by lia.
    unfold script_classify_coords.
    destruct (length (coords_of records) <? 2)%nat eqn:E;
      [|apply Nat.ltb_ge in E; lia].
    reflexivity.
  - destruct H as [H|H]; [lia|].
    rewrite ap_max_dist_spread by lia.
    rewrite script_label_of_max by lia. simpl.
    destruct (Qeq_bool (spec_max_spread haversine (coords_of records)) 0) eqn:Z.
    + apply Qeq_bool_iff in Z. contradiction.
    + apply spec_label_compat, script_max_spread, haversine_nonneg.
Qed.

(** ** Best location *)




(** ** Confidence score *)

Lemma Qmin_unit_range (a : Q) : 0 <= a -> 0 <= Qmin a 1 <= 1.
Proof.
  intro H. split.
  - apply Q.min_glb; [exact H|]. discriminate.
  - apply Q.le_min_r.
Qed.

Lemma count_factor_range (n : nat) :
  0 <= Flagged.count_factor n <= 1.
Proof.
  apply Qmin_unit_range.
  apply Qle_shift_div_l; [reflexivity|].
  rewrite Qmult_0_l. change 0 with (inject_Z 0).
  rewrite <- Zle_Qle. lia.
Qed.

Lemma distance_factor_range (d : Q) :
  0 <= Flagged.distance_factor d <= 1.
Proof.
  apply Qmin_unit_range. apply Q.le_max_r.
Qed.

Lemma time_factor_range (t : Q) :
  0 <= t -> 0 <= Flagged.time_factor t <= 1.
Proof.
  intro H. apply Qmin_unit_range.
  apply Qle_shift_div_l; [reflexivity|]. now rewrite Qmult_0_l.
Qed.

(** [min(max(x, 0), 1)] is the clamp of [x] to the unit interval. *)
Lemma min_max_is_clamp (x : Q) : Qmin (Qmax x 0) 1 == Flagged.clamp x 0 1.
Proof.
  unfold Flagged.clamp.
  destruct (Qle_bool x 0) eqn:L.
  - apply Qle_bool_iff in L.
    rewrite (Q.max_r x 0 L). apply Q.min_l. discriminate.
  - apply Qle_bool_false in L.
    rewrite (Q.max_l x 0 (Qlt_le_weak _ _ L)).
    destruct (Qle_bool 1 x) eqn:U.
    + apply Qle_bool_iff in U. now apply Q.min_r.
    + apply Qle_bool_false in U. apply Q.min_l. now apply Qlt_le_weak.
Qed.

(** C3.  For a flagged group of [n] detections with spread [d >= 300] and
    time range [t] hours, the confidence is
    [100 * (0.3 * min(n/20, 1) + 0.4 * clamp((d - 300)/9700, 0, 1)
            + 0.3 * min(t/12, 1))],
    the clamp never cuts from below, and the value lies in [0, 100]. *)
Theorem confidence_formula_and_range (n : nat) (d t : Q) :
  300 <= d -> 0 <= t ->
  Flagged.confidence n d t == Flagged.spec_confidence n d t
  /\ Flagged.distance_factor d == Qmin ((d - 300) / 9700) 1
  /\ 0 <= Flagged.confidence n d t <= 100.
Proof.
  intros Hd Ht.
  split; [|split].
  - unfold Flagged.confidence, Flagged.spec_confidence, Flagged.count_factor,
      Flagged.distance_factor, Flagged.time_factor.
    rewrite min_max_is_clamp. ring.
  - unfold Flagged.distance_factor.
    rewrite Q.max_l; [reflexivity|].
    apply Qle_shift_div_l; [reflexivity|]. lra.
  - pose proof (count_factor_range n) as [C0 C1].
    pose proof (distance_factor_range d) as [D0 D1].
    pose proof (time_factor_range t Ht) as [T0 T1].
    unfold Flagged.confidence.
    set (cf := Flagged.count_factor n) in *.
    set (df := Flagged.distance_factor d) in *.
    set (tf := Flagged.time_factor t) in *.
    split; lra.
Qed.

Lemma confidence_formula_and_range_witness :
  Flagged.confidence 5 5150 6 == 85 # 2
  /\ 0 <= Flagged.confidence 5 5150 6 <= 100.
Proof.
  split.
  - reflexivity.
  - apply (confidence_formula_and_range 5 5150 6); vm_compute; discriminate.
Defined.

(** Holding count and time fixed, the confidence does not decrease with the
    spread. *)
Lemma confidence_monotone_in_spread (n : nat) (d d' t : Q) :
  d <= d' -> Flagged.confidence n d t <= Flagged.confidence n d' t.
Proof.
  intro H. unfold Flagged.confidence.
  assert (M : Flagged.distance_factor d <= Flagged.distance_factor d').
  { unfold Flagged.distance_factor.
    apply Q.min_le_compat_r, Q.max_le_compat_r.
    unfold Qdiv. apply Qmult_le_compat_r; [lra|discriminate]. }
  set (cf := Flagged.count_factor n).
  set (tf := Flagged.time_factor t).
  set (a := Flagged.distance_factor d) in *.
  set (b := Flagged.distance_factor d') in *.
  lra.
Qed.

(** ** Location estimator *)

Lemma Qsum_from (l : list Q) (a : Q) : fold_left Qplus l a == a + Qsum l.
Proof.
  unfold Qsum. revert a. induction l as [|x xs IH]; intro a; simpl.
  - ring.
  - rewrite (IH (a + x)), (IH (0 + x)). ring.
Qed.

Lemma Qsum_cons (x : Q) (l : list Q) : Qsum (x :: l) == x + Qsum l.
Proof.
  unfold Qsum at 1. simpl. rewrite Qsum_from. ring.
Qed.

Lemma Qsum_nonneg (l : list Q) : Forall (Qle 0) l -> 0 <= Qsum l.
Proof.
  induction 1 as [|x xs Hx _ IH].
  - apply Qle_refl.
  - rewrite Qsum_cons. lra.
Qed.

Lemma ap_weights_spec (group : list detection) :
  ap_weights group = map (spec_weight 0) group.
Proof.
  apply map_ext. intro r. unfold spec_weight.
  destruct (rssi r); reflexivity.
Qed.

Lemma aggregate_weights_spec (group : list detection) :
  aggregate_weights group = map (spec_weight 1) group.
Proof.
  apply map_ext. intro r. unfold spec_weight.
  destruct (rssi r); reflexivity.
Qed.

Lemma spec_weight_nonneg (fallback : Q) (group : list detection) :
  0 <= fallback -> Forall (Qle 0) (map (spec_weight fallback) group).
Proof.
  intro H. apply Forall_map, Forall_forall. intros r _.
  unfold spec_weight. destruct (rssi r); [apply Q.le_max_l|exact H].
Qed.



#[local] Set Warnings "-inexact-float".

#[local] Set Warnings "+inexact-float".

(** ** First and last seen *)

Lemma In_series_times (l : list (option Z)) (t : Z) :
  In t (series_times l) <-> In (Some t) l.
Proof.
  unfold series_times. rewrite in_flat_map. split.
  - intros [[x|] [Hin Hx]]; simpl in Hx; [|contradiction].
    destruct Hx as [->|[]]. exact Hin.
  - intro Hin. exists (Some t). split; [exact Hin|]. now left.
Qed.

Lemma fold_min_spec (ts : list Z) (t : Z) :
  In (fold_left Z.min ts t) (t :: ts)
  /\ forall t', In t' (t :: ts) -> (fold_left Z.min ts t <= t')%Z.
Proof.
  revert t. induction ts as [|x xs IH]; intro t; simpl.
  - split; [now left|]. intros t' [->|[]]. lia.
  - destruct (IH (Z.min t x)) as [Hin Hle]. split.
    + destruct Hin as [Hin|Hin]; [|now right; right].
      rewrite <- Hin. destruct (Z.min_spec t x) as [[_ ->]|[_ ->]]; auto.
    + intros t' [->|[->|Hin']].
      * specialize (Hle (Z.min t' x) (or_introl eq_refl)). lia.
      * specialize (Hle (Z.min t t') (or_introl eq_refl)). lia.
      * apply Hle. right. exact Hin'.
Qed.

Lemma fold_max_spec (ts : list Z) (t : Z) :
  In (fold_left Z.max ts t) (t :: ts)
  /\ forall t', In t' (t :: ts) -> (t' <= fold_left Z.max ts t)%Z.
Proof.
  revert t. induction ts as [|x xs IH]; intro t; simpl.
  - split; [now left|]. intros t' [->|[]]. lia.
  - destruct (IH (Z.max t x)) as [Hin Hle]. split.
    + destruct Hin as [Hin|Hin]; [|now right; right].
      rewrite <- Hin. destruct (Z.max_spec t x) as [[_ ->]|[_ ->]]; auto.
    + intros t' [->|[->|Hin']].
      * specialize (Hle (Z.max t' x) (or_introl eq_refl)). lia.
      * specialize (Hle (Z.max t t') (or_introl eq_refl)). lia.
      * apply Hle. right. exact Hin'.
Qed.

(** [Series.min()] is the earliest parseable timestamp. *)
Lemma series_min_earliest (times : list (option Z)) :
  earliest_parseable times (series_min times).
Proof.
  unfold series_min, earliest_parseable.
  destruct (series_times times) as [|t ts] eqn:E.
  - intros t' Hin. apply In_series_times in Hin. now rewrite E in Hin.
  - destruct (fold_min_spec ts t) as [Hin Hle]. rewrite <- E in Hin, Hle. split.
    + now apply In_series_times.
    + intros t' Ht'. apply Hle. now apply In_series_times.
Qed.

Lemma series_max_latest (times : list (option Z)) :
  latest_parseable times (series_max times).
Proof.
  unfold series_max, latest_parseable.
  destruct (series_times times) as [|t ts] eqn:E.
  - intros t' Hin. apply In_series_times in Hin. now rewrite E in Hin.
  - destruct (fold_max_spec ts t) as [Hin Hle]. rewrite <- E in Hin, Hle. split.
    + now apply In_series_times.
    + intros t' Ht'. apply Hle. now apply In_series_times.
Qed.

(** On timestamps that all parse the builtin [min] and [max] are the ones of
    the series. *)
Lemma builtin_fold_min (ts : list Z) (t : Z) :
  fold_left (fun cur item => if ts_ltb item cur then item else cur)
            (map Some ts) (Some t)
  = Some (fold_left Z.min ts t).
Proof.
  revert t. induction ts as [|x xs IH]; intro t; simpl; [reflexivity|].
  destruct (x <? t)%Z eqn:E.
  - rewrite IH. f_equal. f_equal. apply Z.ltb_lt in E. lia.
  - rewrite IH. f_equal. f_equal. apply Z.ltb_ge in E. lia.
Qed.

Lemma builtin_fold_max (ts : list Z) (t : Z) :
  fold_left (fun cur item => if ts_ltb cur item then item else cur)
            (map Some ts) (Some t)
  = Some (fold_left Z.max ts t).
Proof.
  revert t. induction ts as [|x xs IH]; intro t; simpl; [reflexivity|].
  destruct (t <? x)%Z eqn:E.
  - rewrite IH. f_equal. f_equal. apply Z.ltb_lt in E. lia.
  - rewrite IH. f_equal. f_equal. apply Z.ltb_ge in E. lia.
Qed.

Lemma all_parse_map_Some (times : list (option Z)) :
  Forall (fun o => o <> None) times -> times = map Some (series_times times).
Proof.
  induction 1 as [|[t|] l Hx _ IH]; simpl.
  - reflexivity.
  - f_equal. exact IH.
  - congruence.
Qed.

Lemma builtin_min_all_parse (times : list (option Z)) :
  times <> [] -> Forall (fun o => o <> None) times ->
  builtin_min times = Some (series_min times)
  /\ builtin_max times = Some (series_max times).
Proof.
  intros Hne Hall. pose proof (all_parse_map_Some times Hall) as E.
  unfold series_min, series_max.
  destruct (series_times times) as [|t ts].
  - simpl in E. congruence.
  - rewrite E. simpl. now rewrite builtin_fold_min, builtin_fold_max.
Qed.

(** The builtin [min] and [max] keep a leading [NaT]: the script reports no
    first and last seen for this group although one timestamp parses. *)
Example builtin_min_keeps_leading_nat :
  sc_first_seen
    (script_classify_group flat_distance "aa:bb:cc:dd:ee:ff" "HomeRouter"
       first_unparseable) = Some None
  /\ sc_last_seen
       (script_classify_group flat_distance "aa:bb:cc:dd:ee:ff" "HomeRouter"
          first_unparseable) = Some None
  /\ series_min (map time_dt first_unparseable) = Some 60%Z.
Proof. repeat split; vm_compute; reflexivity. Qed.

(** ** Flagged signals: cleaning and grouping *)

Lemma clean_drops_unparseable (df : list Flagged.row) :
  Flagged.clean (filter (fun r => Flagged.notna (Flagged.r_time_dt r)) df)
  = Flagged.clean df.
Proof.
  unfold Flagged.clean. induction df as [|r df IH]; simpl; [reflexivity|].
  destruct (Flagged.notna (Flagged.r_time_dt r)) eqn:T; simpl.
  - destruct (Flagged.notna (Flagged.r_latitude r)
              && Flagged.notna (Flagged.r_longitude r)); simpl.
    + rewrite T. now f_equal.
    + exact IH.
  - destruct (Flagged.notna (Flagged.r_latitude r)
              && Flagged.notna (Flagged.r_longitude r)); simpl.
    + now rewrite T.
    + exact IH.
Qed.

Lemma clean_all_parse (df : list Flagged.row) (r : Flagged.row) :
  In r (Flagged.clean df) ->
  In r df /\ Flagged.r_time_dt r <> None
  /\ Flagged.r_latitude r <> None /\ Flagged.r_longitude r <> None.
Proof.
  unfold Flagged.clean. rewrite !filter_In.
  intros [[Hin Hc] Ht]. apply andb_true_iff in Hc as [Hla Hlo].
  repeat split; try exact Hin.
  - destruct (Flagged.r_time_dt r); [discriminate|discriminate Ht].
  - destruct (Flagged.r_latitude r); [discriminate|discriminate Hla].
  - destruct (Flagged.r_longitude r); [discriminate|discriminate Hlo].
Qed.

Lemma insert_sorted_perm (x : string) (l : list string) :
  Permutation (Flagged.insert_sorted x l) (x :: l).
Proof.
  induction l as [|y ys IH]; simpl; [reflexivity|].
  destruct (String.leb x y); [reflexivity|].
  rewrite IH. apply perm_swap.
Qed.

Lemma sorted_set_perm (l : list string) :
  Permutation (Flagged.sorted_set l) (nodup string_dec l).
Proof.
  unfold Flagged.sorted_set.
  induction (nodup string_dec l) as [|x xs IH]; simpl; [reflexivity|].
  rewrite insert_sorted_perm. now constructor.
Qed.

Lemma sorted_set_NoDup (l : list string) : NoDup (Flagged.sorted_set l).
Proof.
  eapply Permutation_NoDup; [symmetry; apply sorted_set_perm|].
  apply NoDup_nodup.
Qed.

Lemma sorted_set_In (l : list string) (x : string) :
  In x (Flagged.sorted_set l) <-> In x l.
Proof.
  rewrite <- (nodup_In string_dec l). split; intro H.
  - eapply Permutation_in; [apply sorted_set_perm|exact H].
  - eapply Permutation_in; [symmetry; apply sorted_set_perm|exact H].
Qed.

(** The label and the spread depend on the coordinates of the group only. *)
Lemma classification_depends_on_coords
  (haversine : coord -> coord -> Q) (key_mac key_ssid : string)
  (records records' : list detection) :
  coords_of records' = coords_of records ->
  ap_classification (ap_classify_group haversine key_mac key_ssid records')
  = ap_classification (ap_classify_group haversine key_mac key_ssid records)
  /\ ap_max_dist_field (ap_classify_group haversine key_mac key_ssid records')
     = ap_max_dist_field (ap_classify_group haversine key_mac key_ssid records)
  /\ sc_classification (script_classify_group haversine key_mac key_ssid records')
     = sc_classification (script_classify_group haversine key_mac key_ssid records)
  /\ sc_max_dist (script_classify_group haversine key_mac key_ssid records')
     = sc_max_dist (script_classify_group haversine key_mac key_ssid records).
Proof.
  intro E.
  rewrite !ap_classification_of_max, !ap_max_dist_field_eq,
    !script_classification_eq, !script_max_dist_eq, E.
  repeat split.
Qed.

Lemma flagged_results_In
  (haversine : coord -> coord -> Q) (df : list Flagged.row) (r : Flagged.flagged) :
  In r (Flagged.flagged_results haversine df) <->
  exists key,
    In key (map Flagged.r_mac (Flagged.clean df))
    /\ Flagged.analyse_group haversine key
         (filter (fun d => String.eqb (Flagged.r_mac d) key) (Flagged.clean df))
       = Some r.
Proof.
  unfold Flagged.flagged_results, Flagged.groupby_mac.
  rewrite in_flat_map. split.
  - intros [[key group] [Hin Hr]]. apply in_map_iff in Hin as [k [Hk Hin]].
    injection Hk as <- <-. exists k. split; [exact (proj1 (sorted_set_In _ _) Hin)|].
    simpl in Hr.
    destruct (Flagged.analyse_group haversine k _) as [r'|]; simpl in Hr.
    + destruct Hr as [->|[]]. reflexivity.
    + contradiction.
  - intros [key [Hin Hr]].
    exists (key, filter (fun d => String.eqb (Flagged.r_mac d) key) (Flagged.clean df)).
    split.
    + apply in_map_iff. exists key. split; [reflexivity|].
      exact (proj2 (sorted_set_In _ _) Hin).
    + simpl. rewrite Hr. now left.
Qed.

(** What [analyse_group] stores in a record. *)
Lemma analyse_group_fields
  (haversine : coord -> coord -> Q) (key : string) (group : list Flagged.row)
  (r : Flagged.flagged) :
  Flagged.analyse_group haversine key group = Some r ->
  let first_seen := series_min (map Flagged.r_time_dt group) in
  let last_seen := series_max (map Flagged.r_time_dt group) in
  let spread := Flagged.compute_max_distance haversine group in
  let hours := Flagged.time_range_hours first_seen last_seen in
  300 <= spread
  /\ r = Flagged.mkFlagged key
           (Flagged.join_sorted_set (map Flagged.r_ssid group))
           (Flagged.join_sorted_set (map Flagged.r_destmac group))
           (Flagged.join_sorted_set (map Flagged.r_type group))
           (length group)
           (Flagged.py_round spread 1)
           (Flagged.py_round hours 2)
           first_seen last_seen
           (Flagged.py_round (Flagged.confidence (length group) spread hours) 1)
           (Flagged.join_sorted_set (map Flagged.r_source_file group)).
Proof.
  unfold Flagged.analyse_group.
  destruct (length group <? 1)%nat; [discriminate|].
  destruct (Qle_bool 300 (Flagged.compute_max_distance haversine group)) eqn:G;
    simpl; [|discriminate].
  intro H. injection H as <-. split; [|reflexivity].
  now apply Qle_bool_iff.
Qed.

(** C5, as amended.  [AccessPointClassifier.classify] reports as first and
    last seen the earliest and the latest of the parseable timestamps of the
    group, and nothing when none parses; its label and spread, and those of
    the script, are computed from the coordinates of every detection of the
    group, whatever its timestamp.  When every timestamp of a group parses,
    the script reports the same first and last seen.  The flagged signals
    analysis drops the rows whose timestamp does not parse before grouping:
    its result is the one for the input without those rows, and the first and
    last seen of a record are the earliest and latest timestamps of the rows
    of that MAC that are left. *)
Theorem seen_range_and_unparseable_timestamps
  (haversine : coord -> coord -> Q) (key_mac key_ssid : string)
  (records : list detection) :
  let times := map time_dt records in
  let ap := ap_classify_group haversine key_mac key_ssid records in
  let script := script_classify_group haversine key_mac key_ssid records in
  earliest_parseable times (ap_first_seen ap)
  /\ latest_parseable times (ap_last_seen ap)
  /\ (forall records',
        coords_of records' = coords_of records ->
        ap_classification (ap_classify_group haversine key_mac key_ssid records')
        = ap_classification ap
        /\ ap_max_dist_field (ap_classify_group haversine key_mac key_ssid records')
           = ap_max_dist_field ap
        /\ sc_classification
             (script_classify_group haversine key_mac key_ssid records')
           = sc_classification script
        /\ sc_max_dist (script_classify_group haversine key_mac key_ssid records')
           = sc_max_dist script)
  /\ (records <> [] -> Forall (fun o => o <> None) times ->
      sc_first_seen script = Some (ap_first_seen ap)
      /\ sc_last_seen script = Some (ap_last_seen ap))
  /\ (forall df : list Flagged.row,
        Flagged.flagged_results haversine
          (filter (fun r => Flagged.notna (Flagged.r_time_dt r)) df)
        = Flagged.flagged_results haversine df
        /\ forall r, In r (Flagged.flagged_results haversine df) ->
             let group :=
               filter (fun d => String.eqb (Flagged.r_mac d) (Flagged.fl_mac r))
                      (Flagged.clean df) in
             earliest_parseable (map Flagged.r_time_dt group) (Flagged.fl_first_seen r)
             /\ latest_parseable (map Flagged.r_time_dt group) (Flagged.fl_last_seen r)
             /\ Forall (fun d => Flagged.r_time_dt d <> None) group).
Proof.
  intros times ap script.
  assert (Hfirst : ap_first_seen ap = series_min times).
  { unfold ap, ap_classify_group.
    destruct (ap_max_dist haversine (coords_of records)) as [m|]; [|reflexivity].
    destruct (truthy (Some m)); [|reflexivity].
    destruct (Qgeb m COTRAVELER_DIST_THRESHOLD); [reflexivity|].
    destruct (Qle_bool m STATIC_AP_DIST_THRESHOLD); reflexivity. }
  assert (Hlast : ap_last_seen ap = series_max times).
  { unfold ap, ap_classify_group.
    destruct (ap_max_dist haversine (coords_of records)) as [m|]; [|reflexivity].
    destruct (truthy (Some m)); [|reflexivity].
    destruct (Qgeb m COTRAVELER_DIST_THRESHOLD); [reflexivity|].
    destruct (Qle_bool m STATIC_AP_DIST_THRESHOLD); reflexivity. }
  split; [|split; [|split; [|split]]].
  - rewrite Hfirst. apply series_min_earliest.
  - rewrite Hlast. apply series_max_latest.
  - intros records' E. now apply classification_depends_on_coords.
  - intros Hne Hall. rewrite Hfirst, Hlast.
    assert (Hne' : times <> []).
    { unfold times. destruct records; [congruence|discriminate]. }
    destruct (builtin_min_all_parse times Hne' Hall) as [Hmin Hmax].
    unfold script, script_classify_group.
    destruct (script_classify_coords haversine (coords_of records)).
    simpl. split; assumption.
  - intro df. split.
    + unfold Flagged.flagged_results. now rewrite clean_drops_unparseable.
    + intros r Hr group.
      apply flagged_results_In in Hr as [key [_ Hr]].
      apply analyse_group_fields in Hr as [_ Hr].
      assert (Hk : Flagged.fl_mac r = key) by (rewrite Hr; reflexivity).
      unfold group. rewrite Hk.
      split; [|split].
      * rewrite Hr. simpl. apply series_min_earliest.
      * rewrite Hr. simpl. apply series_max_latest.
      * apply Forall_forall. intros d Hd.
        apply filter_In in Hd as [Hd _].
        now apply clean_all_parse in Hd.
Qed.

Lemma seen_range_and_unparseable_timestamps_witness :
  sc_first_seen
    (script_classify_group flat_distance "aa:bb:cc:dd:ee:ff" "HomeRouter" far_apart)
  = Some (Some 0%Z)
  /\ ap_classification
       (ap_classify_group flat_distance "aa:bb:cc:dd:ee:ff" "HomeRouter"
          first_unparseable)
     = ap_classification
         (ap_classify_group flat_distance "aa:bb:cc:dd:ee:ff" "HomeRouter" same_place)
  /\ In (Some 0%Z) (map Flagged.r_time_dt both_parseable).
Proof.
  destruct (seen_range_and_unparseable_timestamps flat_distance
              "aa:bb:cc:dd:ee:ff" "HomeRouter" far_apart)
    as [_ [_ [_ [S F]]]].
  destruct (seen_range_and_unparseable_timestamps flat_distance
              "aa:bb:cc:dd:ee:ff" "HomeRouter" same_place)
    as [_ [_ [C _]]].
  split; [|split].
  - destruct S as [S _].
    + discriminate.
    + repeat constructor; discriminate.
    + rewrite S. vm_compute. reflexivity.
  - apply (C first_unparseable). reflexivity.
  - destruct (F both_parseable) as [_ G].
    assert (H : In (first_record (Flagged.flagged_results flat_distance both_parseable))
                   (Flagged.flagged_results flat_distance both_parseable))
      by (vm_compute; left; reflexivity).
    specialize (G _ H). cbv zeta in G. destruct G as [E _].
    vm_compute in E. destruct E as [E _]. exact E.
Defined.

(** C5 as stated fails on the flagged signals analysis: the second row, whose
    timestamp does not parse, lies 556 m from the first, yet the spread of the
    group is computed as 0 and the MAC is not flagged; with the row counted
    the spread is 555.974 m. *)
Lemma unparseable_row_left_out_of_spread :
  Flagged.compute_max_distance flat_distance one_unparseable == 555974 # 1000
  /\ map (fun kg => Flagged.compute_max_distance flat_distance (snd kg))
         (Flagged.groupby_mac (Flagged.clean one_unparseable)) = [0]
  /\ Flagged.flagged_results flat_distance one_unparseable = [].
Proof. repeat split; vm_compute; reflexivity. Qed.

(** ** Flagged records are keyed by MAC *)

Lemma analyse_group_mac
  (haversine : coord -> coord -> Q) (key : string) (group : list Flagged.row)
  (r : Flagged.flagged) :
  Flagged.analyse_group haversine key group = Some r -> Flagged.fl_mac r = key.
Proof.
  intro H. apply analyse_group_fields in H as [_ ->]. reflexivity.
Qed.

(** At most one record per key, whatever the groups are. *)
Lemma records_of_distinct_keys
  (haversine : coord -> coord -> Q) (groups : string -> list Flagged.row)
  (keys : list string) :
  NoDup keys ->
  NoDup (map Flagged.fl_mac
           (flat_map (fun kg => match Flagged.analyse_group haversine (fst kg) (snd kg) with
                                | Some r => [r]
                                | None => []
                                end)
                     (map (fun key => (key, groups key)) keys)))
  /\ forall m,
       In m (map Flagged.fl_mac
               (flat_map (fun kg => match Flagged.analyse_group haversine (fst kg) (snd kg) with
                                    | Some r => [r]
                                    | None => []
                                    end)
                         (map (fun key => (key, groups key)) keys))) ->
       In m keys.
Proof.
  induction 1 as [|k ks Hk Hnd [IH1 IH2]]; simpl.
  - split; [constructor|]. intros m [].
  - destruct (Flagged.analyse_group haversine k (groups k)) as [r|] eqn:A; simpl.
    + apply analyse_group_mac in A. rewrite A. split.
      * constructor; [|exact IH1]. intro Hin. apply Hk. now apply IH2.
      * intros m [<-|Hin]; [now left|]. right. now apply IH2.
    + split; [exact IH1|]. intros m Hin. right. now apply IH2.
Qed.


(** One MAC seen under two SSIDs yields a single record; both SSIDs are in
    its SSID field and both detections in its count. *)
Example two_ssids_one_record :
  map (fun r => (Flagged.fl_mac r, Flagged.fl_ssid r, Flagged.fl_detections r))
      (Flagged.flagged_results flat_distance two_ssids)
  = [("aa:bb:cc:dd:ee:ff"%string, "Cafe, Guest"%string, 2%nat)].
Proof. vm_compute. reflexivity. Qed.


(** ** The confidence stored in a record *)

Lemma time_range_hours_nonneg (times : list (option Z)) :
  0 <= Flagged.time_range_hours (series_min times) (series_max times).
Proof.
  unfold series_min, series_max, Flagged.time_range_hours.
  destruct (series_times times) as [|t ts]; [apply Qle_refl|].
  destruct (fold_min_spec ts t) as [_ Hmin].
  destruct (fold_max_spec ts t) as [_ Hmax].
  specialize (Hmin t (or_introl eq_refl)).
  specialize (Hmax t (or_introl eq_refl)).
  apply Qle_shift_div_l; [reflexivity|].
  rewrite Qmult_0_l. change 0 with (inject_Z 0).
  rewrite <- Zle_Qle. lia.
Qed.

(** Rounding stays between the integers that bound its argument. *)
Lemma round_half_even_bounds (y : Q) (a b : Z) :
  inject_Z a <= y -> y <= inject_Z b ->
  (a <= Flagged.round_half_even y <= b)%Z.
Proof.
  intros Ha Hb.
  assert (Fa : (a <= Qfloor y)%Z).
  { rewrite <- (Qfloor_Z a). now apply Qfloor_resp_le. }
  assert (Fb : (Qfloor y <= b)%Z).
  { rewrite <- (Qfloor_Z b). now apply Qfloor_resp_le. }
  assert (Up : 0 < y - inject_Z (Qfloor y) -> (Qfloor y + 1 <= b)%Z).
  { intro Hr.
    assert (Hlt : inject_Z (Qfloor y) < inject_Z b) by lra.
    rewrite <- Zlt_Qlt in Hlt. lia. }
  unfold Flagged.round_half_even.
  destruct (Qle_bool (y - inject_Z (Qfloor y)) (1 # 2)) eqn:L.
  - destruct (Qeq_bool (y - inject_Z (Qfloor y)) (1 # 2)) eqn:E.
    + apply Qeq_bool_iff in E.
      destruct (Z.even (Qfloor y)); [lia|].
      split; [lia|]. apply Up. rewrite E. reflexivity.
    + lia.
  - apply Qle_bool_false in L.
    split; [lia|]. apply Up. eapply Qlt_trans; [|exact L]. reflexivity.
Qed.

Lemma py_round_percent (x : Q) :
  0 <= x <= 100 -> 0 <= Flagged.py_round x 1 <= 100.
Proof.
  intros [H0 H1]. unfold Flagged.py_round.
  change (inject_Z (10 ^ Z.of_nat 1)) with 10.
  destruct (round_half_even_bounds (x * 10) 0 1000) as [R0 R1].
  - change (inject_Z 0) with 0. lra.
  - change (inject_Z 1000) with 1000. lra.
  - rewrite Zle_Qle in R0, R1.
    change (inject_Z 0) with 0 in R0. change (inject_Z 1000) with 1000 in R1.
    set (z := inject_Z (Flagged.round_half_even (x * 10))) in *.
    split.
    + apply Qle_shift_div_l; [reflexivity|]. lra.
    + apply Qle_shift_div_r; [reflexivity|]. lra.
Qed.

(** X22.  Every confidence that the flagged signals analysis writes out is
    a percentage: the value stored in a record, rounded to one decimal, lies
    between 0 and 100. *)
Lemma flagged_confidence_range
  (haversine : coord -> coord -> Q) (df : list Flagged.row) (r : Flagged.flagged) :
  In r (Flagged.flagged_results haversine df) ->
  0 <= Flagged.fl_confidence r <= 100.
Proof.
  intro Hr. apply flagged_results_In in Hr as [key [_ Hr]].
  apply analyse_group_fields in Hr as [Hd ->]. simpl.
  apply py_round_percent.
  set (group := filter _ _) in *.
  pose proof (count_factor_range (length group)) as [C0 C1].
  pose proof (distance_factor_range
                (Flagged.compute_max_distance haversine group)) as [D0 D1].
  pose proof (time_factor_range _
                (time_range_hours_nonneg (map Flagged.r_time_dt group))) as [T0 T1].
  unfold Flagged.confidence.
  set (cf := Flagged.count_factor _) in *.
  set (dfac := Flagged.distance_factor _) in *.
  set (tf := Flagged.time_factor _) in *.
  split; lra.
Qed.

(** ** Spatial clusterer *)

Lemma list_remove_app_notin (x : nat) (pre l : list nat) :
  ~ In x pre -> list_remove x (pre ++ x :: l) = pre ++ l.
Proof.
  induction pre as [|y ys IH]; simpl; intro H.
  - now rewrite Nat.eqb_refl.
  - destruct (y =? x)%nat eqn:E.
    + apply Nat.eqb_eq in E. exfalso. apply H. now left.
    + f_equal. apply IH. intro Hin. apply H. now right.
Qed.

(** Removing, one by one, the items that a pass selected leaves the items
    that it did not select, in their order. *)
Lemma remove_selected_aux (p : nat -> bool) (l pre : list nat) :
  (forall x, In x pre -> p x = false) ->
  fold_left (fun acc idx => list_remove idx acc) (filter p l) (pre ++ l)
  = pre ++ filter (fun x => negb (p x)) l.
Proof.
  revert pre. induction l as [|a l IH]; intros pre Hpre; simpl.
  - reflexivity.
  - destruct (p a) eqn:E; simpl.
    + rewrite list_remove_app_notin.
      * apply IH, Hpre.
      * intro Hin. apply Hpre in Hin. congruence.
    + change (pre ++ a :: l) with (pre ++ [a] ++ l).
      rewrite app_assoc, IH.
      * now rewrite <- app_assoc.
      * intros x Hin. apply in_app_or in Hin as [Hin|[<-|[]]]; auto.
Qed.

Lemma remove_selected (p : nat -> bool) (l : list nat) :
  fold_left (fun acc idx => list_remove idx acc) (filter p l) l
  = filter (fun x => negb (p x)) l.
Proof.
  apply (remove_selected_aux p l []). intros x [].
Qed.

Lemma filter_split_perm (p : nat -> bool) (l : list nat) :
  Permutation (filter p l ++ filter (fun x => negb (p x)) l) l.
Proof.
  induction l as [|a l IH]; simpl; [reflexivity|].
  destruct (p a); simpl.
  - now constructor.
  - rewrite <- Permutation_middle. now constructor.
Qed.

Lemma filter_split_length (p : nat -> bool) (l : list nat) :
  (length (filter p l) + length (filter (fun x => negb (p x)) l) = length l)%nat.
Proof.
  rewrite <- length_app. apply Permutation_length, filter_split_perm.
Qed.

Section ClustererFacts.

Variable haversine : coord -> coord -> Q.
Variable records : frame.
Variable threshold : Q.

Lemma remove_all_scan (center : coord) (indices : list nat) :
  remove_all (scan haversine records threshold center indices) indices
  = filter (fun idx => negb (near haversine records threshold center idx)) indices.
Proof.
  unfold remove_all, scan. apply (remove_selected (near haversine records threshold center)).
Qed.

(** One pass splits the worklist into the labels that join and those that
    stay. *)
Lemma pass_perm (center : coord) (indices : list nat) :
  Permutation
    (scan haversine records threshold center indices
     ++ remove_all (scan haversine records threshold center indices) indices)
    indices.
Proof.
  rewrite remove_all_scan. apply (filter_split_perm (near haversine records threshold center)).
Qed.

Lemma pass_length (center : coord) (indices : list nat) :
  (length (scan haversine records threshold center indices)
   + length (remove_all (scan haversine records threshold center indices) indices)
   = length indices)%nat.
Proof.
  rewrite remove_all_scan. apply (filter_split_length (near haversine records threshold center)).
Qed.

(** The inner loop ends within [length indices + 1] passes.  It keeps the
    members it started with, moves labels from the worklist to the cluster,
    and stops on a pass that selects nothing: the first pass, around the
    centre it was given, or a later one, around the centre of the final
    cluster. *)
Lemma rescan_loop_total (fuel : nat) :
  forall (cluster indices : list nat) (center : coord),
    (length indices < fuel)%nat ->
    exists cluster' indices',
      rescan_loop haversine records threshold fuel cluster indices center
      = Some (cluster', indices')
      /\ (exists joined, cluster' = cluster ++ joined)
      /\ Permutation (cluster' ++ indices') (cluster ++ indices)
      /\ (length indices' <= length indices)%nat
      /\ (exists last_center,
            ((last_center = center /\ cluster' = cluster)
             \/ last_center = cluster_center records cluster')
            /\ scan haversine records threshold last_center indices' = []).
Proof.
  induction fuel as [|fuel IH]; intros cluster indices center Hfuel; [lia|].
  simpl.
  pose proof (pass_perm center indices) as Hperm.
  pose proof (pass_length center indices) as Hlen.
  destruct (scan haversine records threshold center indices) as [|j js] eqn:Hscan.
  - exists (cluster ++ []), indices. simpl in *.
    split; [reflexivity|]. split; [now exists []|].
    split; [now rewrite app_nil_r|]. split; [lia|].
    exists center. split; [left; split; [reflexivity|apply app_nil_r]|exact Hscan].
  - set (joined := j :: js) in *.
    set (rest := remove_all joined indices) in *.
    assert (Hlt : (length rest < fuel)%nat) by (simpl in Hlen; lia).
    assert (Hcenter :
              match cluster ++ joined with
              | [] => center
              | _ :: _ => cluster_center records (cluster ++ joined)
              end = cluster_center records (cluster ++ joined)).
    { destruct (cluster ++ joined) eqn:C; [|reflexivity].
      destruct cluster; discriminate C. }
    rewrite Hcenter.
    destruct (IH (cluster ++ joined) rest (cluster_center records (cluster ++ joined)) Hlt)
      as [cluster' [indices' [R [[more E] [P [L [lc [Hlc F]]]]]]]].
    exists cluster', indices'.
    split; [exact R|].
    split; [exists (joined ++ more); now rewrite app_assoc|].
    split; [|split].
    + rewrite P, <- app_assoc. now apply Permutation_app_head.
    + simpl in Hlen. lia.
    + exists lc. split; [|exact F]. right.
      destruct Hlc as [[Hc Hcl] | Hc]; [rewrite Hc, Hcl|rewrite Hc]; reflexivity.
Qed.

(** The outer loop ends within [length indices] iterations.  Every iteration
    opens a cluster with its seed, so no cluster is empty and there are at
    most as many clusters as labels; the clusters hold the labels of the
    worklist, each as often as the worklist does. *)
Lemma cluster_loop_total (fuel : nat) :
  forall (indices : list nat) (clusters : list (list nat)),
    (length indices <= fuel)%nat ->
    exists out,
      cluster_loop haversine records threshold fuel indices clusters
      = Some (clusters ++ out)
      /\ Permutation (concat out) indices
      /\ (length out <= length indices)%nat
      /\ Forall (fun c => c <> []) out.
Proof.
  induction fuel as [|fuel IH]; intros indices clusters Hfuel.
  - destruct indices as [|i l]; [|simpl in Hfuel; lia].
    exists []. simpl. rewrite app_nil_r. repeat split; constructor.
  - destruct indices as [|current_idx rest].
    + exists []. simpl. rewrite app_nil_r. repeat split; constructor.
    + simpl in Hfuel.
      destruct (rescan_loop_total (S fuel) [current_idx] rest
                  (loc_coord records current_idx) ltac:(lia))
        as [cluster [indices' [R [[joined E] [P [L _]]]]]].
      destruct (IH indices' (clusters ++ [cluster]) ltac:(lia))
        as [out [C [P' [L' N]]]].
      exists (cluster :: out).
      split; [|split; [|split]].
      * change (cluster_loop haversine records threshold (S fuel)
                  (current_idx :: rest) clusters)
          with (match rescan_loop haversine records threshold (S fuel)
                        [current_idx] rest (loc_coord records current_idx) with
                | None => None
                | Some (cluster0, indices0) =>
                    cluster_loop haversine records threshold fuel indices0
                      (clusters ++ [cluster0])
                end).
        rewrite R, C, <- app_assoc. reflexivity.
      * simpl. rewrite P'. exact P.
      * simpl. lia.
      * constructor; [|exact N]. rewrite E. discriminate.
Qed.

End ClustererFacts.

(** C8.  The clusterer terminates, within a number of iterations bounded by
    the size of the group: with one unit of fuel per label the outer loop
    returns, and so does every run of the inner loop.  Every outer iteration
    puts its seed into the cluster that it opens and leaves a strictly
    shorter worklist; the inner loop stops on a full pass that adds no
    member.  No cluster is empty and there are at most as many clusters as
    detections. *)
Theorem cluster_records_terminates
  (haversine : coord -> coord -> Q) (records : frame) (threshold : Q)
  (indices : list nat) (extra : nat) :
  (exists clusters,
     cluster_loop haversine records threshold (length indices + extra) indices []
     = Some clusters
     /\ (length clusters <= length indices)%nat
     /\ Forall (fun c => c <> []) clusters)
  /\ (forall seed rest,
        indices = seed :: rest ->
        exists cluster rest' last_center,
          rescan_loop haversine records threshold (length indices + extra)
            [seed] rest (loc_coord records seed)
          = Some (cluster, rest')
          /\ In seed cluster
          /\ (length rest' < length indices)%nat
          /\ scan haversine records threshold last_center rest' = []).
Proof.
  split.
  - destruct (cluster_loop_total haversine records threshold
                (length indices + extra) indices [] ltac:(lia))
      as [out [C [_ [L N]]]].
    exists out. split; [exact C|]. split; assumption.
  - intros seed rest ->.
    destruct (rescan_loop_total haversine records threshold
                (length (seed :: rest) + extra) [seed] rest
                (loc_coord records seed) ltac:(simpl; lia))
      as [cluster [rest' [R [[joined E] [_ [L [lc [_ F]]]]]]]].
    exists cluster, rest', lc.
    split; [exact R|]. split; [rewrite E; now left|].
    split; [simpl; lia|exact F].
Qed.

Lemma cluster_records_terminates_witness :
  exists cluster rest' last_center,
    rescan_loop flat_distance triangle 50 3 [1%nat] [2%nat] (loc_coord triangle 1)
    = Some (cluster, rest')
    /\ In 1%nat cluster
    /\ (length rest' < 2)%nat
    /\ scan flat_distance triangle 50 last_center rest' = [].
Proof.
  apply (cluster_records_terminates flat_distance triangle 50 [1%nat; 2%nat] 1).
  reflexivity.
Defined.

Lemma cluster_records_loop
  (haversine : coord -> coord -> Q) (records : frame) (threshold : Q) :
  cluster_loop haversine records threshold (length records) (index_tolist records) []
  = Some (cluster_records haversine records threshold).
Proof.
  unfold cluster_records.
  destruct (cluster_loop_total haversine records threshold (length records)
              (index_tolist records) [])
    as [out [C _]].
  - unfold index_tolist. now rewrite length_map.
  - now rewrite C.
Qed.

(** The clusters, read one after the other, are a rearrangement of the index
    labels of the frame. *)
Lemma concat_clusters_perm
  (haversine : coord -> coord -> Q) (records : frame) (threshold : Q) :
  Permutation (concat (cluster_records haversine records threshold))
              (index_tolist records).
Proof.
  destruct (cluster_loop_total haversine records threshold (length records)
              (index_tolist records) [])
    as [out [C [P _]]].
  - unfold index_tolist. now rewrite length_map.
  - rewrite cluster_records_loop in C. injection C as ->. exact P.
Qed.

(** With distinct labels, every label is in exactly one cluster. *)
Lemma cluster_records_disjoint
  (haversine : coord -> coord -> Q) (records : frame) (threshold : Q) :
  NoDup (index_tolist records) ->
  NoDup (concat (cluster_records haversine records threshold)).
Proof.
  intro H. eapply Permutation_NoDup; [|exact H].
  symmetry. apply concat_clusters_perm.
Qed.

(** C7.  The clusters partition the input: read one after the other they
    hold every index label of the frame exactly as often as the frame does,
    so no detection is lost and none appears twice; a label is in the frame
    exactly when some cluster holds it. *)
Theorem cluster_records_partition
  (haversine : coord -> coord -> Q) (records : frame) (threshold : Q) :
  Permutation (concat (cluster_records haversine records threshold))
              (index_tolist records)
  /\ forall idx, In idx (index_tolist records) <->
                 exists c, In c (cluster_records haversine records threshold)
                           /\ In idx c.
Proof.
  pose proof (concat_clusters_perm haversine records threshold) as P.
  split; [exact P|].
  intro idx. rewrite <- in_concat. split; intro Hin.
  - eapply Permutation_in; [symmetry; exact P|exact Hin].
  - eapply Permutation_in; [exact P|exact Hin].
Qed.

(** Two runs of the clusterer with the default threshold of 50 m. *)
Example triangle_clusters :
  cluster_records flat_distance triangle 50 = [[0%nat]; [1%nat; 2%nat]]
  /\ cluster_records flat_distance scattered 50 = [[0%nat]; [1%nat]; [2%nat]].
Proof. split; vm_compute; reflexivity. Qed.

(** ** Clustering the centroids again *)

Lemma find_enumerate_from {A : Type} (d : A) (l : list A) :
  forall n i,
    (i < length l)%nat ->
    find (fun r => (fst r =? n + i)%nat) (enumerate_from n l)
    = Some ((n + i)%nat, nth i l d).
Proof.
  induction l as [|x xs IH]; intros n i Hi; simpl in *; [lia|].
  destruct i as [|i].
  - rewrite Nat.add_0_r, Nat.eqb_refl. reflexivity.
  - destruct (n =? n + S i)%nat eqn:E; [apply Nat.eqb_eq in E; lia|].
    replace (n + S i)%nat with (S n + i)%nat by lia.
    apply IH. lia.
Qed.

Lemma index_tolist_enumerate_from {A : Type} (l : list A) (n : nat) :
  map fst (enumerate_from n l) = seq n (length l).
Proof.
  revert n. induction l as [|x xs IH]; intro n; simpl; [reflexivity|].
  now rewrite IH.
Qed.

Lemma length_enumerate_from {A : Type} (l : list A) (n : nat) :
  length (enumerate_from n l) = length l.
Proof.
  revert n. induction l as [|x xs IH]; intro n; simpl; [reflexivity|].
  now rewrite IH.
Qed.

(** Row [i] of the frame of centroids is centre [i]. *)
Lemma loc_coord_centroid_frame (centers : list coord) (i : nat) :
  (i < length centers)%nat ->
  loc_coord (centroid_frame centers) i = nth i centers (0, 0).
Proof.
  intro Hi. unfold loc_coord, loc, centroid_frame.
  pose proof (find_enumerate_from (centroid_row (0, 0)) (map centroid_row centers) 0 i)
    as E.
  rewrite length_map in E. specialize (E Hi). simpl in E. rewrite E.
  simpl. rewrite (map_nth centroid_row). simpl.
  now destruct (nth i centers (0, 0)).
Qed.

Lemma centroid_frame_coords (centers : list coord) :
  map (loc_coord (centroid_frame centers)) (seq 0 (length centers)) = centers.
Proof.
  apply (nth_ext _ _ (0, 0) (0, 0)).
  - now rewrite length_map, length_seq.
  - intros i Hi. rewrite length_map, length_seq in Hi.
    rewrite (nth_indep _ _ (loc_coord (centroid_frame centers) 0))
      by now rewrite length_map, length_seq.
    rewrite (map_nth (loc_coord (centroid_frame centers))).
    rewrite seq_nth by exact Hi. simpl.
    now apply loc_coord_centroid_frame.
Qed.

(** The mean of one number is that number. *)
Lemma cluster_center_singleton (records : frame) (idx : nat) :
  coord_eq (cluster_center records [idx]) (loc_coord records idx).
Proof.
  unfold cluster_center, Qmean, Qsum, coord_eq. simpl. split; field.
Qed.

Section Separated.

Variable haversine : coord -> coord -> Q.
Variable records : frame.
Variable threshold : Q.

Lemma scan_far (center : coord) (indices : list nat) :
  Forall (fun idx => threshold < haversine center (loc_coord records idx)) indices ->
  scan haversine records threshold center indices = [].
Proof.
  unfold scan, near. induction 1 as [|i l Hi _ IH]; simpl; [reflexivity|].
  apply Qle_bool_false in Hi. now rewrite Hi.
Qed.

(** On separated rows every label ends up in a cluster of its own. *)
Lemma cluster_loop_separated (indices : list nat) :
  separated_rows haversine records threshold indices ->
  forall fuel clusters,
    (length indices <= fuel)%nat ->
    cluster_loop haversine records threshold fuel indices clusters
    = Some (clusters ++ map (fun idx => [idx]) indices).
Proof.
  unfold separated_rows.
  induction indices as [|current_idx rest IH]; intros Hsep fuel clusters Hfuel.
  - destruct fuel; simpl; now rewrite app_nil_r.
  - simpl in Hsep. apply Forall_app in Hsep as [Hcur Hrest].
    apply (proj1 (Forall_map _ _ _)) in Hcur. simpl in Hcur.
    destruct fuel as [|fuel]; [simpl in Hfuel; lia|].
    simpl. rewrite (scan_far _ _ Hcur). simpl.
    rewrite IH by (try exact Hrest; simpl in Hfuel; lia).
    now rewrite <- app_assoc.
Qed.

End Separated.

(** Separation can be checked by computation. *)
Lemma separated_by_computation
  (haversine : coord -> coord -> Q) (threshold : Q) (l : list (coord * coord)) :
  forallb (fun p => negb (Qle_bool (haversine (fst p) (snd p)) threshold)) l = true ->
  Forall (fun p => threshold < haversine (fst p) (snd p)) l.
Proof.
  intro H. apply Forall_forall. intros p Hin.
  apply (proj1 (forallb_forall _ _) H) in Hin.
  apply negb_true_iff in Hin. now apply Qle_bool_false.
Qed.

(** C9, as amended.  When the centroids that the clusterer produced are
    farther than the merge threshold from one another (each one from every
    centroid produced before it), clustering them again with the same
    threshold gives each centroid a cluster of its own, and the centroids
    come out again unchanged. *)
Theorem reclustering_separated_centroids
  (haversine : coord -> coord -> Q) (records : frame) (threshold : Q) :
  let centers := cluster_centers haversine records threshold in
  Forall (fun p => threshold < haversine (fst p) (snd p)) (pairs centers) ->
  cluster_records haversine (centroid_frame centers) threshold
  = map (fun idx => [idx]) (seq 0 (length centers))
  /\ Forall2 coord_eq
       (cluster_centers haversine (centroid_frame centers) threshold) centers.
Proof.
  intros centers Hsep.
  assert (Hrows : separated_rows haversine (centroid_frame centers) threshold
                    (seq 0 (length centers))).
  { unfold separated_rows.
    rewrite <- (centroid_frame_coords centers), pairs_map in Hsep.
    apply (proj1 (Forall_map _ _ _)) in Hsep. exact Hsep. }
  assert (Hrun : cluster_records haversine (centroid_frame centers) threshold
                 = map (fun idx => [idx]) (seq 0 (length centers))).
  { unfold cluster_records, index_tolist, centroid_frame.
    rewrite index_tolist_enumerate_from, length_enumerate_from, !length_map.
    fold (centroid_frame centers).
    rewrite (cluster_loop_separated haversine (centroid_frame centers) threshold
               _ Hrows) by now rewrite length_seq.
    reflexivity. }
  split; [exact Hrun|].
  unfold cluster_centers at 1. rewrite Hrun, map_map.
  assert (G : forall l,
             Forall2 coord_eq
               (map (fun idx => cluster_center (centroid_frame centers) [idx]) l)
               (map (loc_coord (centroid_frame centers)) l)).
  { induction l as [|i l IH]; simpl; constructor.
    - apply cluster_center_singleton.
    - exact IH. }
  specialize (G (seq 0 (length centers))).
  now rewrite centroid_frame_coords in G.
Qed.

Lemma reclustering_separated_centroids_witness :
  cluster_records flat_distance
    (centroid_frame (cluster_centers flat_distance scattered 50)) 50
  = [[0%nat]; [1%nat]; [2%nat]].
Proof.
  apply (reclustering_separated_centroids flat_distance scattered 50).
  apply separated_by_computation. vm_compute. reflexivity.
Defined.

(** C9 as stated fails.  The sightings of [triangle] give two clusters, the
    first place alone and the two others together; the centroid of the
    second cluster is 47 m from the first place, so clustering the two
    centroids again with the same 50 m merges them into one. *)
Lemma reclustering_merges_centroids :
  length (cluster_centers flat_distance triangle 50) = 2%nat
  /\ length (cluster_centers flat_distance
               (centroid_frame (cluster_centers flat_distance triangle 50)) 50)
     = 1%nat
  /\ ~ Forall2 coord_eq
         (cluster_centers flat_distance
            (centroid_frame (cluster_centers flat_distance triangle 50)) 50)
         (cluster_centers flat_distance triangle 50).
Proof.
  assert (A : length (cluster_centers flat_distance triangle 50) = 2%nat)
    by (vm_compute; reflexivity).
  assert (B : length (cluster_centers flat_distance
                        (centroid_frame (cluster_centers flat_distance triangle 50)) 50)
              = 1%nat)
    by (vm_compute; reflexivity).
  split; [exact A|]. split; [exact B|].
  intro F. apply Forall2_length in F. rewrite A, B in F. discriminate.
Qed.

(** * Further properties *)

(** ** The largest pairwise distance *)

Lemma fold_Qmax_spec (ds : list Q) (m0 : Q) :
  m0 <= fold_left Qmax ds m0
  /\ (forall d, In d ds -> d <= fold_left Qmax ds m0)
  /\ (fold_left Qmax ds m0 = m0 \/ In (fold_left Qmax ds m0) ds).
Proof.
  revert m0. induction ds as [|d ds IH]; intro m0; simpl.
  - split; [apply Qle_refl|]. split; [intros d []|now left].
  - destruct (IH (Qmax m0 d)) as [Hinit [Hall Hatt]].
    split; [|split].
    + eapply Qle_trans; [apply Q.le_max_l|exact Hinit].
    + intros x [<-|Hx].
      * eapply Qle_trans; [apply Q.le_max_r|exact Hinit].
      * now apply Hall.
    + destruct Hatt as [Hatt|Hatt]; [|now right; right].
      rewrite Hatt. unfold Qmax, GenericMinMax.gmax.
      destruct (m0 ?= d); auto.
Qed.

(** The pairs that the double loop visits are the pairs of positions
    [i < j]. *)
Lemma In_pairs_nth {A : Type} (d : A) (l : list A) :
  forall i j, (i < j < length l)%nat -> In (nth i l d, nth j l d) (pairs l).
Proof.
  induction l as [|x xs IH]; intros i j [Hij Hj]; simpl in *; [lia|].
  apply in_or_app. destruct i as [|i].
  - left. destruct j as [|j]; [lia|].
    apply in_map. apply nth_In. lia.
  - right. destruct j as [|j]; [lia|]. apply IH. lia.
Qed.

Lemma pairs_In_nth {A : Type} (d : A) (l : list A) (p : A * A) :
  In p (pairs l) ->
  exists i j, (i < j < length l)%nat /\ p = (nth i l d, nth j l d).
Proof.
  induction l as [|x xs IH]; simpl; [intros []|].
  intro H. apply in_app_or in H as [H|H].
  - apply in_map_iff in H as [y [<- Hy]].
    destruct (In_nth _ _ d Hy) as [j [Hj <-]].
    exists 0%nat, (S j). split; [lia|reflexivity].
  - destruct (IH H) as [i [j [Hij ->]]].
    exists (S i), (S j). split; [lia|reflexivity].
Qed.

Lemma max_step_fold (haversine : coord -> coord -> Q)
  (ps : list (coord * coord)) (m : Q) :
  fold_left (Flagged.max_step haversine) ps m
  = fold_left Qmax (map (fun p => haversine (fst p) (snd p)) ps) m.
Proof.
  revert m. induction ps as [|p ps IH]; intro m; simpl; [reflexivity|].
  unfold Flagged.max_step at 2. now rewrite running_max_is_Qmax, IH.
Qed.

(** X1.  [compute_max_distance] returns the largest great-circle distance
    between two rows that have coordinates: it is at least the distance of
    every two such rows, it is never negative, and it is 0 or the distance
    of two of the rows. *)
Theorem compute_max_distance_is_maximum
  (haversine : coord -> coord -> Q) (df : list Flagged.row) :
  let coords := Flagged.coords_values df in
  let m := Flagged.compute_max_distance haversine df in
  0 <= m
  /\ (forall i j, (i < j < length coords)%nat ->
        haversine (nth i coords (0, 0)) (nth j coords (0, 0)) <= m)
  /\ (m = 0
      \/ exists i j, (i < j < length coords)%nat
           /\ m = haversine (nth i coords (0, 0)) (nth j coords (0, 0))).
Proof.
  intros coords m. unfold m, Flagged.compute_max_distance. fold coords.
  destruct (length coords <? 2)%nat eqn:E.
  - apply Nat.ltb_lt in E.
    split; [apply Qle_refl|]. split; [intros i j H; lia|now left].
  - rewrite max_step_fold.
    destruct (fold_Qmax_spec (map (fun p => haversine (fst p) (snd p)) (pairs coords)) 0)
      as [Hinit [Hall Hatt]].
    split; [exact Hinit|]. split.
    + intros i j Hij. apply Hall.
      apply (in_map (fun p => haversine (fst p) (snd p)) _ _
               (In_pairs_nth (0, 0) coords i j Hij)).
    + destruct Hatt as [Hatt|Hatt]; [now left|right].
      apply in_map_iff in Hatt as [p [Hp Hin]].
      destruct (pairs_In_nth (0, 0) coords p Hin) as [i [j [Hij ->]]].
      exists i, j. split; [exact Hij|]. now rewrite <- Hp.
Qed.

Lemma compute_max_distance_is_maximum_witness :
  flat_distance (1 # 1000, 1 # 1000) (1 # 1000, 6 # 1000)
  <= Flagged.compute_max_distance flat_distance both_parseable.
Proof.
  destruct (compute_max_distance_is_maximum flat_distance both_parseable)
    as [_ [H _]].
  apply (H 0%nat 1%nat). vm_compute. split; reflexivity.
Defined.

(** With two coordinates or more, the running maximum of the classifier is
    the distance of two of them, and no two are farther apart. *)
Lemma ap_max_dist_is_maximum (haversine : coord -> coord -> Q)
  (coords : list coord) (m : Q) :
  ap_max_dist haversine coords = Some m ->
  (forall i j, (i < j < length coords)%nat ->
     haversine (nth i coords (0, 0)) (nth j coords (0, 0)) <= m)
  /\ exists i j, (i < j < length coords)%nat
       /\ m = haversine (nth i coords (0, 0)) (nth j coords (0, 0)).
Proof.
  destruct (Nat.lt_ge_cases (length coords) 2) as [Hshort|Hlong].
  - rewrite ap_max_dist_short by lia. discriminate.
  - rewrite ap_max_dist_spread by lia.
    intro H. injection H as <-.
    unfold spec_max_spread.
    pose proof (pairs_nonempty coords ltac:(lia)) as Hne.
    destruct (pairs coords) as [|p ps] eqn:P; [congruence|]. simpl.
    destruct (fold_Qmax_spec (map (fun p => haversine (fst p) (snd p)) ps)
                (haversine (fst p) (snd p)))
      as [Hinit [Hall Hatt]].
    split.
    + intros i j Hij.
      pose proof (@In_pairs_nth coord (0, 0) coords i j Hij) as Hin.
      rewrite P in Hin. destruct Hin as [E|Hin]; [rewrite E in *; exact Hinit|].
      apply Hall.
      apply (in_map (fun p => haversine (fst p) (snd p)) _ _ Hin).
    + assert (Hin : exists q, In q (p :: ps)
                /\ fold_left Qmax (map (fun p => haversine (fst p) (snd p)) ps)
                     (haversine (fst p) (snd p))
                   = haversine (fst q) (snd q)).
      { destruct Hatt as [Hatt|Hatt].
        - exists p. split; [now left|exact Hatt].
        - apply in_map_iff in Hatt as [q [Hq Hin]].
          exists q. split; [now right|now rewrite Hq]. }
      destruct Hin as [q [Hin Hq]]. rewrite <- P in Hin.
      destruct (@pairs_In_nth coord (0, 0) coords q Hin) as [i [j [Hij ->]]].
      exists i, j. split; [exact Hij|exact Hq].
Qed.

(** The loop of the classifier leaves a value in [max_dist] as soon as it
    runs. *)
Lemma classify_loop_some (haversine : coord -> coord -> Q)
  (ps : list (nan_coord * nan_coord)) (m : nanq) :
  exists m', fold_left (classify_step haversine) ps (Some m) = Some m'.
Proof.
  revert m. induction ps as [|p ps IH]; intro m; cbn [fold_left].
  - now exists m.
  - unfold classify_step at 2.
    destruct (nan_gtb (haversine_nan haversine (fst p) (snd p)) m); apply IH.
Qed.

Lemma classify_loop_runs (haversine : coord -> coord -> Q)
  (ps : list (nan_coord * nan_coord)) :
  ps <> [] -> exists m, fold_left (classify_step haversine) ps None = Some m.
Proof.
  destruct ps as [|p ps]; [congruence|]. intros _. cbn [fold_left].
  change (classify_step haversine None p)
    with (Some (haversine_nan haversine (fst p) (snd p))).
  apply classify_loop_some.
Qed.

(** X2.  In [AccessPointClassifier.classify], [max_dist] stays [None]
    exactly for groups of fewer than two detections.  When the first two
    detections of the group have coordinates, [max_dist] is a number: it is
    the distance of two detections of the group that have coordinates, and
    no two such detections are farther apart.  When the first or the second
    detection has no coordinates, [max_dist] is [NaN] and the label is
    unknown, whatever the other detections are. *)
Theorem classifier_max_dist_is_maximum
  (haversine : coord -> coord -> Q) (key_mac key_ssid : string)
  (records : list csv_row) :
  let coords := valid_coords (coords_of_csv records) in
  let r := ap_classify_rows haversine key_mac key_ssid records in
  (cl_max_dist r = None <-> (length records < 2)%nat)
  /\ (forall first second rest,
        records = first :: second :: rest ->
        has_coordinates first && has_coordinates second = true ->
        exists d, cl_max_dist r = Some (Some d)
          /\ (forall i j, (i < j < length coords)%nat ->
                haversine (nth i coords (0, 0)) (nth j coords (0, 0)) <= d)
          /\ exists i j, (i < j < length coords)%nat
               /\ d = haversine (nth i coords (0, 0)) (nth j coords (0, 0)))
  /\ (forall first second rest,
        records = first :: second :: rest ->
        has_coordinates first && has_coordinates second = false ->
        cl_max_dist r = Some None /\ cl_classification r = Unknown).
Proof.
  cbv zeta. rewrite cl_classification_of_max, cl_max_dist_eq.
  split; [|split].
  - unfold classify_max_dist. rewrite coords_of_csv_length.
    destruct (1 <? length records)%nat eqn:L.
    + apply Nat.ltb_lt in L. split; [|lia].
      destruct (classify_loop_runs haversine (pairs (coords_of_csv records)))
        as [m' ->]; [|discriminate].
      apply pairs_nonempty. rewrite coords_of_csv_length. lia.
    + apply Nat.ltb_ge in L. split; [lia|reflexivity].
  - intros first second rest -> Hboth.
    cbn [coords_of_csv map]. rewrite classify_max_dist_cases.
    unfold has_coordinates in Hboth.
    destruct (c_latitude first) as [la1|]; [|discriminate Hboth].
    destruct (c_longitude first) as [lo1|]; [|discriminate Hboth].
    destruct (c_latitude second) as [la2|]; [|discriminate Hboth].
    destruct (c_longitude second) as [lo2|]; [|discriminate Hboth].
    cbn [haversine_nan].
    set (coords := valid_coords
                     ((Some la1, Some lo1) :: (Some la2, Some lo2)
                      :: map (fun r => (c_latitude r, c_longitude r)) rest)).
    exists (spec_max_spread haversine coords). split; [reflexivity|].
    apply ap_max_dist_is_maximum. apply ap_max_dist_spread.
    unfold coords. simpl. lia.
  - intros first second rest -> Hmiss.
    assert (N : classify_max_dist haversine
                  (coords_of_csv (first :: second :: rest)) = Some None).
    { cbn [coords_of_csv map]. rewrite classify_max_dist_cases.
      unfold haversine_nan. unfold has_coordinates in Hmiss.
      destruct (c_latitude first), (c_longitude first),
               (c_latitude second), (c_longitude second);
        try reflexivity; discriminate Hmiss. }
    rewrite N. split; reflexivity.
Qed.

Lemma classifier_max_dist_is_maximum_witness :
  (exists d, cl_max_dist
               (ap_classify_rows flat_distance "aa:bb:cc:dd:ee:ff" "HomeRouter"
                  missing_last) = Some (Some d)
     /\ exists i j, (i < j < 2)%nat
          /\ d = flat_distance (nth i (valid_coords (coords_of_csv missing_last)) (0, 0))
                               (nth j (valid_coords (coords_of_csv missing_last)) (0, 0)))
  /\ cl_classification
       (ap_classify_rows flat_distance "aa:bb:cc:dd:ee:ff" "HomeRouter" missing_first)
     = Unknown.
Proof.
  split.
  - destruct (classifier_max_dist_is_maximum flat_distance
                "aa:bb:cc:dd:ee:ff" "HomeRouter" missing_last)
      as [_ [H _]].
    destruct (H (csv_at (Some (1 # 1000)) (Some (1 # 1000)) (Some 60%Z) (Some (-50)))
                (csv_at (Some (1 # 1000)) (Some (21 # 1000)) (Some 120%Z) (Some (-60)))
                [csv_at None None (Some 0%Z) (Some (-40))] eq_refl eq_refl)
      as [d [E [_ [i [j [Hij D]]]]]].
    exists d. split; [exact E|]. exists i, j. split; [exact Hij|exact D].
  - destruct (classifier_max_dist_is_maximum flat_distance
                "aa:bb:cc:dd:ee:ff" "HomeRouter" missing_first)
      as [_ [_ H]].
    apply (H (csv_at None None (Some 0%Z) (Some (-40)))
             (csv_at (Some (1 # 1000)) (Some (1 # 1000)) (Some 60%Z) (Some (-50)))
             [csv_at (Some (1 # 1000)) (Some (21 # 1000)) (Some 120%Z) (Some (-60))]);
      reflexivity.
Defined.

(** ** Groups that grow *)

Lemma subseq_In {A : Type} (l l' : list A) (x : A) :
  subseq l l' -> In x l -> In x l'.
Proof.
  induction 1 as [l'|y l l' _ IH|y l l' _ IH]; simpl; intro H.
  - contradiction.
  - destruct H as [->|H]; auto.
  - auto.
Qed.

Lemma subseq_pairs {A : Type} (l l' : list A) (p : A * A) :
  subseq l l' -> In p (pairs l) -> In p (pairs l').
Proof.
  induction 1 as [l'|x l l' Hs IH|y l l' _ IH]; simpl; intro H.
  - contradiction.
  - apply in_or_app. apply in_app_or in H as [H|H].
    + left. apply in_map_iff in H as [b [<- Hb]].
      apply in_map. eapply subseq_In; eassumption.
    + right. now apply IH.
  - apply in_or_app. right. now apply IH.
Qed.

Lemma subseq_map {A B : Type} (f : A -> B) (l l' : list A) :
  subseq l l' -> subseq (map f l) (map f l').
Proof.
  induction 1; simpl; constructor; assumption.
Qed.

Lemma subseq_length {A : Type} (l l' : list A) :
  subseq l l' -> (length l <= length l')%nat.
Proof.
  induction 1; simpl; lia.
Qed.

(** The script raises its flag exactly when a distance that is a number
    reaches 1000 m. *)
Lemma script_nan_flag (haversine : coord -> coord -> Q)
  (ps : list (nan_coord * nan_coord)) (st : bool * Q) :
  fst (fold_left (script_step_nan haversine) ps st)
  = fst st
    || existsb (fun p => nan_geb (haversine_nan haversine (fst p) (snd p)) (Some 1000))
               ps.
Proof.
  revert st. induction ps as [|p ps IH]; intro st; cbn [fold_left existsb].
  - now rewrite orb_false_r.
  - rewrite IH. destruct st as [flag m]. unfold script_step_nan at 1.
    cbn [fst]. rewrite orb_assoc. f_equal.
    destruct (nan_geb (haversine_nan haversine (fst p) (snd p)) (Some 1000)), flag;
      reflexivity.
Qed.

Lemma script_nan_cotraveler_iff (haversine : coord -> coord -> Q)
  (coords : list nan_coord) :
  fst (script_classify_nan haversine coords) = CoTraveler
  <-> exists p, In p (pairs coords)
        /\ nan_geb (haversine_nan haversine (fst p) (snd p)) (Some 1000) = true.
Proof.
  unfold script_classify_nan.
  destruct (length coords <? 2)%nat eqn:E.
  - apply Nat.ltb_lt in E. rewrite (pairs_length_lt_2 _ E). simpl.
    split; [discriminate|intros [p [[] _]]].
  - pose proof (script_nan_flag haversine (pairs coords) (false, 0)) as F.
    destruct (fold_left (script_step_nan haversine) (pairs coords) (false, 0))
      as [flag m].
    cbn [fst] in F. rewrite orb_false_l in F. cbn [fst]. rewrite F.
    split.
    + destruct (existsb _ _) eqn:X.
      * intros _. apply existsb_exists in X as [p [Hp Hge]]. now exists p.
      * destruct (Qle_bool m 300); discriminate.
    + intros [p [Hp Hge]].
      assert (X : existsb (fun p => nan_geb (haversine_nan haversine (fst p) (snd p))
                                            (Some 1000)) (pairs coords) = true)
        by (apply existsb_exists; now exists p).
      now rewrite X.
Qed.

(** On coordinates, the classifier labels a group co-traveler exactly when
    two of them are at least 1000 m apart. *)
Lemma ap_label_cotraveler_iff (haversine : coord -> coord -> Q)
  (coords : list coord) :
  match ap_max_dist haversine coords with
  | Some m => if Qeq_bool m 0 then Unknown else spec_label m
  | None => Unknown
  end = CoTraveler
  <-> exists p, In p (pairs coords) /\ 1000 <= haversine (fst p) (snd p).
Proof.
  destruct (Nat.lt_ge_cases (length coords) 2) as [Hshort|Hlong].
  - rewrite ap_max_dist_short by lia.
    rewrite (pairs_length_lt_2 coords) by lia.
    split; [discriminate|intros [p [[] _]]].
  - rewrite ap_max_dist_spread by lia.
    unfold spec_max_spread.
    pose proof (pairs_nonempty coords ltac:(lia)) as Hne.
    destruct (pairs coords) as [|q qs]; [congruence|]. simpl.
    set (ds := map (fun p => haversine (fst p) (snd p)) qs).
    set (d0 := haversine (fst q) (snd q)).
    pose proof (fold_Qmax_reaches 1000 ds d0) as R.
    split.
    + intro H.
      destruct (Qeq_bool (fold_left Qmax ds d0) 0); [discriminate|].
      unfold spec_label, Qgeb, COTRAVELER_DIST_THRESHOLD in H.
      destruct (Qle_bool 1000 (fold_left Qmax ds d0)) eqn:G.
      * symmetry in R. apply orb_true_iff in R as [R|R].
        -- exists q. split; [now left|now apply Qle_bool_iff].
        -- apply existsb_exists in R as [d [Hd Hle]].
           apply in_map_iff in Hd as [p [<- Hp]].
           exists p. split; [now right|now apply Qle_bool_iff].
      * destruct (Qle_bool (fold_left Qmax ds d0) STATIC_AP_DIST_THRESHOLD);
          discriminate.
    + intros [p [Hp Hle]].
      assert (G : Qle_bool 1000 (fold_left Qmax ds d0) = true).
      { rewrite R. apply orb_true_iff. destruct Hp as [<-|Hp].
        - left. now apply Qle_bool_iff.
        - right. apply existsb_exists. exists (haversine (fst p) (snd p)).
          split; [|now apply Qle_bool_iff].
          apply (in_map (fun p => haversine (fst p) (snd p)) _ _ Hp). }
      destruct (Qeq_bool (fold_left Qmax ds d0) 0) eqn:Z.
      * apply Qeq_bool_iff in Z. apply Qle_bool_iff in G.
        rewrite Z in G. exfalso. revert G. apply Qlt_not_le. reflexivity.
      * unfold spec_label, Qgeb, COTRAVELER_DIST_THRESHOLD. now rewrite G.
Qed.

Lemma subseq_Forall {A : Type} (P : A -> Prop) (l l' : list A) :
  subseq l l' -> Forall P l' -> Forall P l.
Proof.
  intros Hsub H. apply Forall_forall. intros x Hx.
  apply (proj1 (Forall_forall P l') H). eapply subseq_In; eassumption.
Qed.

(** X3.  Further sightings never clear a co-traveler: when a group is
    labelled co-traveler, so is every group that holds its detections, in
    their order, among others.  For the script this holds whatever cells are
    missing; for [AccessPointClassifier.classify] it holds when every
    detection of the larger group has coordinates. *)
Theorem cotraveler_label_persists
  (haversine : coord -> coord -> Q) (key_mac key_ssid : string)
  (records records' : list csv_row) :
  subseq records records' ->
  (sc_classification (script_classify_rows haversine key_mac key_ssid records)
   = CoTraveler ->
   sc_classification (script_classify_rows haversine key_mac key_ssid records')
   = CoTraveler)
  /\ (Forall (fun d => has_coordinates d = true) records' ->
      cl_classification (ap_classify_rows haversine key_mac key_ssid records)
      = CoTraveler ->
      cl_classification (ap_classify_rows haversine key_mac key_ssid records')
      = CoTraveler).
Proof.
  intro Hsub.
  assert (Hp : forall p, In p (pairs (coords_of_csv records)) ->
                         In p (pairs (coords_of_csv records'))).
  { intros p. apply subseq_pairs. now apply subseq_map. }
  split.
  - rewrite !sc_rows_classification_eq. intro H.
    apply script_nan_cotraveler_iff in H as [p [Hin Hge]].
    apply script_nan_cotraveler_iff. exists p. split; [now apply Hp|exact Hge].
  - intros Hvalid' H.
    pose proof (subseq_Forall _ _ _ Hsub Hvalid') as Hvalid.
    rewrite cl_classification_of_max in *.
    pose proof (coords_of_csv_complete records Hvalid) as E.
    pose proof (coords_of_csv_complete records' Hvalid') as E'.
    set (vc := valid_coords (coords_of_csv records)) in *.
    set (vc' := valid_coords (coords_of_csv records')) in *.
    rewrite E in H. rewrite E'. rewrite E, E' in Hp.
    rewrite classify_max_dist_complete in *.
    assert (L : forall cs,
               match option_map Some (ap_max_dist haversine cs) with
               | Some (Some m) => if Qeq_bool m 0 then Unknown else spec_label m
               | Some None => Unknown
               | None => Unknown
               end
               = match ap_max_dist haversine cs with
                 | Some m => if Qeq_bool m 0 then Unknown else spec_label m
                 | None => Unknown
                 end)
      by (intro cs; now destruct (ap_max_dist haversine cs)).
    rewrite L in *.
    apply ap_label_cotraveler_iff in H as [p [Hin Hle]].
    apply ap_label_cotraveler_iff.
    rewrite !pairs_map in Hp.
    specialize (Hp (with_coordinates (fst p), with_coordinates (snd p))).
    destruct (proj1 (in_map_iff _ _ _)
                (Hp (in_map (fun q => (with_coordinates (fst q),
                                       with_coordinates (snd q))) _ _ Hin)))
      as [p' [Ep Hin']].
    exists p'. split; [exact Hin'|].
    destruct p as [[a b] [c d]], p' as [[a' b'] [c' d']].
    unfold with_coordinates in Ep. simpl in Ep.
    injection Ep as -> -> -> ->. exact Hle.
Qed.

Lemma cotraveler_label_persists_witness :
  sc_classification
    (script_classify_rows flat_distance "aa:bb:cc:dd:ee:ff" "HomeRouter" missing_first)
  = CoTraveler
  /\ cl_classification
       (ap_classify_rows flat_distance "aa:bb:cc:dd:ee:ff" "HomeRouter"
          (map of_detection (detection_at (1 # 1000) (5 # 1000) None None :: far_apart)))
     = CoTraveler.
Proof.
  split.
  - apply (cotraveler_label_persists flat_distance "aa:bb:cc:dd:ee:ff" "HomeRouter"
             (tl missing_first) missing_first).
    + apply subseq_skip. repeat apply subseq_keep. apply subseq_nil.
    + vm_compute. reflexivity.
  - apply (cotraveler_label_persists flat_distance "aa:bb:cc:dd:ee:ff" "HomeRouter"
             (map of_detection far_apart)
             (map of_detection
                (detection_at (1 # 1000) (5 # 1000) None None :: far_apart))).
    + apply subseq_skip. repeat apply subseq_keep. apply subseq_nil.
    + repeat constructor.
    + vm_compute. reflexivity.
Defined.

(** ** More on the confidence score *)

Lemma Qdiv_le_compat_pos (a b c : Q) : 0 < c -> a <= b -> a / c <= b / c.
Proof.
  intros Hc H. unfold Qdiv. apply Qmult_le_compat_r; [exact H|].
  apply Qlt_le_weak, Qinv_lt_0_compat, Hc.
Qed.

(** X4.  The confidence never decreases when the detection count, the
    spread or the time range grows. *)
Theorem confidence_monotone (n n' : nat) (d d' t t' : Q) :
  (n <= n')%nat -> d <= d' -> t <= t' ->
  Flagged.confidence n d t <= Flagged.confidence n' d' t'.
Proof.
  intros Hn Hd Ht. unfold Flagged.confidence.
  assert (C : Flagged.count_factor n <= Flagged.count_factor n').
  { unfold Flagged.count_factor. apply Q.min_le_compat_r.
    apply Qdiv_le_compat_pos; [reflexivity|].
    rewrite <- Zle_Qle. lia. }
  assert (D : Flagged.distance_factor d <= Flagged.distance_factor d').
  { unfold Flagged.distance_factor.
    apply Q.min_le_compat_r, Q.max_le_compat_r.
    apply Qdiv_le_compat_pos; [reflexivity|]. lra. }
  assert (T : Flagged.time_factor t <= Flagged.time_factor t').
  { unfold Flagged.time_factor. apply Q.min_le_compat_r.
    apply Qdiv_le_compat_pos; [reflexivity|exact Ht]. }
  set (c := Flagged.count_factor n) in *.
  set (c' := Flagged.count_factor n') in *.
  set (a := Flagged.distance_factor d) in *.
  set (a' := Flagged.distance_factor d') in *.
  set (b := Flagged.time_factor t) in *.
  set (b' := Flagged.time_factor t') in *.
  lra.
Qed.

Lemma confidence_monotone_witness :
  Flagged.confidence 5 5150 6 <= Flagged.confidence 6 6000 7.
Proof.
  apply confidence_monotone; [lia|vm_compute; discriminate|vm_compute; discriminate].
Defined.

(** X5.  The confidence is 100 once there are 20 detections, 10 000 m of
    spread and 12 hours of time range, and it is at least 1.5 for every
    group that passes the 300 m gate, since such a group has a detection. *)
Theorem confidence_saturation_and_floor (n : nat) (d t : Q) :
  ((20 <= n)%nat -> 10000 <= d -> 12 <= t -> Flagged.confidence n d t == 100)
  /\ ((1 <= n)%nat -> 300 <= d -> 0 <= t -> 3 # 2 <= Flagged.confidence n d t).
Proof.
  split.
  - intros Hn Hd Ht. unfold Flagged.confidence.
    assert (C : Flagged.count_factor n == 1).
    { unfold Flagged.count_factor. apply Q.min_r.
      apply Qle_shift_div_l; [reflexivity|].
      change (1 * 20) with (inject_Z 20). rewrite <- Zle_Qle. lia. }
    assert (D : Flagged.distance_factor d == 1).
    { unfold Flagged.distance_factor.
      assert (H : 1 <= (d - 300) / 9700)
        by (apply Qle_shift_div_l; [reflexivity|lra]).
      rewrite Q.max_l by lra. now apply Q.min_r. }
    assert (T : Flagged.time_factor t == 1).
    { unfold Flagged.time_factor. apply Q.min_r.
      apply Qle_shift_div_l; [reflexivity|lra]. }
    rewrite C, D, T. reflexivity.
  - intros Hn Hd Ht. unfold Flagged.confidence.
    assert (C : 1 # 20 <= Flagged.count_factor n).
    { unfold Flagged.count_factor. apply Q.min_glb; [|discriminate].
      apply Qle_shift_div_l; [reflexivity|].
      apply Qle_trans with 1; [lra|].
      change 1 with (inject_Z 1). rewrite <- Zle_Qle. lia. }
    pose proof (distance_factor_range d) as [D _].
    pose proof (time_factor_range t Ht) as [T _].
    set (c := Flagged.count_factor n) in *.
    set (a := Flagged.distance_factor d) in *.
    set (b := Flagged.time_factor t) in *.
    lra.
Qed.

Lemma confidence_saturation_and_floor_witness :
  Flagged.confidence 25 12000 13 == 100 /\ 3 # 2 <= Flagged.confidence 1 300 0.
Proof.
  destruct (confidence_saturation_and_floor 25 12000 13) as [S _].
  destruct (confidence_saturation_and_floor 1 300 0) as [_ F].
  split.
  - apply S; [lia|vm_compute; discriminate|vm_compute; discriminate].
  - apply F; [lia|vm_compute; discriminate|vm_compute; discriminate].
Defined.

(** ** What a flagged record holds *)

Lemma round_half_even_lower (y : Q) (a : Z) :
  inject_Z a <= y -> (a <= Flagged.round_half_even y)%Z.
Proof.
  intro Ha.
  assert (Fa : (a <= Qfloor y)%Z).
  { rewrite <- (Qfloor_Z a). now apply Qfloor_resp_le. }
  unfold Flagged.round_half_even.
  destruct (Qle_bool (y - inject_Z (Qfloor y)) (1 # 2));
    [destruct (Qeq_bool (y - inject_Z (Qfloor y)) (1 # 2));
     [destruct (Z.even (Qfloor y))|]|]; lia.
Qed.

Lemma coords_values_length (df : list Flagged.row) :
  (length (Flagged.coords_values df) <= length df)%nat.
Proof.
  unfold Flagged.coords_values.
  induction df as [|r df IH]; simpl; [lia|].
  destruct (Flagged.r_latitude r), (Flagged.r_longitude r); simpl; lia.
Qed.

(** X6.  A MAC is flagged only on the evidence of at least two detections:
    every record counts two detections or more, has a first and a last seen
    with the first not after the last, and reports a spread of at least
    300 m, also after rounding. *)
Theorem flagged_record_evidence
  (haversine : coord -> coord -> Q) (df : list Flagged.row) (r : Flagged.flagged) :
  In r (Flagged.flagged_results haversine df) ->
  (2 <= Flagged.fl_detections r)%nat
  /\ 300 <= Flagged.fl_max_distance_m r
  /\ exists first_seen last_seen,
       Flagged.fl_first_seen r = Some first_seen
       /\ Flagged.fl_last_seen r = Some last_seen
       /\ (first_seen <= last_seen)%Z.
Proof.
  intro Hr. apply flagged_results_In in Hr as [key [_ Hr]].
  set (group := filter _ _) in Hr.
  apply analyse_group_fields in Hr as [Hd ->]. simpl.
  assert (Hlen : (2 <= length group)%nat).
  { pose proof (coords_values_length group) as L.
    unfold Flagged.compute_max_distance in Hd.
    destruct (length (Flagged.coords_values group) <? 2)%nat eqn:E.
    - exfalso. revert Hd. apply Qlt_not_le. reflexivity.
    - apply Nat.ltb_ge in E. lia. }
  split; [exact Hlen|]. split.
  - unfold Flagged.py_round.
    change (inject_Z (10 ^ Z.of_nat 1)) with 10.
    pose proof (round_half_even_lower
                  (Flagged.compute_max_distance haversine group * 10) 3000) as L.
    change (inject_Z 3000) with 3000 in L.
    specialize (L ltac:(lra)). rewrite Zle_Qle in L.
    change (inject_Z 3000) with 3000 in L.
    apply Qle_shift_div_l; [reflexivity|]. lra.
  - assert (Hall : Forall (fun d => Flagged.r_time_dt d <> None) group).
    { apply Forall_forall. intros d Hin. apply filter_In in Hin as [Hin _].
      now apply clean_all_parse in Hin. }
    unfold series_min, series_max.
    destruct (series_times (map Flagged.r_time_dt group)) as [|t ts] eqn:S.
    + exfalso. destruct group as [|d g]; [simpl in Hlen; lia|].
      apply Forall_inv in Hall. simpl in S.
      destruct (Flagged.r_time_dt d); [discriminate S|congruence].
    + exists (fold_left Z.min ts t), (fold_left Z.max ts t).
      split; [reflexivity|]. split; [reflexivity|].
      destruct (fold_min_spec ts t) as [_ Hmin].
      destruct (fold_max_spec ts t) as [_ Hmax].
      specialize (Hmin t (or_introl eq_refl)).
      specialize (Hmax t (or_introl eq_refl)). lia.
Qed.

Lemma flagged_record_evidence_witness :
  (2 <= Flagged.fl_detections
          (first_record (Flagged.flagged_results flat_distance two_ssids)))%nat.
Proof.
  apply (flagged_record_evidence flat_distance two_ssids).
  vm_compute. left. reflexivity.
Defined.

(** ** Grouping *)

Lemma flat_map_nil_groups {A K : Type} (ks : list K) :
  flat_map (fun _ : K => @nil A) ks = [].
Proof.
  induction ks; simpl; auto.
Qed.

Lemma flat_map_agree {A B : Type} (f g : A -> list B) (l : list A) :
  (forall x, In x l -> f x = g x) -> flat_map f l = flat_map g l.
Proof.
  induction l as [|a l IH]; simpl; intro H; [reflexivity|].
  rewrite (H a (or_introl eq_refl)), IH; [reflexivity|].
  intros x Hx. apply H. now right.
Qed.

(** Splitting a list by the distinct values of a key loses and repeats
    nothing among the items that have a key, and holds no item without one. *)
Lemma groups_partition_dropna {A K : Type} (key : A -> option K)
  (eqb : K -> K -> bool)
  (eqb_spec : forall a b, eqb a b = true <-> a = b) (ks : list K) :
  NoDup ks ->
  forall l : list A,
    (forall x k, In x l -> key x = Some k -> In k ks) ->
    Permutation
      (flat_map (fun k => filter (fun x => match key x with
                                           | Some k' => eqb k' k
                                           | None => false
                                           end) l) ks)
      (filter (fun x => Flagged.notna (key x)) l).
Proof.
  intros Hnd l. induction l as [|x l IH]; intro Hcov.
  - simpl. now rewrite flat_map_nil_groups.
  - set (test := fun k y => match key y with
                            | Some k' => eqb k' k
                            | None => false
                            end).
    assert (Hl : Permutation (flat_map (fun k => filter (test k) l) ks)
                             (filter (fun y => Flagged.notna (key y)) l))
      by (apply IH; intros y k Hy; apply Hcov; now right).
    set (F := fun k => filter (test k) (x :: l)).
    set (G := fun k => filter (test k) l).
    assert (HF : forall k, F k = if test k x then x :: G k else G k)
      by reflexivity.
    change (Permutation (flat_map F ks)
              (filter (fun y => Flagged.notna (key y)) (x :: l))).
    change (Permutation (flat_map G ks)
              (filter (fun y => Flagged.notna (key y)) l)) in Hl.
    cbn [filter].
    destruct (key x) as [kx|] eqn:Kx.
    + assert (Hx : In kx ks) by (apply (Hcov x kx); [now left|exact Kx]).
      cbn [Flagged.notna].
      apply Permutation_trans with (x :: flat_map G ks); [|now constructor].
      assert (Htest : forall k, test k x = eqb kx k)
        by (intro k; unfold test; now rewrite Kx).
      clear IH Hcov Hl.
      induction Hnd as [|k ks Hk Hnd IHk]; [contradiction|].
      cbn [flat_map]. rewrite HF, Htest. destruct (eqb kx k) eqn:E.
      * apply eqb_spec in E. simpl. constructor.
        apply Permutation_app_head.
        rewrite (flat_map_agree F G ks); [reflexivity|].
        intros k' Hk'. rewrite HF, Htest.
        destruct (eqb kx k') eqn:E'; [|reflexivity].
        apply eqb_spec in E'. exfalso. apply Hk. congruence.
      * destruct Hx as [Hx|Hx].
        -- exfalso. symmetry in Hx. apply eqb_spec in Hx. congruence.
        -- rewrite (IHk Hx). apply Permutation_sym, Permutation_middle.
    + cbn [Flagged.notna].
      rewrite (flat_map_agree F G ks); [exact Hl|].
      intros k _. rewrite HF. unfold test. now rewrite Kx.
Qed.

Lemma key_eqb_eq (a b : string * string) : key_eqb a b = true <-> a = b.
Proof.
  destruct a as [a1 a2], b as [b1 b2]. unfold key_eqb. simpl.
  rewrite andb_true_iff, !String.eqb_eq. split.
  - intros [-> ->]. reflexivity.
  - intro H. injection H as -> ->. split; reflexivity.
Qed.

Lemma insert_key_perm (x : string * string) (l : list (string * string)) :
  Permutation (insert_key x l) (x :: l).
Proof.
  induction l as [|y ys IH]; simpl; [reflexivity|].
  destruct (key_leb x y); [reflexivity|].
  rewrite IH. apply perm_swap.
Qed.

Lemma sorted_keys_perm (l : list (string * string)) :
  Permutation (sorted_keys l) (nodup key_dec l).
Proof.
  unfold sorted_keys.
  induction (nodup key_dec l) as [|x xs IH]; simpl; [reflexivity|].
  rewrite insert_key_perm. now constructor.
Qed.

Lemma sorted_keys_NoDup (l : list (string * string)) : NoDup (sorted_keys l).
Proof.
  eapply Permutation_NoDup; [symmetry; apply sorted_keys_perm|].
  apply NoDup_nodup.
Qed.

Lemma sorted_keys_In (l : list (string * string)) (x : string * string) :
  In x (sorted_keys l) <-> In x l.
Proof.
  rewrite <- (nodup_In key_dec l). split; intro H.
  - eapply Permutation_in; [apply sorted_keys_perm|exact H].
  - eapply Permutation_in; [symmetry; apply sorted_keys_perm|exact H].
Qed.

Lemma dropna_In {A : Type} (l : list (option A)) (x : A) :
  In x (Flagged.dropna l) <-> In (Some x) l.
Proof.
  unfold Flagged.dropna. rewrite in_flat_map. split.
  - intros [[y|] [Hy Hin]]; [|contradiction].
    destruct Hin as [->|[]]. exact Hy.
  - intro H. exists (Some x). split; [exact H|now left].
Qed.

Lemma ssid_filled_cases (r : csv_row) (s : string) :
  ssid_filled r = Some s
  <-> (c_ssid r = Some EmptyString /\ s = "unk"%string)
      \/ (c_ssid r = Some s /\ s <> EmptyString).
Proof.
  unfold ssid_filled. destruct (c_ssid r) as [t|].
  - destruct (String.eqb t "") eqn:E.
    + apply String.eqb_eq in E. subst t. split.
      * intro H. injection H as <-. now left.
      * intros [[_ ->]|[H Hne]]; [reflexivity|].
        injection H as <-. now contradiction Hne.
    + apply String.eqb_neq in E. split.
      * intro H. injection H as <-. now right.
      * intros [[H _]|[H _]]; [injection H as ->; now contradiction E|exact H].
  - split; [discriminate|]. intros [[H _]|[H _]]; discriminate.
Qed.

Lemma identity_key_cases (r : csv_row) (key : string * string) :
  identity_key r = Some key
  <-> c_mac r = Some (fst key)
      /\ ((c_ssid r = Some (snd key) /\ snd key <> EmptyString)
          \/ (c_ssid r = Some EmptyString /\ snd key = "unk"%string)).
Proof.
  destruct key as [m s]. unfold identity_key. simpl.
  pose proof (ssid_filled_cases r s) as C.
  destruct (c_mac r) as [m'|]; [|split; [discriminate|intros [H _]; discriminate]].
  destruct (ssid_filled r) as [s'|].
  - split.
    + intro H. injection H as -> ->. split; [reflexivity|].
      destruct (proj1 C eq_refl) as [[H1 H2]|[H1 H2]]; auto.
    + intros [Hm Hs]. injection Hm as ->.
      assert (E : Some s' = Some s)
        by (apply C; destruct Hs as [[H1 H2]|[H1 H2]]; auto).
      now injection E as ->.
  - split; [discriminate|].
    intros [_ Hs].
    assert (E : @None string = Some s)
      by (apply C; destruct Hs as [[H1 H2]|[H1 H2]]; auto).
    discriminate.
Qed.

Lemma in_group_spec (key : string * string) (r : csv_row) :
  in_group key r = true <-> identity_key r = Some key.
Proof.
  unfold in_group. destruct (identity_key r) as [k|].
  - rewrite key_eqb_eq. split; [now intros ->|now intro H; injection H].
  - split; discriminate.
Qed.

Lemma identity_key_present (r : csv_row) :
  Flagged.notna (identity_key r) = Flagged.notna (c_mac r) && Flagged.notna (c_ssid r).
Proof.
  unfold identity_key, ssid_filled.
  destruct (c_mac r), (c_ssid r); reflexivity.
Qed.

Lemma groupby_identity_perm (df : list csv_row) :
  Permutation (concat (map snd (groupby_identity df)))
    (filter (fun r => Flagged.notna (c_mac r) && Flagged.notna (c_ssid r)) df).
Proof.
  unfold groupby_identity. rewrite !map_map. simpl.
  rewrite <- flat_map_concat_map.
  rewrite (filter_ext _ (fun r => Flagged.notna (identity_key r)))
    by (intro r; symmetry; apply identity_key_present).
  apply (groups_partition_dropna identity_key key_eqb key_eqb_eq).
  - apply sorted_keys_NoDup.
  - intros x k Hx Hk. apply sorted_keys_In, dropna_In.
    rewrite <- Hk. now apply in_map.
Qed.

(** X8.  The identity grouping [groupby(["mac", "ssid_filled"])] puts every
    detection that has a MAC and an SSID into exactly one group, and a
    detection whose MAC or SSID cell is missing into none: [replace] leaves
    the missing value alone and [groupby] drops the row.  No group is empty
    and no key has an empty SSID: a group holds the detections of its MAC
    whose SSID is the key's, and the group of the key ["unk"] also holds
    those of that MAC whose SSID is the empty string. *)
Theorem groupby_identity_partition (df : list csv_row) :
  let groups := groupby_identity df in
  Permutation (concat (map snd groups))
    (filter (fun r => Flagged.notna (c_mac r) && Flagged.notna (c_ssid r)) df)
  /\ NoDup (map fst groups)
  /\ (forall r, c_mac r = None \/ c_ssid r = None ->
        forall key group, In (key, group) groups -> ~ In r group)
  /\ forall key group, In (key, group) groups ->
       group <> [] /\ snd key <> EmptyString
       /\ forall r, In r group <->
            In r df /\ c_mac r = Some (fst key)
            /\ (c_ssid r = Some (snd key)
                \/ (c_ssid r = Some EmptyString /\ snd key = "unk"%string)).
Proof.
  intro groups.
  assert (Hgroup : forall key group, In (key, group) groups ->
             In key (Flagged.dropna (map identity_key df))
             /\ forall r, In r group <-> In r df /\ identity_key r = Some key).
  { intros key group Hin. unfold groups, groupby_identity in Hin.
    apply in_map_iff in Hin as [k [Hk Hin]]. injection Hk as -> <-.
    split; [now apply sorted_keys_In|].
    intro r. rewrite filter_In, in_group_spec. reflexivity. }
  split; [apply groupby_identity_perm|]. split; [|split].
  - unfold groups, groupby_identity. rewrite !map_map. simpl.
    rewrite map_id. apply sorted_keys_NoDup.
  - intros r Hmiss key group Hin Hr.
    destruct (Hgroup key group Hin) as [_ Hmem].
    apply Hmem in Hr as [_ Hk]. apply identity_key_cases in Hk as [Hm Hs].
    destruct Hmiss as [Hmiss|Hmiss]; [congruence|].
    destruct Hs as [[Hs _]|[Hs _]]; congruence.
  - intros key group Hin.
    destruct (Hgroup key group Hin) as [Hkey Hmem].
    apply dropna_In, in_map_iff in Hkey as [r0 [Hr0 Hin0]].
    assert (Hks : snd key <> EmptyString).
    { apply identity_key_cases in Hr0 as [_ [[_ Hne]|[_ ->]]];
        [exact Hne|discriminate]. }
    split; [|split; [exact Hks|]].
    + intro Hnil. assert (H0 : In r0 group) by (apply Hmem; now split).
      rewrite Hnil in H0. contradiction.
    + intro r. rewrite Hmem, identity_key_cases. split.
      * intros [Hr [Hm [[Hs _]|Hs]]]; auto.
      * intros [Hr [Hm [Hs|Hs]]]; auto.
Qed.

Lemma groupby_identity_partition_witness :
  ~ In (hidden_sighting (2 # 1000) (2 # 1000))
       [named_sighting (1 # 1000) (1 # 1000); named_sighting (1 # 1000) (11 # 1000)].
Proof.
  destruct (groupby_identity_partition named_and_hidden) as [_ [_ [H _]]].
  apply (H (hidden_sighting (2 # 1000) (2 # 1000)) (or_intror eq_refl)
           ("aa:bb:cc:dd:ee:ff", "HomeRouter")%string).
  vm_compute. left. reflexivity.
Defined.

(** ** Distance bins *)

(** X9.  For every distance, the colour that [Map._get_dist_bin_color]
    returns is the one the script finds in [bin_colors] under the label of
    [get_bin_label]: the dictionary lookup never fails, and the label
    functions of the two modules agree. *)
Theorem bin_color_matches_label (max_dist : Q) :
  dict_getitem bin_colors (get_bin_label max_dist)
  = Some (_get_dist_bin_color max_dist)
  /\ _get_dist_bin_label max_dist = get_bin_label max_dist.
Proof.
  unfold get_bin_label, _get_dist_bin_color, _get_dist_bin_label.
  destruct (Qltb max_dist 5000); [split; reflexivity|].
  destruct (Qltb max_dist 10000); [split; reflexivity|].
  destruct (Qltb max_dist 15000); [split; reflexivity|].
  destruct (Qltb max_dist 20000); split; reflexivity.
Qed.

Lemma ap_coords_eq
  (haversine : coord -> coord -> Q) (key_mac key_ssid : string)
  (records : list detection) :
  ap_coords (ap_classify_group haversine key_mac key_ssid records)
  = coords_of records.
Proof.
  unfold ap_classify_group.
  destruct (ap_max_dist haversine (coords_of records)) as [m|]; [|reflexivity].
  destruct (truthy (Some m)); [|reflexivity].
  destruct (Qgeb m COTRAVELER_DIST_THRESHOLD); [reflexivity|].
  destruct (Qle_bool m STATIC_AP_DIST_THRESHOLD); reflexivity.
Qed.



(** ** Zoom level *)

Lemma fold_Qmin_spec (ds : list Q) (m0 : Q) :
  fold_left Qmin ds m0 <= m0
  /\ (forall d, In d ds -> fold_left Qmin ds m0 <= d)
  /\ (fold_left Qmin ds m0 = m0 \/ In (fold_left Qmin ds m0) ds).
Proof.
  revert m0. induction ds as [|d ds IH]; intro m0; simpl.
  - split; [apply Qle_refl|]. split; [intros d []|now left].
  - destruct (IH (Qmin m0 d)) as [Hinit [Hall Hatt]].
    split; [|split].
    + eapply Qle_trans; [exact Hinit|apply Q.le_min_l].
    + intros x [<-|Hx].
      * eapply Qle_trans; [exact Hinit|apply Q.le_min_r].
      * now apply Hall.
    + destruct Hatt as [Hatt|Hatt]; [|now right; right].
      rewrite Hatt. unfold Qmin, GenericMinMax.gmin.
      destruct (m0 ?= d); auto.
Qed.

Lemma column_max_spec (l : list Q) :
  l <> [] -> In (column_max l) l /\ forall x, In x l -> x <= column_max l.
Proof.
  destruct l as [|x xs]; [congruence|]. intros _. simpl.
  destruct (fold_Qmax_spec xs x) as [Hinit [Hall Hatt]]. split.
  - destruct Hatt as [->|Hatt]; auto.
  - intros y [<-|Hy]; auto.
Qed.

Lemma column_min_spec (l : list Q) :
  l <> [] -> In (column_min l) l /\ forall x, In x l -> column_min l <= x.
Proof.
  destruct l as [|x xs]; [congruence|]. intros _. simpl.
  destruct (fold_Qmin_spec xs x) as [Hinit [Hall Hatt]]. split.
  - destruct Hatt as [->|Hatt]; auto.
  - intros y [<-|Hy]; auto.
Qed.

(** A column that holds more values has a range at least as large. *)
Lemma column_range_grows (l l' : list Q) :
  l <> [] -> subseq l l' ->
  column_max l - column_min l <= column_max l' - column_min l'.
Proof.
  intros Hne Hsub.
  assert (Hne' : l' <> []).
  { destruct l as [|x xs]; [congruence|]. intro E. subst l'.
    apply subseq_length in Hsub. simpl in Hsub. lia. }
  destruct (column_max_spec l Hne) as [Hmax _].
  destruct (column_min_spec l Hne) as [Hmin _].
  destruct (column_max_spec l' Hne') as [_ Hmax'].
  destruct (column_min_spec l' Hne') as [_ Hmin'].
  pose proof (Hmax' _ (subseq_In _ _ _ Hsub Hmax)).
  pose proof (Hmin' _ (subseq_In _ _ _ Hsub Hmin)).
  lra.
Qed.

Lemma Qgtb_false (a b : Q) : Qgtb a b = false <-> a <= b.
Proof.
  unfold Qgtb. rewrite negb_false_iff. apply Qle_bool_iff.
Qed.

Lemma zoom_of_range_antitone (a b : Q) :
  a <= b -> (zoom_of_range b <= zoom_of_range a)%Z.
Proof.
  intro H. unfold zoom_of_range.
  destruct (Qgtb a 10) eqn:A1, (Qgtb a 5) eqn:A2, (Qgtb a 1) eqn:A3,
    (Qgtb a (1 # 2)) eqn:A4, (Qgtb b 10) eqn:B1, (Qgtb b 5) eqn:B2,
    (Qgtb b 1) eqn:B3, (Qgtb b (1 # 2)) eqn:B4;
    try lia; exfalso;
    repeat match goal with
           | G : Qgtb _ _ = true |- _ => apply Qgtb_spec in G
           | G : Qgtb _ _ = false |- _ => apply Qgtb_false in G
           end; lra.
Qed.

(** X11.  [Map.calculate_zoom_level] returns one of 5, 7, 9, 10, 11 and 13.
    From two rows on, further rows never make the map zoom in: a frame that
    holds the rows of another, among others, gets a zoom level that is not
    larger. *)
Theorem zoom_level_never_zooms_in (coordinates_df coordinates_df' : list coord) :
  In (calculate_zoom_level coordinates_df) [5; 7; 9; 10; 11; 13]%Z
  /\ ((2 <= length coordinates_df)%nat ->
      subseq coordinates_df coordinates_df' ->
      (calculate_zoom_level coordinates_df'
       <= calculate_zoom_level coordinates_df)%Z).
Proof.
  split.
  - unfold calculate_zoom_level, zoom_of_range, default_zoom.
    destruct (length coordinates_df <? 2)%nat; [simpl; tauto|].
    match goal with |- context [Qgtb ?r 10] => set (rng := r) end.
    destruct (Qgtb rng 10); [simpl; tauto|].
    destruct (Qgtb rng 5); [simpl; tauto|].
    destruct (Qgtb rng 1); [simpl; tauto|].
    destruct (Qgtb rng (1 # 2)); simpl; tauto.
  - intros Hlen Hsub.
    pose proof (subseq_length _ _ Hsub) as Hlen'.
    unfold calculate_zoom_level.
    destruct (length coordinates_df <? 2)%nat eqn:E;
      [apply Nat.ltb_lt in E; lia|].
    destruct (length coordinates_df' <? 2)%nat eqn:E';
      [apply Nat.ltb_lt in E'; lia|].
    apply zoom_of_range_antitone.
    assert (Hne : forall (f : coord -> Q), map f coordinates_df <> []).
    { intro f. destruct coordinates_df; [simpl in Hlen; lia|discriminate]. }
    apply Q.max_le_compat.
    + apply column_range_grows; [apply Hne|now apply subseq_map].
    + apply column_range_grows; [apply Hne|now apply subseq_map].
Qed.

Lemma zoom_level_never_zooms_in_witness :
  (calculate_zoom_level zoom_rows_more <= calculate_zoom_level zoom_rows)%Z.
Proof.
  apply (zoom_level_never_zooms_in zoom_rows zoom_rows_more).
  - simpl. lia.
  - repeat apply subseq_keep. apply subseq_nil.
Defined.

(** ** Validation and map centre *)

Lemma Qsum_bounds (lo hi : Q) (l : list Q) :
  Forall (fun x => lo <= x <= hi) l ->
  inject_Z (Z.of_nat (length l)) * lo <= Qsum l
  /\ Qsum l <= inject_Z (Z.of_nat (length l)) * hi.
Proof.
  induction 1 as [|x xs [Hlo Hhi] _ [IHlo IHhi]].
  - simpl. split; rewrite Qmult_0_l; apply Qle_refl.
  - rewrite Qsum_cons.
    replace (Z.of_nat (length (x :: xs))) with (Z.of_nat (length xs) + 1)%Z
      by (simpl length; lia).
    rewrite inject_Z_plus. change (inject_Z 1) with 1.
    set (n := inject_Z (Z.of_nat (length xs))) in *.
    split; lra.
Qed.

(** The mean of values within bounds is within the bounds. *)
Lemma Qmean_bounds (lo hi : Q) (l : list Q) :
  l <> [] -> Forall (fun x => lo <= x <= hi) l -> lo <= Qmean l <= hi.
Proof.
  intros Hne H. destruct (Qsum_bounds lo hi l H) as [Hlo Hhi].
  unfold Qmean.
  assert (Hn : 0 < inject_Z (Z.of_nat (length l))).
  { change 0 with (inject_Z 0). rewrite <- Zlt_Qlt.
    destruct l; [congruence|simpl length; lia]. }
  split.
  - apply Qle_shift_div_l; [exact Hn|]. now rewrite Qmult_comm.
  - apply Qle_shift_div_r; [exact Hn|]. now rewrite Qmult_comm.
Qed.

Lemma validate_keeps_valid (c : coord) :
  negb (invalid_lat c || invalid_lon c) = true
  <-> (-90 <= fst c <= 90) /\ (-180 <= snd c <= 180).
Proof.
  unfold invalid_lat, invalid_lon, Qltb.
  rewrite negb_true_iff, !orb_false_iff, !negb_false_iff, !Qle_bool_iff.
  tauto.
Qed.

Lemma filter_twice {A : Type} (p : A -> bool) (l : list A) :
  filter p (filter p l) = filter p l.
Proof.
  induction l as [|x l IH]; simpl; [reflexivity|].
  destruct (p x) eqn:E; simpl; [|exact IH].
  rewrite E. now f_equal.
Qed.


(** ** Data cleaning *)

Lemma subseq_refl {A : Type} (l : list A) : subseq l l.
Proof.
  induction l; constructor; assumption.
Qed.

Lemma subseq_filter {A : Type} (p : A -> bool) (l : list A) :
  subseq (filter p l) l.
Proof.
  induction l as [|x l IH]; simpl; [constructor|].
  destruct (p x); constructor; exact IH.
Qed.

Lemma subseq_trans {A : Type} (l1 l2 l3 : list A) :
  subseq l1 l2 -> subseq l2 l3 -> subseq l1 l3.
Proof.
  intros H12 H23. revert l1 H12.
  induction H23 as [l3|x l2 l3 _ IH|y l2 l3 _ IH]; intros l1 H12.
  - inversion H12. constructor.
  - inversion H12; subst.
    + constructor.
    + constructor. now apply IH.
    + apply subseq_skip. now apply IH.
  - apply subseq_skip. now apply IH.
Qed.

(** X13.  When [AccessPointClassifier.clean_data] returns, the frame holds
    rows of the input, in their order, and none with a latitude or a
    longitude of 0.  The date window applies only when both dates are given;
    then every row that is left has a timestamp inside the window (a row
    without timestamp is dropped) and the frame is not empty.  The run ends
    with [sys.exit(1)] exactly when both dates are given and no row with a
    non-zero position lies in the window. *)
Theorem clean_data_postconditions
  (start_dt end_dt : option Z) (df : list detection) :
  (forall out, clean_data start_dt end_dt df = Some out ->
     subseq out df
     /\ Forall (fun r => ~ latitude r == 0 /\ ~ longitude r == 0) out
     /\ forall s e, start_dt = Some s -> end_dt = Some e ->
          out <> []
          /\ Forall (fun r => exists t, time_dt r = Some t /\ (s <= t <= e)%Z) out)
  /\ (clean_data start_dt end_dt df = None <->
      exists s e, start_dt = Some s /\ end_dt = Some e
        /\ forall r, In r df -> nonzero_position r = true ->
             in_window s e r = false)
  /\ ((start_dt = None \/ end_dt = None) ->
      clean_data start_dt end_dt df = Some (filter nonzero_position df)).
Proof.
  assert (Hnz : forall l, Forall (fun r => ~ latitude r == 0 /\ ~ longitude r == 0)
                            (filter nonzero_position l)).
  { intro l. apply Forall_forall. intros r Hr.
    apply filter_In in Hr as [_ Hr]. unfold nonzero_position in Hr.
    apply andb_true_iff in Hr as [Hla Hlo].
    apply negb_true_iff in Hla, Hlo.
    split; now apply Qeq_bool_neq. }
  split; [|split].
  - intros out H. unfold clean_data in H.
    destruct start_dt as [s|], end_dt as [e|];
      try (injection H as <-;
           split; [apply subseq_filter|]; split; [apply Hnz|];
           intros s0 e0 Hs He; discriminate).
    destruct (filter (in_window s e) (filter nonzero_position df)) as [|r l] eqn:F;
      [discriminate H|].
    injection H as <-. rewrite <- F.
    split; [|split].
    + eapply subseq_trans; apply subseq_filter.
    + apply Forall_forall. intros x Hx.
      apply filter_In in Hx as [Hx _].
      exact (proj1 (Forall_forall _ _) (Hnz df) x Hx).
    + intros s0 e0 Hs He. injection Hs as <-. injection He as <-.
      split; [rewrite F; discriminate|].
      apply Forall_forall. intros x Hx.
      apply filter_In in Hx as [_ Hx]. unfold in_window in Hx.
      destruct (time_dt x) as [t|]; [|discriminate Hx].
      exists t. split; [reflexivity|].
      apply andb_true_iff in Hx as [H1 H2].
      apply Z.leb_le in H1, H2. lia.
  - unfold clean_data.
    destruct start_dt as [s|], end_dt as [e|];
      try (split; [discriminate|intros [s0 [e0 [Hs [He _]]]]; discriminate]).
    destruct (filter (in_window s e) (filter nonzero_position df)) as [|r l] eqn:F.
    + split; [|reflexivity]. intros _. exists s, e.
      split; [reflexivity|]. split; [reflexivity|].
      intros r Hr Hnzr. destruct (in_window s e r) eqn:W; [|reflexivity].
      assert (Hin : In r (filter (in_window s e) (filter nonzero_position df))).
      { apply filter_In. split; [|exact W]. apply filter_In. now split. }
      rewrite F in Hin. contradiction.
    + split; [discriminate|].
      intros [s0 [e0 [Hs [He Hall]]]]. injection Hs as <-. injection He as <-.
      assert (Hin : In r (filter (in_window s e) (filter nonzero_position df)))
        by (rewrite F; now left).
      apply filter_In in Hin as [Hin W]. apply filter_In in Hin as [Hin Hnzr].
      rewrite (Hall r Hin Hnzr) in W. discriminate W.
  - intros [->| ->]; unfold clean_data; [reflexivity|].
    destruct start_dt; reflexivity.
Qed.

Lemma clean_data_postconditions_witness :
  exists out,
    clean_data (Some 0%Z) (Some 100%Z) raw_rows = Some out
    /\ out <> []
    /\ Forall (fun r => exists t, time_dt r = Some t /\ (0 <= t <= 100)%Z) out.
Proof.
  destruct (clean_data_postconditions (Some 0%Z) (Some 100%Z) raw_rows) as [H _].
  exists [detection_at 1 6 (Some 20%Z) None; detection_at 2 6 (Some 30%Z) None].
  split; [vm_compute; reflexivity|].
  destruct (H [detection_at 1 6 (Some 20%Z) None; detection_at 2 6 (Some 30%Z) None])
    as [_ [_ W]].
  - vm_compute. reflexivity.
  - exact (W 0%Z 100%Z eq_refl eq_refl).
Defined.

(** ** More on the spatial clusterer *)

Lemma filter_all {A : Type} (p : A -> bool) (l : list A) :
  Forall (fun x => p x = true) l ->
  filter p l = l /\ filter (fun x => negb (p x)) l = [].
Proof.
  induction 1 as [|x l Hx _ [IH1 IH2]]; simpl; [split; reflexivity|].
  rewrite Hx. simpl. split; [now f_equal|exact IH2].
Qed.

Lemma filter_none {A : Type} (p : A -> bool) (l : list A) :
  filter p l = [] -> Forall (fun x => p x = false) l.
Proof.
  induction l as [|x l IH]; simpl; intro H; [constructor|].
  destruct (p x) eqn:E; [discriminate H|]. constructor; auto.
Qed.

Section ClustererMore.

Variable haversine : coord -> coord -> Q.
Variable records : frame.
Variable threshold : Q.

(** When every label of the worklist is within the threshold of the centre,
    the inner loop takes them all in its first pass. *)
Lemma rescan_loop_all_near (fuel : nat) (cluster indices : list nat) (center : coord) :
  (length indices < fuel)%nat ->
  Forall (fun idx => near haversine records threshold center idx = true) indices ->
  rescan_loop haversine records threshold fuel cluster indices center
  = Some (cluster ++ indices, []).
Proof.
  intros Hfuel Hall.
  destruct (filter_all _ _ Hall) as [Hin Hout].
  destruct fuel as [|fuel]; [lia|]. simpl.
  rewrite remove_all_scan. unfold scan. rewrite Hin, Hout.
  destruct indices as [|j js].
  - reflexivity.
  - destruct fuel as [|fuel]; [simpl in Hfuel; lia|].
    destruct (cluster ++ j :: js) as [|c cs] eqn:C.
    + destruct cluster; discriminate C.
    + simpl. now rewrite app_nil_r.
Qed.

(** The clusters of a run keep apart. *)
Lemma cluster_loop_apart (fuel : nat) :
  forall (indices : list nat) (clusters : list (list nat)),
    (length indices <= fuel)%nat ->
    exists out,
      cluster_loop haversine records threshold fuel indices clusters
      = Some (clusters ++ out)
      /\ Permutation (concat out) indices
      /\ clusters_apart haversine records threshold out.
Proof.
  induction fuel as [|fuel IH]; intros indices clusters Hfuel.
  - destruct indices as [|i l]; [|simpl in Hfuel; lia].
    exists []. simpl. rewrite app_nil_r. repeat split; constructor.
  - destruct indices as [|current_idx rest].
    + exists []. simpl. rewrite app_nil_r. repeat split; constructor.
    + simpl in Hfuel.
      destruct (rescan_loop_total haversine records threshold (S fuel)
                  [current_idx] rest (loc_coord records current_idx) ltac:(lia))
        as [cluster [indices' [R [_ [P [L [lc [Hlc F]]]]]]]].
      destruct (IH indices' (clusters ++ [cluster]) ltac:(lia))
        as [out [C [P' A]]].
      exists (cluster :: out).
      split; [|split].
      * change (cluster_loop haversine records threshold (S fuel)
                  (current_idx :: rest) clusters)
          with (match rescan_loop haversine records threshold (S fuel)
                        [current_idx] rest (loc_coord records current_idx) with
                | None => None
                | Some (cluster0, indices0) =>
                    cluster_loop haversine records threshold fuel indices0
                      (clusters ++ [cluster0])
                end).
        rewrite R, C, <- app_assoc. reflexivity.
      * simpl. rewrite P'. exact P.
      * simpl. split; [|exact A].
        exists lc. split.
        -- destruct Hlc as [[Hc Hcl]|Hc]; [right|left; exact Hc].
           exists current_idx. split; assumption.
        -- apply (Permutation_Forall (Permutation_sym P')).
           apply filter_none in F.
           eapply Forall_impl; [|exact F].
           intros idx Hidx. unfold near in Hidx. now apply Qle_bool_false.
Qed.

End ClustererMore.


(** X15.  When every detection lies within the merge threshold of the first
    one, [cluster_records] returns a single cluster that holds all labels in
    frame order; on the empty frame it returns no cluster. *)
Theorem single_cluster_when_all_near
  (haversine : coord -> coord -> Q) (threshold : Q)
  (seed : nat) (row : detection) (rest : frame) :
  let records := (seed, row) :: rest in
  Forall (fun idx => haversine (loc_coord records seed) (loc_coord records idx)
                     <= threshold)
         (index_tolist rest) ->
  cluster_records haversine records threshold = [index_tolist records]
  /\ cluster_records haversine [] threshold = [].
Proof.
  intros records Hall. split; [|reflexivity].
  unfold cluster_records.
  change (index_tolist records) with (seed :: index_tolist rest).
  change (length records) with (S (length rest)).
  change (cluster_loop haversine records threshold (S (length rest))
            (seed :: index_tolist rest) [])
    with (match rescan_loop haversine records threshold (S (length rest))
                  [seed] (index_tolist rest) (loc_coord records seed) with
          | None => None
          | Some (cluster0, indices0) =>
              cluster_loop haversine records threshold (length rest) indices0
                ([] ++ [cluster0])
          end).
  rewrite rescan_loop_all_near.
  - destruct (length rest); reflexivity.
  - unfold index_tolist. rewrite length_map. lia.
  - eapply Forall_impl; [|exact Hall].
    intros idx H. unfold near. now apply Qle_bool_iff.
Qed.

Lemma single_cluster_when_all_near_witness :
  cluster_records flat_distance huddle 50 = [[0%nat; 1%nat; 2%nat]].
Proof.
  apply (single_cluster_when_all_near flat_distance 50 0%nat
           (detection_at (100 # 100000) (100 # 100000) (Some 0%Z) (Some (-40)))
           [(1%nat, detection_at (110 # 100000) (110 # 100000) (Some 60%Z) (Some (-50)));
            (2%nat, detection_at (90 # 100000) (120 # 100000) (Some 120%Z) (Some (-60)))]).
  repeat (apply Forall_cons; [vm_compute; discriminate|]). apply Forall_nil.
Defined.

(** ** Cluster summaries *)

Lemma loc_found (records : frame) (idx : nat) :
  In idx (index_tolist records) -> exists r, loc records idx = Some r.
Proof.
  unfold loc, index_tolist.
  induction records as [|[i r] l IH]; simpl; [intros []|].
  intros [<-|H].
  - rewrite Nat.eqb_refl. now exists r.
  - destruct (i =? idx)%nat; [now exists r|]. now apply IH.
Qed.

Lemma loc_rows_coords (records : frame) (cluster : list nat) :
  (forall idx, In idx cluster -> In idx (index_tolist records)) ->
  map latitude (loc_rows records cluster)
  = map (fun idx => fst (loc_coord records idx)) cluster
  /\ map longitude (loc_rows records cluster)
     = map (fun idx => snd (loc_coord records idx)) cluster.
Proof.
  unfold loc_rows, loc_coord.
  induction cluster as [|i c IH]; intro H; simpl; [split; reflexivity|].
  destruct (loc_found records i (H i (or_introl eq_refl))) as [r Hr].
  rewrite Hr. simpl.
  destruct IH as [IH1 IH2]; [intros j Hj; apply H; now right|].
  rewrite IH1, IH2. split; reflexivity.
Qed.

Lemma series_min_le_max (times : list (option Z)) (a b : Z) :
  series_min times = Some a -> series_max times = Some b -> (a <= b)%Z.
Proof.
  unfold series_min, series_max.
  destruct (series_times times) as [|t ts]; [discriminate|].
  intros Ha Hb. injection Ha as <-. injection Hb as <-.
  destruct (fold_min_spec ts t) as [_ Hmin].
  destruct (fold_max_spec ts t) as [_ Hmax].
  specialize (Hmin t (or_introl eq_refl)).
  specialize (Hmax t (or_introl eq_refl)). lia.
Qed.

(** X16.  For every cluster of a run, the centre that [aggregate_cluster]
    reports is the centre on which the clusterer computes its distances: the
    two functions take the mean of the same latitudes and of the same
    longitudes, in the same order.  The first seen of the summary is not
    after its last seen. *)
Theorem aggregate_cluster_centre
  (haversine : coord -> coord -> Q) (records : frame) (threshold : Q)
  (cluster : list nat) :
  In cluster (cluster_records haversine records threshold) ->
  let summary := aggregate_cluster records cluster in
  let clust_data := loc_rows records cluster in
  map latitude clust_data = map (fun idx => fst (loc_coord records idx)) cluster
  /\ map longitude clust_data = map (fun idx => snd (loc_coord records idx)) cluster
  /\ cs_center summary = cluster_center records cluster
  /\ (forall a b, cs_first_seen summary = Some a -> cs_last_seen summary = Some b ->
        (a <= b)%Z).
Proof.
  intros Hin summary clust_data.
  assert (Hlabels : forall idx, In idx cluster -> In idx (index_tolist records)).
  { intros idx Hidx.
    eapply Permutation_in; [apply (concat_clusters_perm haversine records threshold)|].
    apply in_concat. exists cluster. split; assumption. }
  destruct (loc_rows_coords records cluster Hlabels) as [Hlat Hlon].
  split; [exact Hlat|]. split; [exact Hlon|]. split.
  - unfold summary, aggregate_cluster, cluster_center. simpl.
    now rewrite Hlat, Hlon.
  - unfold summary, aggregate_cluster. simpl. apply series_min_le_max.
Qed.

Lemma aggregate_cluster_centre_witness :
  cs_center (aggregate_cluster triangle [1%nat; 2%nat])
  = cluster_center triangle [1%nat; 2%nat].
Proof.
  apply (aggregate_cluster_centre flat_distance triangle 50 [1%nat; 2%nat]).
  vm_compute. right. left. reflexivity.
Defined.

(** ** Static aggregation and the script's label *)

Lemma aggregate_max_dist_fold (haversine : coord -> coord -> Q) (coords : list coord) :
  aggregate_max_dist haversine coords
  = fold_left Qmax (pair_distances haversine coords) 0.
Proof.
  unfold aggregate_max_dist, pair_distances.
  destruct (1 <? length coords)%nat eqn:E.
  - apply max_step_fold.
  - apply Nat.ltb_ge in E. rewrite pairs_length_lt_2 by lia. reflexivity.
Qed.

(** X17.  [static_aggregate.py] keeps a group exactly when no two of its
    detections are more than 200 m apart.  A group of one detection is
    always kept, although the script of [co_traveler_analysis.py] labels it
    unknown; a kept group of two or more detections is one that the script
    labels static. *)
Theorem static_aggregate_and_script_label
  (haversine : coord -> coord -> Q) (key_mac key_ssid : string)
  (group : list detection) :
  let coords := coords_of group in
  (aggregate_group haversine group = Some (static_aggregate_best group)
   <-> forall i j, (i < j < length coords)%nat ->
         haversine (nth i coords (0, 0)) (nth j coords (0, 0)) <= 200)
  /\ (aggregate_group haversine group = None
      <-> exists i j, (i < j < length coords)%nat
            /\ 200 < haversine (nth i coords (0, 0)) (nth j coords (0, 0)))
  /\ ((length group < 2)%nat ->
      aggregate_group haversine group = Some (static_aggregate_best group)
      /\ sc_classification (script_classify_group haversine key_mac key_ssid group)
         = Unknown)
  /\ ((2 <= length group)%nat ->
      aggregate_group haversine group = Some (static_aggregate_best group) ->
      sc_classification (script_classify_group haversine key_mac key_ssid group)
      = Static).
Proof.
  intro coords.
  assert (Hlen : length coords = length group) by apply length_map.
  unfold aggregate_group. fold coords. rewrite aggregate_max_dist_fold.
  unfold pair_distances.
  destruct (fold_Qmax_spec (map (fun p => haversine (fst p) (snd p)) (pairs coords)) 0)
    as [Hinit [Hall Hatt]].
  set (m := fold_left Qmax (map (fun p => haversine (fst p) (snd p)) (pairs coords)) 0)
    in *.
  assert (Hle : m <= 200 <->
                forall i j, (i < j < length coords)%nat ->
                  haversine (nth i coords (0, 0)) (nth j coords (0, 0)) <= 200).
  { split.
    - intros H i j Hij. eapply Qle_trans; [|exact H]. apply Hall.
      apply (in_map (fun p => haversine (fst p) (snd p)) _ _
               (@In_pairs_nth coord (0, 0) coords i j Hij)).
    - intro H. destruct Hatt as [Hatt|Hatt].
      + rewrite Hatt. discriminate.
      + apply in_map_iff in Hatt as [p [Hp Hin]].
        destruct (@pairs_In_nth coord (0, 0) coords p Hin) as [i [j [Hij ->]]].
        rewrite <- Hp. simpl. now apply H. }
  split; [|split; [|split]].
  - rewrite <- Hle. destruct (Qle_bool m 200) eqn:E.
    + apply Qle_bool_iff in E. tauto.
    + apply Qle_bool_false in E. split; [discriminate|].
      intro H. exfalso. apply (Qlt_not_le _ _ E H).
  - destruct (Qle_bool m 200) eqn:E.
    + apply Qle_bool_iff in E. split; [discriminate|].
      intros [i [j [Hij H]]]. exfalso.
      apply (Qlt_not_le _ _ H). now apply (proj1 Hle E).
    + apply Qle_bool_false in E. split; [|reflexivity]. intros _.
      destruct Hatt as [Hatt|Hatt].
      * rewrite Hatt in E. discriminate E.
      * apply in_map_iff in Hatt as [p [Hp Hin]].
        destruct (@pairs_In_nth coord (0, 0) coords p Hin) as [i [j [Hij ->]]].
        exists i, j. split; [exact Hij|]. simpl in Hp. now rewrite Hp.
  - intro Hshort. split.
    + assert (E : Qle_bool m 200 = true).
      { apply Qle_bool_iff, Hle. intros i j Hij. lia. }
      now rewrite E.
    + rewrite script_classification_eq. unfold script_classify_coords.
      fold coords.
      destruct (length coords <? 2)%nat eqn:E; [reflexivity|].
      apply Nat.ltb_ge in E. lia.
  - intros Hlong H.
    destruct (Qle_bool m 200) eqn:E; [|discriminate H].
    apply Qle_bool_iff in E.
    rewrite script_classification_eq, script_label_of_max by (fold coords; lia).
    simpl. fold coords. unfold pair_distances. fold m.
    unfold spec_label, Qgeb, COTRAVELER_DIST_THRESHOLD, STATIC_AP_DIST_THRESHOLD.
    assert (G : Qle_bool 1000 m = false) by (apply Qle_bool_false; lra).
    assert (S : Qle_bool m 300 = true) by (apply Qle_bool_iff; lra).
    now rewrite G, S.
Qed.

Lemma static_aggregate_and_script_label_witness :
  sc_classification
    (script_classify_group flat_distance "aa:bb:cc:dd:ee:ff" "HomeRouter" same_place)
  = Static
  /\ sc_classification
       (script_classify_group flat_distance "aa:bb:cc:dd:ee:ff" "HomeRouter"
          lone_sighting)
     = Unknown
  /\ aggregate_group flat_distance nearby_pair = None.
Proof.
  destruct (static_aggregate_and_script_label flat_distance
              "aa:bb:cc:dd:ee:ff" "HomeRouter" same_place) as [_ [_ [_ S]]].
  destruct (static_aggregate_and_script_label flat_distance
              "aa:bb:cc:dd:ee:ff" "HomeRouter" lone_sighting) as [_ [_ [U _]]].
  destruct (static_aggregate_and_script_label flat_distance
              "aa:bb:cc:dd:ee:ff" "HomeRouter" nearby_pair) as [_ [N _]].
  split; [|split].
  - apply S; [simpl; lia|vm_compute; reflexivity].
  - apply U. simpl. lia.
  - apply N. exists 0%nat, 1%nat. split; [simpl; lia|vm_compute; reflexivity].
Defined.

(** ** The builtin [min] and [max] on timestamps *)

Lemma builtin_fold_nat_stays (l : list (option Z)) :
  fold_left (fun cur item => if ts_ltb item cur then item else cur) l None = None
  /\ fold_left (fun cur item => if ts_ltb cur item then item else cur) l None = None.
Proof.
  induction l as [|x l [IH1 IH2]]; simpl; [split; reflexivity|].
  replace (ts_ltb x None) with false by (destruct x; reflexivity).
  split; assumption.
Qed.

Lemma builtin_fold_skips_nat (l : list (option Z)) (t : Z) :
  fold_left (fun cur item => if ts_ltb item cur then item else cur) l (Some t)
  = Some (fold_left Z.min (series_times l) t)
  /\ fold_left (fun cur item => if ts_ltb cur item then item else cur) l (Some t)
     = Some (fold_left Z.max (series_times l) t).
Proof.
  revert t. induction l as [|[x|] l IH]; intro t; simpl.
  - split; reflexivity.
  - destruct (IH (Z.min t x)) as [IH1 _]. destruct (IH (Z.max t x)) as [_ IH2].
    split.
    + destruct (x <? t)%Z eqn:E.
      * replace x with (Z.min t x) at 1 by (apply Z.ltb_lt in E; lia). exact IH1.
      * replace t with (Z.min t x) at 1 by (apply Z.ltb_ge in E; lia). exact IH1.
    + destruct (t <? x)%Z eqn:E.
      * replace x with (Z.max t x) at 1 by (apply Z.ltb_lt in E; lia). exact IH2.
      * replace t with (Z.max t x) at 1 by (apply Z.ltb_ge in E; lia). exact IH2.
  - apply IH.
Qed.

(** X18.  The script takes first and last seen with the builtin [min] and
    [max] over a list that may hold [NaT].  When the first detection of the
    group has a timestamp, they are the earliest and the latest of the
    timestamps that parse.  When the timestamp of the first detection did
    not parse, both come out as [NaT], whatever the other detections
    hold. *)
Theorem script_seen_depends_on_first_timestamp
  (haversine : coord -> coord -> Q) (key_mac key_ssid : string)
  (first : detection) (rest : list detection) :
  let records := first :: rest in
  let script := script_classify_group haversine key_mac key_ssid records in
  (time_dt first = None ->
   sc_first_seen script = Some None /\ sc_last_seen script = Some None)
  /\ (forall t, time_dt first = Some t ->
        exists a b,
          sc_first_seen script = Some (Some a)
          /\ sc_last_seen script = Some (Some b)
          /\ earliest_parseable (map time_dt records) (Some a)
          /\ latest_parseable (map time_dt records) (Some b)).
Proof.
  intros records script.
  assert (Hseen : sc_first_seen script = builtin_min (map time_dt records)
                  /\ sc_last_seen script = builtin_max (map time_dt records)).
  { unfold script, script_classify_group.
    destruct (script_classify_coords haversine (coords_of records)).
    split; reflexivity. }
  destruct Hseen as [-> ->]. unfold records. simpl map.
  split.
  - intros ->. unfold builtin_min, builtin_max.
    destruct (builtin_fold_nat_stays (map time_dt rest)) as [-> ->].
    split; reflexivity.
  - intros t Ht. rewrite Ht. unfold builtin_min, builtin_max.
    destruct (builtin_fold_skips_nat (map time_dt rest) t) as [-> ->].
    exists (fold_left Z.min (series_times (map time_dt rest)) t),
           (fold_left Z.max (series_times (map time_dt rest)) t).
    split; [reflexivity|]. split; [reflexivity|].
    pose proof (series_min_earliest (Some t :: map time_dt rest)) as Hmin.
    pose proof (series_max_latest (Some t :: map time_dt rest)) as Hmax.
    split; assumption.
Qed.

Lemma script_seen_depends_on_first_timestamp_witness :
  sc_first_seen
    (script_classify_group flat_distance "aa:bb:cc:dd:ee:ff" "HomeRouter"
       first_unparseable) = Some None
  /\ exists a b,
       sc_first_seen
         (script_classify_group flat_distance "aa:bb:cc:dd:ee:ff" "HomeRouter"
            far_apart) = Some (Some a)
       /\ sc_last_seen
            (script_classify_group flat_distance "aa:bb:cc:dd:ee:ff" "HomeRouter"
               far_apart) = Some (Some b)
       /\ earliest_parseable (map time_dt far_apart) (Some a)
       /\ latest_parseable (map time_dt far_apart) (Some b).
Proof.
  split.
  - apply (script_seen_depends_on_first_timestamp flat_distance
             "aa:bb:cc:dd:ee:ff" "HomeRouter"
             (detection_at (1 # 1000) (1 # 1000) None (Some (-40)))
             [detection_at (1 # 1000) (1 # 1000) (Some 60%Z) (Some (-50))]).
    reflexivity.
  - destruct (script_seen_depends_on_first_timestamp flat_distance
                "aa:bb:cc:dd:ee:ff" "HomeRouter"
                (detection_at (1 # 1000) (1 # 1000) (Some 0%Z) (Some (-40)))
                [detection_at (1 # 1000) (11 # 1000) (Some 60%Z) (Some (-50))])
      as [_ H].
    apply (H 0%Z). reflexivity.
Defined.

(** ** Nested lookup *)

Lemma split_dot_nonempty (s : string) : split_dot s <> [].
Proof.
  destruct s as [|c s]; simpl; [discriminate|].
  destruct (Ascii.eqb c "."); [discriminate|].
  destruct (split_dot s); discriminate.
Qed.

(** A key without dot is one path component. *)
Lemma split_dot_plain (key : string) :
  contains_char "." key = false -> split_dot key = [key].
Proof.
  induction key as [|c key IH]; simpl; [reflexivity|].
  intro H. apply orb_false_iff in H as [Hc Hrest].
  rewrite Hc, (IH Hrest). reflexivity.
Qed.

Lemma split_dot_append (key rest : string) :
  contains_char "." key = false ->
  split_dot (String.append key (String "." rest)) = key :: split_dot rest.
Proof.
  induction key as [|c key IH]; simpl; [reflexivity|].
  intro H. apply orb_false_iff in H as [Hc Hrest].
  rewrite Hc, (IH Hrest). reflexivity.
Qed.

(** Joining dot-free keys with dots and splitting again gives the keys. *)
Lemma split_dot_join (path : list string) :
  path <> [] ->
  Forall (fun key => contains_char "." key = false) path ->
  split_dot (String.concat "." path) = path.
Proof.
  intros Hne Hall. induction Hall as [|key path Hkey Hall IH]; [congruence|].
  destruct path as [|key' path].
  - simpl. now apply split_dot_plain.
  - change (String.concat "." (key :: key' :: path))
      with (String.append key (String "." (String.concat "." (key' :: path)))).
    rewrite split_dot_append by exact Hkey.
    rewrite IH by discriminate. reflexivity.
Qed.

Lemma split_dot_dotted (key : string) :
  contains_char "." key = true ->
  exists first second rest, split_dot key = first :: second :: rest.
Proof.
  induction key as [|c key IH]; simpl; [discriminate|].
  destruct (Ascii.eqb c ".") eqn:E; simpl.
  - intros _. pose proof (split_dot_nonempty key) as Hne.
    destruct (split_dot key) as [|h t]; [congruence|].
    now exists EmptyString, h, t.
  - intro H. destruct (IH H) as [first [second [rest ->]]].
    now exists (String c first), second, rest.
Qed.

Lemma dict_getitem_single {V : Type} (key : string) (value : V) :
  dict_getitem [(key, value)] key = Some value.
Proof.
  unfold dict_getitem. simpl. now rewrite String.eqb_refl.
Qed.

Lemma dict_getitem_In {V : Type} (d : list (string * V)) (key : string) (value : V) :
  dict_getitem d key = Some value -> In (key, value) d.
Proof.
  unfold dict_getitem.
  destruct (find (fun kv => String.eqb (fst kv) key) d) as [[k v]|] eqn:F;
    [|discriminate].
  simpl. intro H. injection H as <-.
  apply find_some in F as [Hin Hk]. simpl in Hk.
  apply String.eqb_eq in Hk. now subst k.
Qed.

Lemma get_nested_keys_nested (path : list string) (value default : pyobj) :
  get_nested_keys (nested_dict path value) path default = value.
Proof.
  induction path as [|key path IH]; simpl; [reflexivity|].
  now rewrite dict_getitem_single.
Qed.

(** X19.  [get_nested] finds a value stored under nested keys: for a path
    of keys that contain no dot, looking up the keys joined by dots in the
    dictionary nested along the path returns the stored value, not the
    default. *)
Theorem get_nested_finds_nested_value
  (path : list string) (value default : pyobj) :
  path <> [] ->
  Forall (fun key => contains_char "." key = false) path ->
  get_nested (nested_dict path value) (String.concat "." path) default = value.
Proof.
  intros Hne Hall. unfold get_nested.
  rewrite split_dot_join by assumption.
  apply get_nested_keys_nested.
Qed.

Lemma get_nested_finds_nested_value_witness :
  get_nested (nested_dict ["a"; "b"]%string (PyValue "v")) "a.b" (PyValue "")
  = PyValue "v".
Proof.
  apply (get_nested_finds_nested_value ["a"; "b"]%string (PyValue "v") (PyValue "")).
  - discriminate.
  - repeat constructor.
Defined.

(** X20.  [get_nested] cannot read a key that contains a dot from a flat
    dictionary: the key is cut at its dots, so the lookup returns the
    default even when the dictionary holds the key, as the entries of a
    Kismet file do. *)
Theorem get_nested_misses_dotted_key
  (items : list (string * pyobj)) (dotted_key : string) (default : pyobj) :
  contains_char "." dotted_key = true ->
  (forall key value, In (key, value) items -> exists repr, value = PyValue repr) ->
  get_nested (PyDict items) dotted_key default = default.
Proof.
  intros Hdot Hflat. unfold get_nested.
  destruct (split_dot_dotted dotted_key Hdot) as [first [second [rest ->]]].
  simpl.
  destruct (dict_getitem items first) as [value|] eqn:G; [|reflexivity].
  apply dict_getitem_In in G.
  destruct (Hflat first value G) as [repr ->]. reflexivity.
Qed.

Lemma get_nested_misses_dotted_key_witness :
  dict_getitem kismet_entry "kismet.device.base.type" = Some (PyValue "Wi-Fi AP")
  /\ get_nested (PyDict kismet_entry) "kismet.device.base.type" (PyValue "")
     = PyValue "".
Proof.
  split; [reflexivity|].
  apply (get_nested_misses_dotted_key kismet_entry "kismet.device.base.type"
           (PyValue "")).
  - reflexivity.
  - intros key value [H|[H|[]]]; injection H as _ <-; eexists; reflexivity.
Defined.

(** Every confidence that the analysis writes out for a MAC seen under two
    SSIDs is a percentage. *)
Lemma flagged_confidence_range_witness :
  0 <= Flagged.fl_confidence
         (first_record (Flagged.flagged_results flat_distance two_ssids)) <= 100.
Proof.
  apply (flagged_confidence_range flat_distance two_ssids).
  vm_compute. left. reflexivity.
Defined.

(** ** The whole classification pass *)

(** X21.  [AccessPointClassifier.classify] writes one result per identity
    (MAC and filled SSID) and no two results share an identity.  A detection
    that has a MAC and an SSID is counted once: its coordinates are in the
    result of its identity, and the coordinate lists of the results, read one
    after the other, hold the coordinates of these detections, each as often
    as the input does.  A detection whose MAC or SSID cell is missing is
    counted nowhere, and every result stands for a detection of the input. *)
Theorem classify_covers_input
  (haversine : coord -> coord -> Q) (df : list csv_row) :
  let results := classify haversine df in
  NoDup (map (fun r => (cl_mac r, cl_ssid r)) results)
  /\ (forall d key, In d df -> identity_key d = Some key ->
        exists r, In r results /\ cl_mac r = fst key /\ cl_ssid r = snd key
                  /\ In (c_latitude d, c_longitude d) (cl_coords r))
  /\ Permutation (concat (map cl_coords results))
       (coords_of_csv
          (filter (fun d => Flagged.notna (c_mac d) && Flagged.notna (c_ssid d)) df))
  /\ (forall r, In r results ->
        exists d, In d df /\ identity_key d = Some (cl_mac r, cl_ssid r)).
Proof.
  intro results. unfold results, classify.
  assert (Hkeys : map (fun r => (cl_mac r, cl_ssid r))
                    (map (fun kg => ap_classify_rows haversine (fst (fst kg))
                                      (snd (fst kg)) (snd kg))
                         (groupby_identity df))
                  = map fst (groupby_identity df)).
  { rewrite map_map. apply map_ext. intros [[m s] g]. simpl. apply cl_key_eq. }
  split; [|split; [|split]].
  - rewrite Hkeys. unfold groupby_identity. rewrite map_map. simpl.
    rewrite map_id. apply sorted_keys_NoDup.
  - intros d key Hd Hkey.
    assert (Hk : In key (sorted_keys (Flagged.dropna (map identity_key df)))).
    { apply sorted_keys_In, dropna_In. rewrite <- Hkey. now apply in_map. }
    exists (ap_classify_rows haversine (fst key) (snd key)
              (filter (in_group key) df)).
    split; [|split; [|split]].
    + apply in_map_iff.
      exists (key, filter (in_group key) df).
      split; [reflexivity|].
      unfold groupby_identity. apply in_map_iff.
      exists key. split; [reflexivity|exact Hk].
    + pose proof (cl_key_eq haversine (fst key) (snd key)
                    (filter (in_group key) df)) as E.
      now injection E.
    + pose proof (cl_key_eq haversine (fst key) (snd key)
                    (filter (in_group key) df)) as E.
      now injection E.
    + rewrite cl_coords_eq. unfold coords_of_csv.
      apply (in_map (fun r => (c_latitude r, c_longitude r))).
      apply filter_In. split; [exact Hd|]. now apply in_group_spec.
  - rewrite map_map.
    rewrite (map_ext _ (fun kg => coords_of_csv (snd kg)))
      by (intros [[m s] g]; apply cl_coords_eq).
    rewrite <- (map_map snd coords_of_csv).
    unfold coords_of_csv at 1. rewrite <- concat_map.
    apply Permutation_map, groupby_identity_perm.
  - intros r Hr. apply in_map_iff in Hr as [[key group] [<- Hin]].
    unfold groupby_identity in Hin.
    apply in_map_iff in Hin as [k [Hk Hin]]. injection Hk as -> <-.
    apply (proj1 (sorted_keys_In _ _)) in Hin.
    apply dropna_In, in_map_iff in Hin as [d [Hd Hin]].
    exists d. split; [exact Hin|]. cbn [fst snd].
    pose proof (cl_key_eq haversine (fst key) (snd key) (filter (in_group key) df))
      as E.
    rewrite E. now destruct key.
Qed.

Lemma classify_covers_input_witness :
  exists r, In r (classify flat_distance named_and_hidden)
            /\ cl_mac r = "aa:bb:cc:dd:ee:ff"%string
            /\ cl_ssid r = "HomeRouter"%string
            /\ In (Some (1 # 1000), Some (11 # 1000)) (cl_coords r).
Proof.
  destruct (classify_covers_input flat_distance named_and_hidden) as [_ [H _]].
  apply (H (named_sighting (1 # 1000) (11 # 1000))
           ("aa:bb:cc:dd:ee:ff", "HomeRouter")%string).
  - vm_compute. right. right. left. reflexivity.
  - reflexivity.
Defined.

(** The run on [named_and_hidden]: the two sightings of the network without
    an SSID are in no result. *)
Example hidden_network_is_dropped :
  map (fun r => (cl_mac r, cl_ssid r, cl_coords r))
      (classify flat_distance named_and_hidden)
  = [("aa:bb:cc:dd:ee:ff"%string, "HomeRouter"%string,
      [(Some (1 # 1000), Some (1 # 1000)); (Some (1 # 1000), Some (11 # 1000))])].
Proof.
  vm_compute. reflexivity.
Qed.

(** ** Popup text *)

Lemma starts_with_plain (old' s : string) :
  contains_char backslash s = false ->
  starts_with (String backslash old') s = false.
Proof.
  intro H. destruct s as [|c s]; [reflexivity|].
  cbn [starts_with contains_char] in *.
  apply orb_false_iff in H as [Hc _].
  rewrite Ascii.eqb_sym, Hc. reflexivity.
Qed.

(** A replacement whose pattern starts with a backslash leaves text without
    backslash alone. *)
Lemma replace_plain (old' new s : string) :
  contains_char backslash s = false ->
  replace_from (String backslash old') new 0 s = s.
Proof.
  induction s as [|c s IH]; intro H; [reflexivity|].
  change (replace_from (String backslash old') new 0 (String c s))
    with (if starts_with (String backslash old') (String c s)
          then String.append new
                 (replace_from (String backslash old') new
                    (String.length (String backslash old') - 1) s)
          else String c (replace_from (String backslash old') new 0 s)).
  rewrite starts_with_plain by exact H.
  cbn [contains_char] in H. apply orb_false_iff in H as [_ Hs].
  now rewrite IH.
Qed.

Lemma remove_octal_plain (s : string) :
  contains_char backslash s = false -> remove_octal 0 s = s.
Proof.
  induction s as [|c s IH]; intro H; [reflexivity|].
  cbn [contains_char] in H. apply orb_false_iff in H as [Hc Hs].
  assert (E : octal_escape_at (String c s) = false).
  { unfold octal_escape_at. destruct s as [|d1 [|d2 [|d3 s]]]; try reflexivity.
    now rewrite Hc. }
  change (remove_octal 0 (String c s))
    with (if octal_escape_at (String c s) then remove_octal 3 s
          else String c (remove_octal 0 s)).
  now rewrite E, IH.
Qed.

(** X23.  [Map._escape_for_js] never alters ordinary text: a text that
    holds no backslash comes back unchanged. *)
Theorem escape_keeps_plain_text (text : string) :
  contains_char backslash text = false -> _escape_for_js text = text.
Proof.
  intro H. unfold _escape_for_js, octal_replacements, str_replace.
  cbn [fold_left fst snd].
  change "\054"%string with (String backslash "054").
  change "\040"%string with (String backslash "040").
  change "\041"%string with (String backslash "041").
  change "\042"%string with (String backslash "042").
  change "\047"%string with (String backslash "047").
  change "\134"%string with (String backslash "134").
  repeat rewrite (replace_plain _ _ text H).
  now apply remove_octal_plain.
Qed.

Lemma escape_keeps_plain_text_witness :
  _escape_for_js "Cafe, Guest" = "Cafe, Guest"%string.
Proof.
  apply escape_keeps_plain_text. reflexivity.
Defined.

Lemma contains_char_append (c : ascii) (a b : string) :
  contains_char c (String.append a b) = contains_char c a || contains_char c b.
Proof.
  induction a as [|x a IH]; [reflexivity|].
  cbn [String.append contains_char]. now rewrite IH, orb_assoc.
Qed.

(** A replacement passes over a leading stretch without backslash. *)
Lemma replace_after_plain (old' new a s : string) :
  contains_char backslash a = false ->
  replace_from (String backslash old') new 0 (String.append a s)
  = String.append a (replace_from (String backslash old') new 0 s).
Proof.
  induction a as [|c a IH]; intro H; [reflexivity|].
  cbn [contains_char] in H. apply orb_false_iff in H as [Hc Ha].
  cbn [String.append].
  change (replace_from (String backslash old') new 0 (String c (String.append a s)))
    with (if starts_with (String backslash old') (String c (String.append a s))
          then String.append new
                 (replace_from (String backslash old') new
                    (String.length (String backslash old') - 1) (String.append a s))
          else String c (replace_from (String backslash old') new 0 (String.append a s))).
  assert (E : starts_with (String backslash old') (String c (String.append a s)) = false).
  { cbn [starts_with]. rewrite Ascii.eqb_sym, Hc. reflexivity. }
  now rewrite E, IH.
Qed.

(** X24.  [Map._escape_for_js] decodes the octal sequences of its table
    that stand for a comma, a space, an exclamation mark, a double quote and
    an apostrophe: in a text that holds no other backslash, such a sequence is
    replaced by its character and nothing else changes. *)
Theorem escape_decodes_octal (a b octal char : string) :
  In (octal, char) (firstn 5 octal_replacements) ->
  contains_char backslash a = false ->
  contains_char backslash b = false ->
  _escape_for_js (String.append a (String.append octal b))
  = String.append a (String.append char b).
Proof.
  intros Hin Ha Hb.
  assert (Hplain : forall c : string,
             contains_char backslash c = false ->
             contains_char backslash (String.append a (String.append c b)) = false).
  { intros c Hc. rewrite !contains_char_append, Ha, Hc, Hb. reflexivity. }
  unfold _escape_for_js, octal_replacements, str_replace.
  cbn [fold_left fst snd].
  change "\054"%string with (String backslash "054").
  change "\040"%string with (String backslash "040").
  change "\041"%string with (String backslash "041").
  change "\042"%string with (String backslash "042").
  change "\047"%string with (String backslash "047").
  change "\134"%string with (String backslash "134").
  cbn [firstn octal_replacements] in Hin.
  unfold octal_replacements in Hin. cbn [firstn] in Hin.
  destruct Hin as [E|[E|[E|[E|[E|[]]]]]]; injection E as <- <-;
    repeat first
      [ rewrite (replace_plain _ _ _ (Hplain _ eq_refl))
      | rewrite (replace_after_plain _ _ a _ Ha);
        cbn [String.append replace_from starts_with String.length Nat.sub
             Ascii.eqb Bool.eqb andb backslash];
        rewrite ?(replace_plain _ _ b Hb) ];
    apply remove_octal_plain;
    rewrite contains_char_append, Ha; cbn [contains_char orb];
    rewrite Hb; reflexivity.
Qed.

Lemma escape_decodes_octal_witness :
  _escape_for_js "Cafe\054 Guest" = "Cafe, Guest"%string.
Proof.
  apply (escape_decodes_octal "Cafe" " Guest" "\054" ",").
  - left. reflexivity.
  - reflexivity.
  - reflexivity.
Defined.
